(** * landmarker.io viewport: scene graph, render gate, picking and overlay box

    A shallow embedding of [src/js/app/view/viewport/index.js].  JavaScript
    numbers are IEEE 754 binary64 values, embedded as Rocq's primitive
    floats, so every definition below evaluates. *)

From Stdlib Require Import ZArith List Bool String Lia Permutation.
From Stdlib Require Import Floats.
Import ListNotations.

(** ** JavaScript numbers *)

Module JS.
#[local] Open Scope float_scope.

Definition number := float.

(** [a === b] on numbers: NaN differs from itself, -0 equals +0. *)
Definition strict_eq (a b : number) : bool := PrimFloat.eqb a b.

Definition isNaN (a : number) : bool := negb (PrimFloat.eqb a a).

(** [a || b] on numbers: [b] when [a] is 0, -0 or NaN, else [a]. *)
Definition logical_or (a b : number) : number :=
  if strict_eq a 0 || isNaN a then b else a.

(** [Math.PI], the double nearest to pi. *)
Definition Math_PI : number := 0x1.921fb54442d18p+1%float.

(** [Math.min(a, b)]: NaN if either argument is NaN, and -0 is smaller
    than +0. *)
Definition Math_min (a b : number) : number :=
  if isNaN a then a
  else if isNaN b then b
  else if PrimFloat.ltb a b then a
  else if PrimFloat.ltb b a then b
  else if PrimFloat.ltb (1 / a) (1 / b) then a else b.

(** [Math.max(a, b)]: NaN if either argument is NaN, and +0 is larger
    than -0. *)
Definition Math_max (a b : number) : number :=
  if isNaN a then a
  else if isNaN b then b
  else if PrimFloat.ltb a b then b
  else if PrimFloat.ltb b a then a
  else if PrimFloat.ltb (1 / a) (1 / b) then b else a.

End JS.

Bind Scope float_scope with JS.number.

(** ** THREE.Vector3

    The methods of three.js's [Vector3] that the viewport calls, as the
    library defines them.  A method that mutates [this] returns the new
    value here; [clone] is the identity.  [normalize] divides by the length
    and gives the zero vector when the length is 0. *)

Module Vector3.
#[local] Open Scope float_scope.

Record t := mk { x : JS.number; y : JS.number; z : JS.number }.

(** [new THREE.Vector3(x, y, z)]: the constructor stores [x || 0],
    [y || 0] and [z || 0]. *)
Definition create (x y z : JS.number) : t :=
  mk (JS.logical_or x 0) (JS.logical_or y 0) (JS.logical_or z 0).

Definition addVectors (a b : t) : t :=
  mk (x a + x b) (y a + y b) (z a + z b).

Definition add (a v : t) : t := addVectors a v.

Definition sub (a v : t) : t :=
  mk (x a - x v) (y a - y v) (z a - z v).

Definition multiplyScalar (a : t) (s : JS.number) : t :=
  mk (x a * s) (y a * s) (z a * s).

Definition divideScalar (a : t) (s : JS.number) : t :=
  if JS.strict_eq s 0 then mk 0 0 0
  else let invScalar := (1 / s)%float in
       mk (x a * invScalar) (y a * invScalar) (z a * invScalar).

Definition dot (a v : t) : JS.number :=
  (x a * x v + y a * y v + z a * z v)%float.

Definition length (a : t) : JS.number :=
  PrimFloat.sqrt (x a * x a + y a * y a + z a * z a).

Definition normalize (a : t) : t := divideScalar a (length a).

Definition distanceToSquared (a v : t) : JS.number :=
  let dx := (x a - x v)%float in
  let dy := (y a - y v)%float in
  let dz := (z a - z v)%float in
  (dx * dx + dy * dy + dz * dz)%float.

Definition distanceTo (a v : t) : JS.number :=
  PrimFloat.sqrt (distanceToSquared a v).

Definition setZ (a : t) (z' : JS.number) : t := mk (x a) (y a) z'.

(** [a.equals(v)]: the components are [===]. *)
Definition equals (a v : t) : bool :=
  JS.strict_eq (x v) (x a) && JS.strict_eq (y v) (y a)
  && JS.strict_eq (z v) (z a).

End Vector3.

(** A heap-allocated vector: [===] on objects compares identity, not
    components, so every allocated vector carries its address. *)
Record VectorObj := { addr : nat; vec : Vector3.t }.

Definition same_object (a b : VectorObj) : bool := Nat.eqb (addr a) (addr b).

Definition vec3 (x y z : JS.number) : Vector3.t := Vector3.mk x y z.

Definition COORDS : list VectorObj :=
  [ {| addr := 0; vec := vec3 1 0 0 |};
    {| addr := 1; vec := vec3 (-1) 0 0 |};
    {| addr := 2; vec := vec3 0 1 0 |};
    {| addr := 3; vec := vec3 0 (-1) 0 |};
    {| addr := 4; vec := vec3 0 0 1 |};
    {| addr := 5; vec := vec3 0 0 (-1) |} ]%float.

(** [COORDS[i]]; [undefined] out of range. *)
Definition COORDS_at (i : nat) : option VectorObj := nth_error COORDS i.

Definition ORIGINAL_UP_VECTOR : VectorObj :=
  {| addr := 2; vec := vec3 0 1 0 |}.

(** One step of the [forEach] callback of [mainDirection]: the pair is the
    closure's [dist] and [main] ([None] is [undefined]). *)
Definition mainDirection_step (v : Vector3.t)
    (acc : JS.number * option VectorObj) (c : VectorObj)
    : JS.number * option VectorObj :=
  let '(dist, main) := acc in
  let d := Vector3.distanceTo v (vec c) in
  if PrimFloat.ltb d dist || match main with None => true | Some _ => false end
  then (d, Some c)
  else (dist, main).

Definition mainDirection (v : Vector3.t) : option VectorObj :=
  snd (fold_left (mainDirection_step v) COORDS (0%float, None)).

(** ** Scene graph nodes, meshes and cameras *)

(** A THREE quaternion, kept as the term of library calls that produced it:
    [Object3D.lookAt] overwrites the orientation, [Object3D.rotateOnAxis]
    multiplies it on the right by an axis-angle rotation. *)
Inductive Quaternion :=
| Q_identity
| Q_lookAt (target position up : Vector3.t)
| Q_axisAngle (axis : Vector3.t) (angle : JS.number)
| Q_multiply (q r : Quaternion).

Module Object3D.

Record t := mk {
  position : Vector3.t;
  up : Vector3.t;
  scale : Vector3.t;
  quaternion : Quaternion
}.

(** [new THREE.Object3D()]. *)
Definition create : t :=
  mk (vec3 0 0 0) (vec3 0 1 0) (vec3 1 1 1) Q_identity.

Definition set_position (o : t) (p : Vector3.t) : t :=
  mk p (up o) (scale o) (quaternion o).

Definition set_up (o : t) (u : Vector3.t) : t :=
  mk (position o) u (scale o) (quaternion o).

Definition set_scale (o : t) (s : Vector3.t) : t :=
  mk (position o) (up o) s (quaternion o).

Definition lookAt (o : t) (target : Vector3.t) : t :=
  mk (position o) (up o) (scale o) (Q_lookAt target (position o) (up o)).

Definition rotateOnAxis (o : t) (axis : Vector3.t) (angle : JS.number) : t :=
  mk (position o) (up o) (scale o)
     (Q_multiply (quaternion o) (Q_axisAngle axis angle)).

End Object3D.

Record Sphere := { center : Vector3.t; radius : JS.number }.

Record Geometry := {
  isBufferGeometry : bool;        (* geometry instanceof THREE.BufferGeometry *)
  boundingSphere : Sphere
}.

Record Mesh := { mesh_addr : nat; geometry : Geometry }.

(** What [model.mesh()] returns when it is not [null]. *)
Record MeshPayload := {
  payload_mesh : Mesh;
  payload_up : Vector3.t;
  payload_front : Vector3.t
}.

(** The result of [octree.octreeForBufferGeometry(geometry)]. *)
Record Octree := { octree_of : Geometry }.

Definition Matrix4 := list JS.number.

Record Camera := {
  cam_position : Vector3.t;
  matrixWorld : Matrix4;
  projectionMatrix : Matrix4
}.

(** The three cameras are created once; a reference to a camera is the
    field that holds it. *)
Inductive CameraRef := s_pCam_ref | s_oCam_ref | s_oCamZoom_ref.

Definition CameraRef_eqb (a b : CameraRef) : bool :=
  match a, b with
  | s_pCam_ref, s_pCam_ref | s_oCam_ref, s_oCam_ref
  | s_oCamZoom_ref, s_oCamZoom_ref => true
  | _, _ => false
  end.

Inductive SceneRef := scene_ref | sceneHelpers_ref.

(** Calls received by the WebGL renderer, oldest first. *)
Inductive GLCommand :=
| setViewport (x y width height : JS.number)
| setScissor (x y width height : JS.number)
| enableScissorTest (enable : bool)
| clear
| clearDepth
| render (scene : SceneRef) (camera : CameraRef)
| setClearColor (colour alpha : JS.number)
| setPixelRatio (value : JS.number)
| setSize (width height : JS.number).

Record Ray := { origin : Vector3.t; direction : Vector3.t }.

Record Box := { minX : JS.number; minY : JS.number;
                maxX : JS.number; maxY : JS.number }.

Record Point := { px : JS.number; py : JS.number }.

(** Of the callbacks the viewport registers with [listenTo], those for the
    camera controller and for the atomic counter; the application model's
    notifications are not part of this development. *)
Inductive Handler := h_update | h_batchHandler.

Inductive Emitter := e_cameraController | e_atomic.

Definition Emitter_eqb (a b : Emitter) : bool :=
  match a, b with
  | e_cameraController, e_cameraController | e_atomic, e_atomic => true
  | _, _ => false
  end.

Record Listener := {
  l_emitter : Emitter; l_event : string; l_handler : Handler
}.

(** ** Constants *)

Definition CLEAR_COLOUR : JS.number := 0xEEEEEE%float.
Definition CLEAR_COLOUR_PIP : JS.number := 0xCCCCCC%float.
Definition PIP_WIDTH : JS.number := 300%float.
Definition PIP_HEIGHT : JS.number := 300%float.
Definition MESH_SCALE : JS.number := 1%float.

(** ** The viewport *)

Record Viewport := {
  _upVector : VectorObj;
  s_scaleRotate : Object3D.t;
  s_translate : Object3D.t;
  s_h_scaleRotate : Object3D.t;
  s_h_translate : Object3D.t;
  s_mesh : list Mesh;                     (* children of the s_mesh node *)
  mesh : option Mesh;                     (* [None] is [null] *)
  octree : option Octree;
  meshScale : JS.number;
  s_camera : CameraRef;
  s_pCam : Camera;
  s_oCam : Camera;
  s_oCamZoom : Camera;
  renderer : option (list GLCommand);     (* [None] before it is created *)
  showConnectivity : bool;
  container_width : JS.number;            (* $container[0].offsetWidth *)
  container_height : JS.number;
  pipCanvas_display : option string;      (* pipCanvas.style.display *)
  ctxBox : Box;
  listeners : list Listener;
  ray : Ray;
  ATOMIC_OPERATION : Z                    (* the counter of model/atomic *)
}.

(** Field assignments [this.f = v]. *)

Definition set_upVector (v : VectorObj) (st : Viewport) : Viewport :=
  {| _upVector := v; s_scaleRotate := s_scaleRotate st;
     s_translate := s_translate st; s_h_scaleRotate := s_h_scaleRotate st;
     s_h_translate := s_h_translate st; s_mesh := s_mesh st; mesh := mesh st;
     octree := octree st; meshScale := meshScale st; s_camera := s_camera st;
     s_pCam := s_pCam st; s_oCam := s_oCam st; s_oCamZoom := s_oCamZoom st;
     renderer := renderer st; showConnectivity := showConnectivity st;
     container_width := container_width st;
     container_height := container_height st;
     pipCanvas_display := pipCanvas_display st; ctxBox := ctxBox st;
     listeners := listeners st; ray := ray st;
     ATOMIC_OPERATION := ATOMIC_OPERATION st |}.

Definition set_s_scaleRotate (v : Object3D.t) (st : Viewport) : Viewport :=
  {| _upVector := _upVector st; s_scaleRotate := v;
     s_translate := s_translate st; s_h_scaleRotate := s_h_scaleRotate st;
     s_h_translate := s_h_translate st; s_mesh := s_mesh st; mesh := mesh st;
     octree := octree st; meshScale := meshScale st; s_camera := s_camera st;
     s_pCam := s_pCam st; s_oCam := s_oCam st; s_oCamZoom := s_oCamZoom st;
     renderer := renderer st; showConnectivity := showConnectivity st;
     container_width := container_width st;
     container_height := container_height st;
     pipCanvas_display := pipCanvas_display st; ctxBox := ctxBox st;
     listeners := listeners st; ray := ray st;
     ATOMIC_OPERATION := ATOMIC_OPERATION st |}.

Definition set_s_translate (v : Object3D.t) (st : Viewport) : Viewport :=
  {| _upVector := _upVector st; s_scaleRotate := s_scaleRotate st;
     s_translate := v; s_h_scaleRotate := s_h_scaleRotate st;
     s_h_translate := s_h_translate st; s_mesh := s_mesh st; mesh := mesh st;
     octree := octree st; meshScale := meshScale st; s_camera := s_camera st;
     s_pCam := s_pCam st; s_oCam := s_oCam st; s_oCamZoom := s_oCamZoom st;
     renderer := renderer st; showConnectivity := showConnectivity st;
     container_width := container_width st;
     container_height := container_height st;
     pipCanvas_display := pipCanvas_display st; ctxBox := ctxBox st;
     listeners := listeners st; ray := ray st;
     ATOMIC_OPERATION := ATOMIC_OPERATION st |}.

Definition set_s_h_scaleRotate (v : Object3D.t) (st : Viewport) : Viewport :=
  {| _upVector := _upVector st; s_scaleRotate := s_scaleRotate st;
     s_translate := s_translate st; s_h_scaleRotate := v;
     s_h_translate := s_h_translate st; s_mesh := s_mesh st; mesh := mesh st;
     octree := octree st; meshScale := meshScale st; s_camera := s_camera st;
     s_pCam := s_pCam st; s_oCam := s_oCam st; s_oCamZoom := s_oCamZoom st;
     renderer := renderer st; showConnectivity := showConnectivity st;
     container_width := container_width st;
     container_height := container_height st;
     pipCanvas_display := pipCanvas_display st; ctxBox := ctxBox st;
     listeners := listeners st; ray := ray st;
     ATOMIC_OPERATION := ATOMIC_OPERATION st |}.

Definition set_s_h_translate (v : Object3D.t) (st : Viewport) : Viewport :=
  {| _upVector := _upVector st; s_scaleRotate := s_scaleRotate st;
     s_translate := s_translate st; s_h_scaleRotate := s_h_scaleRotate st;
     s_h_translate := v; s_mesh := s_mesh st; mesh := mesh st;
     octree := octree st; meshScale := meshScale st; s_camera := s_camera st;
     s_pCam := s_pCam st; s_oCam := s_oCam st; s_oCamZoom := s_oCamZoom st;
     renderer := renderer st; showConnectivity := showConnectivity st;
     container_width := container_width st;
     container_height := container_height st;
     pipCanvas_display := pipCanvas_display st; ctxBox := ctxBox st;
     listeners := listeners st; ray := ray st;
     ATOMIC_OPERATION := ATOMIC_OPERATION st |}.

Definition set_s_mesh (v : list Mesh) (st : Viewport) : Viewport :=
  {| _upVector := _upVector st; s_scaleRotate := s_scaleRotate st;
     s_translate := s_translate st; s_h_scaleRotate := s_h_scaleRotate st;
     s_h_translate := s_h_translate st; s_mesh := v; mesh := mesh st;
     octree := octree st; meshScale := meshScale st; s_camera := s_camera st;
     s_pCam := s_pCam st; s_oCam := s_oCam st; s_oCamZoom := s_oCamZoom st;
     renderer := renderer st; showConnectivity := showConnectivity st;
     container_width := container_width st;
     container_height := container_height st;
     pipCanvas_display := pipCanvas_display st; ctxBox := ctxBox st;
     listeners := listeners st; ray := ray st;
     ATOMIC_OPERATION := ATOMIC_OPERATION st |}.

Definition set_mesh (v : option Mesh) (st : Viewport) : Viewport :=
  {| _upVector := _upVector st; s_scaleRotate := s_scaleRotate st;
     s_translate := s_translate st; s_h_scaleRotate := s_h_scaleRotate st;
     s_h_translate := s_h_translate st; s_mesh := s_mesh st; mesh := v;
     octree := octree st; meshScale := meshScale st; s_camera := s_camera st;
     s_pCam := s_pCam st; s_oCam := s_oCam st; s_oCamZoom := s_oCamZoom st;
     renderer := renderer st; showConnectivity := showConnectivity st;
     container_width := container_width st;
     container_height := container_height st;
     pipCanvas_display := pipCanvas_display st; ctxBox := ctxBox st;
     listeners := listeners st; ray := ray st;
     ATOMIC_OPERATION := ATOMIC_OPERATION st |}.

Definition set_octree (v : option Octree) (st : Viewport) : Viewport :=
  {| _upVector := _upVector st; s_scaleRotate := s_scaleRotate st;
     s_translate := s_translate st; s_h_scaleRotate := s_h_scaleRotate st;
     s_h_translate := s_h_translate st; s_mesh := s_mesh st; mesh := mesh st;
     octree := v; meshScale := meshScale st; s_camera := s_camera st;
     s_pCam := s_pCam st; s_oCam := s_oCam st; s_oCamZoom := s_oCamZoom st;
     renderer := renderer st; showConnectivity := showConnectivity st;
     container_width := container_width st;
     container_height := container_height st;
     pipCanvas_display := pipCanvas_display st; ctxBox := ctxBox st;
     listeners := listeners st; ray := ray st;
     ATOMIC_OPERATION := ATOMIC_OPERATION st |}.

Definition set_meshScale (v : JS.number) (st : Viewport) : Viewport :=
  {| _upVector := _upVector st; s_scaleRotate := s_scaleRotate st;
     s_translate := s_translate st; s_h_scaleRotate := s_h_scaleRotate st;
     s_h_translate := s_h_translate st; s_mesh := s_mesh st; mesh := mesh st;
     octree := octree st; meshScale := v; s_camera := s_camera st;
     s_pCam := s_pCam st; s_oCam := s_oCam st; s_oCamZoom := s_oCamZoom st;
     renderer := renderer st; showConnectivity := showConnectivity st;
     container_width := container_width st;
     container_height := container_height st;
     pipCanvas_display := pipCanvas_display st; ctxBox := ctxBox st;
     listeners := listeners st; ray := ray st;
     ATOMIC_OPERATION := ATOMIC_OPERATION st |}.

Definition set_s_camera (v : CameraRef) (st : Viewport) : Viewport :=
  {| _upVector := _upVector st; s_scaleRotate := s_scaleRotate st;
     s_translate := s_translate st; s_h_scaleRotate := s_h_scaleRotate st;
     s_h_translate := s_h_translate st; s_mesh := s_mesh st; mesh := mesh st;
     octree := octree st; meshScale := meshScale st; s_camera := v;
     s_pCam := s_pCam st; s_oCam := s_oCam st; s_oCamZoom := s_oCamZoom st;
     renderer := renderer st; showConnectivity := showConnectivity st;
     container_width := container_width st;
     container_height := container_height st;
     pipCanvas_display := pipCanvas_display st; ctxBox := ctxBox st;
     listeners := listeners st; ray := ray st;
     ATOMIC_OPERATION := ATOMIC_OPERATION st |}.

Definition set_renderer (v : option (list GLCommand)) (st : Viewport) : Viewport :=
  {| _upVector := _upVector st; s_scaleRotate := s_scaleRotate st;
     s_translate := s_translate st; s_h_scaleRotate := s_h_scaleRotate st;
     s_h_translate := s_h_translate st; s_mesh := s_mesh st; mesh := mesh st;
     octree := octree st; meshScale := meshScale st; s_camera := s_camera st;
     s_pCam := s_pCam st; s_oCam := s_oCam st; s_oCamZoom := s_oCamZoom st;
     renderer := v; showConnectivity := showConnectivity st;
     container_width := container_width st;
     container_height := container_height st;
     pipCanvas_display := pipCanvas_display st; ctxBox := ctxBox st;
     listeners := listeners st; ray := ray st;
     ATOMIC_OPERATION := ATOMIC_OPERATION st |}.

Definition set_showConnectivity (v : bool) (st : Viewport) : Viewport :=
  {| _upVector := _upVector st; s_scaleRotate := s_scaleRotate st;
     s_translate := s_translate st; s_h_scaleRotate := s_h_scaleRotate st;
     s_h_translate := s_h_translate st; s_mesh := s_mesh st; mesh := mesh st;
     octree := octree st; meshScale := meshScale st; s_camera := s_camera st;
     s_pCam := s_pCam st; s_oCam := s_oCam st; s_oCamZoom := s_oCamZoom st;
     renderer := renderer st; showConnectivity := v;
     container_width := container_width st;
     container_height := container_height st;
     pipCanvas_display := pipCanvas_display st; ctxBox := ctxBox st;
     listeners := listeners st; ray := ray st;
     ATOMIC_OPERATION := ATOMIC_OPERATION st |}.

Definition set_pipCanvas_display (v : option string) (st : Viewport) : Viewport :=
  {| _upVector := _upVector st; s_scaleRotate := s_scaleRotate st;
     s_translate := s_translate st; s_h_scaleRotate := s_h_scaleRotate st;
     s_h_translate := s_h_translate st; s_mesh := s_mesh st; mesh := mesh st;
     octree := octree st; meshScale := meshScale st; s_camera := s_camera st;
     s_pCam := s_pCam st; s_oCam := s_oCam st; s_oCamZoom := s_oCamZoom st;
     renderer := renderer st; showConnectivity := showConnectivity st;
     container_width := container_width st;
     container_height := container_height st; pipCanvas_display := v;
     ctxBox := ctxBox st; listeners := listeners st; ray := ray st;
     ATOMIC_OPERATION := ATOMIC_OPERATION st |}.

Definition set_ctxBox (v : Box) (st : Viewport) : Viewport :=
  {| _upVector := _upVector st; s_scaleRotate := s_scaleRotate st;
     s_translate := s_translate st; s_h_scaleRotate := s_h_scaleRotate st;
     s_h_translate := s_h_translate st; s_mesh := s_mesh st; mesh := mesh st;
     octree := octree st; meshScale := meshScale st; s_camera := s_camera st;
     s_pCam := s_pCam st; s_oCam := s_oCam st; s_oCamZoom := s_oCamZoom st;
     renderer := renderer st; showConnectivity := showConnectivity st;
     container_width := container_width st;
     container_height := container_height st;
     pipCanvas_display := pipCanvas_display st; ctxBox := v;
     listeners := listeners st; ray := ray st;
     ATOMIC_OPERATION := ATOMIC_OPERATION st |}.

Definition set_listeners (v : list Listener) (st : Viewport) : Viewport :=
  {| _upVector := _upVector st; s_scaleRotate := s_scaleRotate st;
     s_translate := s_translate st; s_h_scaleRotate := s_h_scaleRotate st;
     s_h_translate := s_h_translate st; s_mesh := s_mesh st; mesh := mesh st;
     octree := octree st; meshScale := meshScale st; s_camera := s_camera st;
     s_pCam := s_pCam st; s_oCam := s_oCam st; s_oCamZoom := s_oCamZoom st;
     renderer := renderer st; showConnectivity := showConnectivity st;
     container_width := container_width st;
     container_height := container_height st;
     pipCanvas_display := pipCanvas_display st; ctxBox := ctxBox st;
     listeners := v; ray := ray st;
     ATOMIC_OPERATION := ATOMIC_OPERATION st |}.

Definition set_ray (v : Ray) (st : Viewport) : Viewport :=
  {| _upVector := _upVector st; s_scaleRotate := s_scaleRotate st;
     s_translate := s_translate st; s_h_scaleRotate := s_h_scaleRotate st;
     s_h_translate := s_h_translate st; s_mesh := s_mesh st; mesh := mesh st;
     octree := octree st; meshScale := meshScale st; s_camera := s_camera st;
     s_pCam := s_pCam st; s_oCam := s_oCam st; s_oCamZoom := s_oCamZoom st;
     renderer := renderer st; showConnectivity := showConnectivity st;
     container_width := container_width st;
     container_height := container_height st;
     pipCanvas_display := pipCanvas_display st; ctxBox := ctxBox st;
     listeners := listeners st; ray := v;
     ATOMIC_OPERATION := ATOMIC_OPERATION st |}.

Definition set_ATOMIC_OPERATION (v : Z) (st : Viewport) : Viewport :=
  {| _upVector := _upVector st; s_scaleRotate := s_scaleRotate st;
     s_translate := s_translate st; s_h_scaleRotate := s_h_scaleRotate st;
     s_h_translate := s_h_translate st; s_mesh := s_mesh st; mesh := mesh st;
     octree := octree st; meshScale := meshScale st; s_camera := s_camera st;
     s_pCam := s_pCam st; s_oCam := s_oCam st; s_oCamZoom := s_oCamZoom st;
     renderer := renderer st; showConnectivity := showConnectivity st;
     container_width := container_width st;
     container_height := container_height st;
     pipCanvas_display := pipCanvas_display st; ctxBox := ctxBox st;
     listeners := listeners st; ray := ray st; ATOMIC_OPERATION := v |}.

(** ** Methods: state passing with exceptions *)

Inductive Completion (A : Type) :=
| Normal (a : A)
| Throw (e : string).

Arguments Normal {A} a.
Arguments Throw {A} e.

Definition M (A : Type) := Viewport -> Completion A * Viewport.

Definition ret {A} (a : A) : M A := fun st => (Normal a, st).

Definition bind {A B} (c : M A) (k : A -> M B) : M B :=
  fun st => match c st with
            | (Normal a, st') => k a st'
            | (Throw e, st') => (Throw e, st')
            end.

Definition throw {A} (e : string) : M A := fun st => (Throw e, st).

Definition get {A} (f : Viewport -> A) : M A := fun st => (Normal (f st), st).

Definition modify (f : Viewport -> Viewport) : M unit :=
  fun st => (Normal tt, f st).

Declare Scope js_scope.
Delimit Scope js_scope with js.
Notation "x <- c ;; k" := (bind c (fun x => k))
  (at level 61, c at next level, right associativity) : js_scope.
Notation "c ;; k" := (bind c (fun _ => k))
  (at level 61, right associativity) : js_scope.

Definition TypeError : string := "TypeError".

(** ** Backbone's [listenTo] table *)

Definition CHANGE_ATOMIC_OPERATION : string := "change:ATOMIC_OPERATION".
Definition CHANGE_PIP : string := "changePip".

Definition listens (em : Emitter) (ev : string) (l : Listener) : bool :=
  Emitter_eqb (l_emitter l) em && String.eqb (l_event l) ev.

Definition listenTo (em : Emitter) (ev : string) (h : Handler)
    (st : Viewport) : Viewport :=
  set_listeners
    (listeners st ++ [{| l_emitter := em; l_event := ev; l_handler := h |}]) st.

Definition stopListening (em : Emitter) (ev : string) (st : Viewport)
    : Viewport :=
  set_listeners (filter (fun l => negb (listens em ev l)) (listeners st)) st.

(** ** Rendering *)

(** Modelled from the spec: [atomic.atomicOperationUnderway] of
    model/atomic.js, which is not among the sources; the depth counter is
    greater than zero while updates are suppressed. *)
Definition atomicOperationUnderway (st : Viewport) : bool :=
  (0 <? ATOMIC_OPERATION st)%Z.

(** Modelled from the spec: [atomic.atomicOperationFinished] of
    model/atomic.js; the outermost scope has closed when the depth counter
    is back at zero. *)
Definition atomicOperationFinished (st : Viewport) : bool :=
  (ATOMIC_OPERATION st =? 0)%Z.

Definition width (st : Viewport) : JS.number := container_width st.
Definition height (st : Viewport) : JS.number := container_height st.

Record Bounds := { b_x : JS.number; b_y : JS.number;
                   b_width : JS.number; b_height : JS.number }.

Definition pipBounds (st : Viewport) : Bounds :=
  let w := width st in
  let h := height st in
  let maxX := w in
  let maxY := h in
  let minX := (maxX - PIP_WIDTH)%float in
  let minY := (maxY - PIP_HEIGHT)%float in
  {| b_x := minX; b_y := minY; b_width := PIP_WIDTH; b_height := PIP_HEIGHT |}.

(** Step 1 of [update]: the main viewport. *)
Definition main_pass (st : Viewport) : list GLCommand :=
  let w := width st in
  let h := height st in
  [ setViewport 0 0 w h; setScissor 0 0 w h; enableScissorTest true;
    clear; render scene_ref (s_camera st) ]
  ++ (if showConnectivity st
      then [ clearDepth; render sceneHelpers_ref (s_camera st) ]
      else []).

(** Step 2 of [update]: the picture in picture, in orthographic mode. *)
Definition pip_pass (st : Viewport) : list GLCommand :=
  let b := pipBounds st in
  [ setClearColor CLEAR_COLOUR_PIP 1;
    setViewport (b_x b) (b_y b) (b_width b) (b_height b);
    setScissor (b_x b) (b_y b) (b_width b) (b_height b);
    enableScissorTest true;
    clear;
    render scene_ref s_oCamZoom_ref ]
  ++ (if showConnectivity st
      then [ clearDepth; render sceneHelpers_ref s_oCamZoom_ref ]
      else [])
  ++ [ setClearColor CLEAR_COLOUR 1 ].

(** The renderer calls of one [update] that is not suppressed. *)
Definition frame (st : Viewport) : list GLCommand :=
  main_pass st
  ++ (if CameraRef_eqb (s_camera st) s_oCam_ref then pip_pass st else []).

Definition update (st : Viewport) : Viewport :=
  match renderer st with
  | None => st
  | Some calls =>
      if atomicOperationUnderway st then st
      else set_renderer (Some (calls ++ frame st)) st
  end.

Definition batchHandler (st : Viewport) : Viewport :=
  if atomicOperationFinished st then update st else st.

Definition run_handler (h : Handler) : Viewport -> Viewport :=
  match h with
  | h_update => update
  | h_batchHandler => batchHandler
  end.

(** [emitter.trigger(event)]: every callback registered for the event runs,
    in registration order. *)
Definition trigger (em : Emitter) (ev : string) (st : Viewport) : Viewport :=
  fold_left (fun s l => if listens em ev l then run_handler (l_handler l) s
                        else s)
            (listeners st) st.

(** ** The atomic-operation gate *)

(** Modelled from the spec: the counter of model/atomic.js is a Backbone
    attribute, so each assignment notifies the listeners of
    [change:ATOMIC_OPERATION]. *)
Definition set_depth (d : Z) (st : Viewport) : Viewport :=
  trigger e_atomic CHANGE_ATOMIC_OPERATION (set_ATOMIC_OPERATION d st).

(** Modelled from the spec: entering an atomic operation of model/atomic.js
    increments the depth counter. *)
Definition startAtomicOperation (st : Viewport) : Viewport :=
  set_depth (ATOMIC_OPERATION st + 1) st.

(** Modelled from the spec: leaving an atomic operation of model/atomic.js
    decrements the depth counter. *)
Definition endAtomicOperation (st : Viewport) : Viewport :=
  set_depth (ATOMIC_OPERATION st - 1) st.

(** Modelled from the spec: [atomic.atomicOperation(f)] of model/atomic.js
    increments the depth counter, runs [f], then decrements on every exit
    path. *)
Definition atomicOperation {A} (f : M A) : M A :=
  fun st => let (r, st') := f (startAtomicOperation st) in
            (r, endAtomicOperation st').

(** ** Up-vector reorientation *)

Local Open Scope js_scope.

(** The [for] loop of [pointUp]: [i] takes the values 0, 2 and 4; [axis] is
    assigned at each turn and the loop breaks at the first zero dot
    product.  [s.dot(undefined)] would throw. *)
Fixpoint pointUp_axis (s : Vector3.t) (idxs : list nat) (axis : option VectorObj)
    : Completion (option VectorObj) :=
  match idxs with
  | [] => Normal axis
  | i :: idxs' =>
      match COORDS_at i with
      | None => Throw TypeError
      | Some a =>
          let d := Vector3.dot s (vec a) in
          if JS.strict_eq d 0 then Normal (Some a)
          else pointUp_axis s idxs' (Some a)
      end
  end.

(** The function wrapped by [atomic.atomicOperation] in [pointUp]. *)
Definition pointUp_body (v : Vector3.t) : M unit :=
  match mainDirection (Vector3.normalize v) with
  | None => throw TypeError      (* addVectors on [undefined] *)
  | Some newUpVector =>
      upVector <- get _upVector ;;
      if same_object newUpVector upVector then ret tt
      else
        let s := Vector3.addVectors (vec newUpVector) (vec upVector) in
        match pointUp_axis s [0; 2; 4]%nat None with
        | Throw e => throw e
        | Normal None => throw TypeError
        | Normal (Some axis) =>
            let angle :=
              if JS.strict_eq (Vector3.length s) 0
              then (-1 * JS.Math_PI)%float
              else
                let s := Vector3.add s (vec axis) in
                let multiplier :=
                  (Vector3.x s * Vector3.y s * Vector3.z s)%float in
                (multiplier * JS.Math_PI / 2)%float in
            modify (set_upVector newUpVector) ;;
            modify (fun st => set_s_scaleRotate
                       (Object3D.rotateOnAxis (s_scaleRotate st) (vec axis) angle) st) ;;
            modify (fun st => set_s_h_scaleRotate
                       (Object3D.rotateOnAxis (s_h_scaleRotate st) (vec axis) angle) st)
        end
  end.

Definition pointUp (v : Vector3.t) : M unit :=
  atomicOperation (pointUp_body v).

(** The rotation rule as the specification words it: the axes at the even
    positions of [COORDS], the first of them orthogonal to the sum of the
    two up vectors, and the product of the components of the sum plus that
    axis. *)
Definition even_axes : list VectorObj :=
  flat_map (fun i => match COORDS_at i with Some a => [a] | None => [] end)
           [0; 2; 4]%nat.

Definition first_orthogonal_axis (s : Vector3.t) : option VectorObj :=
  find (fun a => JS.strict_eq (Vector3.dot s (vec a)) 0) even_axes.

Definition quarter_turn_sign (s : Vector3.t) (axis : VectorObj) : JS.number :=
  let s := Vector3.add s (vec axis) in
  (Vector3.x s * Vector3.y s * Vector3.z s)%float.

(** ** Changing the mesh *)

Definition Mesh_eqb (a b : Mesh) : bool := Nat.eqb (mesh_addr a) (mesh_addr b).

Definition removeMeshIfPresent (st : Viewport) : Viewport :=
  match mesh st with
  | Some m =>
      set_octree None
        (set_mesh None
           (set_s_mesh (filter (fun c => negb (Mesh_eqb c m)) (s_mesh st)) st))
  | None => st
  end.

(** [memoryString] reads [this.renderer.info], which throws while the
    renderer is undefined. *)
Definition memoryString : M unit :=
  r <- get renderer ;;
  match r with
  | None => throw TypeError
  | Some _ => ret tt
  end.

(** [changeMesh], with the payload [this.model.mesh()] returns. *)
Definition changeMesh (meshPayload : option MeshPayload) : M unit :=
  memoryString ;;
  modify removeMeshIfPresent ;;
  match meshPayload with
  | None => ret tt
  | Some p =>
      let mesh := payload_mesh p in
      let up := payload_up p in
      let front := payload_front p in
      modify (set_mesh (Some mesh)) ;;
      (if isBufferGeometry (geometry mesh)
       then modify (set_octree (Some {| octree_of := geometry mesh |}))
       else ret tt) ;;
      modify (fun st => set_s_mesh (s_mesh st ++ [mesh]) st) ;;
      modify (set_meshScale (radius (boundingSphere (geometry mesh)))) ;;
      meshScale <- get meshScale ;;
      let s := (1.0 / meshScale)%float in
      modify (fun st => set_s_scaleRotate
                (Object3D.set_scale (s_scaleRotate st) (vec3 s s s)) st) ;;
      modify (fun st => set_s_h_scaleRotate
                (Object3D.set_scale (s_h_scaleRotate st) (vec3 s s s)) st) ;;
      modify (fun st => set_s_scaleRotate
                (Object3D.set_up (s_scaleRotate st) up) st) ;;
      modify (fun st => set_s_h_scaleRotate
                (Object3D.set_up (s_h_scaleRotate st) up) st) ;;
      modify (fun st => set_s_scaleRotate
                (Object3D.lookAt (s_scaleRotate st) front) st) ;;
      modify (fun st => set_s_h_scaleRotate
                (Object3D.lookAt (s_h_scaleRotate st) front) st) ;;
      let t := center (boundingSphere (geometry mesh)) in
      let t := Vector3.multiplyScalar t (-1.0) in
      modify (fun st => set_s_translate
                (Object3D.set_position (s_translate st) t) st) ;;
      modify (fun st => set_s_h_translate
                (Object3D.set_position (s_h_translate st) t) st) ;;
      modify update
  end.

(** ** The 2D overlay's dirty box *)

Definition EMPTY_BOX : Box :=
  {| minX := 999999; minY := 999999; maxX := 0; maxY := 0 |}.

Definition expandBox (box : Box) (point : Point) : Box :=
  {| minX := JS.Math_min (minX box) (px point);
     minY := JS.Math_min (minY box) (py point);
     maxX := JS.Math_max (maxX box) (px point);
     maxY := JS.Math_max (maxY box) (py point) |}.

Definition updateCanvasBoundingBox (point : Point) (st : Viewport) : Viewport :=
  set_ctxBox (expandBox (ctxBox st) point) st.

(** [clearCanvas]: the cleared region of the 2D surface is not part of the
    state; the dirty box goes back to its sentinel. *)
Definition clearCanvas (st : Viewport) : Viewport :=
  set_ctxBox EMPTY_BOX st.

(** ** Switching cameras *)

Definition DISPLAY_NONE : option string := Some "none"%string.

Definition toggleCamera (st : Viewport) : Viewport :=
  let currentlyPerspective := CameraRef_eqb (s_camera st) s_pCam_ref in
  let st :=
    if currentlyPerspective then
      let st := listenTo e_cameraController CHANGE_PIP h_update st in
      let st := set_s_camera s_oCam_ref st in
      set_pipCanvas_display None st
    else
      let st := stopListening e_cameraController CHANGE_PIP st in
      let st := set_s_camera s_pCam_ref st in
      set_pipCanvas_display DISPLAY_NONE st in
  let st := clearCanvas st in
  update st.

(** ** Construction *)

(** What [initialize] reads from its collaborators: the application model,
    the DOM container, the cameras built for the controller and the
    process-wide atomic counter. *)
Record Environment := {
  env_meshMode : bool;                 (* model.meshMode() *)
  env_mesh : option MeshPayload;       (* model.mesh() *)
  env_connectivityOn : bool;           (* model.isConnectivityOn() *)
  env_width : JS.number;
  env_height : JS.number;
  env_devicePixelRatio : option JS.number;   (* window.devicePixelRatio *)
  env_pCam : Camera;
  env_oCam : Camera;
  env_oCamZoom : Camera;
  env_depth : Z
}.

(** The fields as [initialize] first assigns them. *)
Definition fresh_viewport (env : Environment) : Viewport :=
  {| _upVector := ORIGINAL_UP_VECTOR;
     s_scaleRotate := Object3D.create;
     s_translate := Object3D.create;
     s_h_scaleRotate := Object3D.create;
     s_h_translate := Object3D.create;
     s_mesh := [];
     mesh := None;
     octree := None;
     meshScale := MESH_SCALE;
     s_camera := s_pCam_ref;
     s_pCam := env_pCam env;
     s_oCam := env_oCam env;
     s_oCamZoom := env_oCamZoom env;
     renderer := None;
     showConnectivity := false;           (* undefined until assigned *)
     container_width := env_width env;
     container_height := env_height env;
     pipCanvas_display := DISPLAY_NONE;
     ctxBox := EMPTY_BOX;
     listeners := [];
     ray := {| origin := vec3 0 0 0; direction := vec3 0 0 0 |};
     ATOMIC_OPERATION := env_depth env |}.

(** [resetCamera] repositions the cameras through the camera controller,
    a collaborator outside this state, and then calls [update]. *)
Definition resetCamera : Viewport -> Viewport := update.

Definition updateConnectivityDisplay (connectivityOn : bool) : M unit :=
  atomicOperation (modify (set_showConnectivity connectivityOn)).

Definition updateEditingDisplay : M unit :=
  atomicOperation (modify clearCanvas).

(** [resize]: the camera controller, the 2D canvas and the PIP canvas are
    resized outside this state; the renderer receives [setSize], which
    throws while the renderer is undefined; then [update] runs. *)
Definition resize : M unit :=
  w <- get width ;;
  h <- get height ;;
  r <- get renderer ;;
  match r with
  | None => throw TypeError
  | Some calls =>
      modify (set_renderer (Some (calls ++ [setSize w h]))) ;;
      modify update
  end.

(** [window.devicePixelRatio || 1]. *)
Definition pixelRatio (env : Environment) : JS.number :=
  match env_devicePixelRatio env with
  | Some ratio => JS.logical_or ratio 1
  | None => 1%float
  end.

(** The calls the renderer receives when [initialize] creates it. *)
Definition renderer_created (env : Environment) : list GLCommand :=
  [setPixelRatio (pixelRatio env); setClearColor CLEAR_COLOUR 1].

(** The calls of [initialize] that reach the modelled state, in source
    order: the camera toggle for images, [resetCamera], the creation of the
    renderer, [changeMesh], the assignment of [showConnectivity], the two
    display updates, the subscription to the atomic counter and [resize]. *)
Definition initialize (env : Environment) : Completion unit * Viewport :=
  ((if env_meshMode env then ret tt else modify toggleCamera) ;;
   modify resetCamera ;;
   modify (set_renderer (Some (renderer_created env))) ;;
   changeMesh (env_mesh env) ;;
   modify (set_showConnectivity true) ;;
   updateConnectivityDisplay (env_connectivityOn env) ;;
   updateEditingDisplay ;;
   modify (listenTo e_atomic CHANGE_ATOMIC_OPERATION h_batchHandler) ;;
   resize)
  (fresh_viewport env).

Definition default_camera : Camera :=
  {| cam_position := vec3 0 0 0; matrixWorld := []; projectionMatrix := [] |}.

(** A mesh-mode session on an 800x600 container, no asset loaded yet. *)
Definition sample_environment : Environment :=
  {| env_meshMode := true; env_mesh := None; env_connectivityOn := true;
     env_width := 800; env_height := 600; env_devicePixelRatio := Some 1%float;
     env_pCam := default_camera; env_oCam := default_camera;
     env_oCamZoom := default_camera; env_depth := 0 |}.

Definition sample_viewport : Viewport := snd (initialize sample_environment).

(** ** Sequences of scene-graph calls *)

Inductive Call :=
| call_changeMesh (meshPayload : option MeshPayload)
| call_pointUp (v : Vector3.t).

Definition run_call (c : Call) : M unit :=
  match c with
  | call_changeMesh meshPayload => changeMesh meshPayload
  | call_pointUp v => pointUp v
  end.

(** Each call is one event delivered to the viewport; a call that throws
    leaves the state it reached to the next. *)
Definition run_calls (cs : list Call) (st : Viewport) : Viewport :=
  fold_left (fun s c => snd (run_call c s)) cs st.

(** The helper hierarchy mirrors the primary one. *)
Definition mirrored (st : Viewport) : Prop :=
  s_h_scaleRotate st = s_scaleRotate st /\ s_h_translate st = s_translate st.

(** The up vector is one of the six axis vectors of [COORDS]. *)
Definition canonical_up (st : Viewport) : Prop := In (_upVector st) COORDS.

Definition scene_invariant (st : Viewport) : Prop :=
  mirrored st /\ canonical_up st.

(** ** Nested atomic operations *)

(** What can happen to the viewport inside an atomic operation: a render
    request, a scene-graph call, a camera toggle, or a nested atomic
    operation. *)
Unset Elimination Schemes.
Inductive Action :=
| act_update
| act_call (c : Call)
| act_toggleCamera
| act_atomic (body : list Action).
Set Elimination Schemes.

Fixpoint run_action (a : Action) (st : Viewport) : Viewport :=
  match a with
  | act_update => update st
  | act_call c => snd (run_call c st)
  | act_toggleCamera => toggleCamera st
  | act_atomic body =>
      snd (atomicOperation
             (modify (fun s => fold_left (fun s a => run_action a s) body s))
             st)
  end.

Definition run_actions (body : list Action) (st : Viewport) : Viewport :=
  fold_left (fun s a => run_action a s) body st.

(** The callbacks registered for the atomic counter's change event. *)
Definition atomic_handlers (st : Viewport) : list Handler :=
  map l_handler (filter (listens e_atomic CHANGE_ATOMIC_OPERATION)
                        (listeners st)).

(** ** Picking *)

Record Intersection := { distance : JS.number; hit_object : nat }.

(** The [object] argument of [getIntersects]: [null], an array of scene
    objects, or one scene object; objects are named by their address. *)
Inductive Target :=
| target_null
| target_array (objects : list nat)
| target_object (object : nat).

(** The landmark's [THREE.Object3D]. *)
Record Symbol := { symbol_addr : nat; symbol_position : Vector3.t }.

(** A landmark view; [symbol] is [None] when the view has no representation. *)
Record LmView := { symbol : option Symbol }.

Definition camera_at (st : Viewport) (c : CameraRef) : Camera :=
  match c with
  | s_pCam_ref => s_pCam st
  | s_oCam_ref => s_oCam st
  | s_oCamZoom_ref => s_oCamZoom st
  end.

(** [object === this.mesh]. *)
Definition is_active_mesh (st : Viewport) (object : Target) : option Mesh :=
  match object, mesh st with
  | target_object a, Some m => if Nat.eqb a (mesh_addr m) then Some m else None
  | _, _ => None
  end.

(** The screen point in normalised device coordinates, at mid depth, as
    the vector [getIntersects] constructs: a coordinate that comes out as
    NaN or as either zero is stored as 0. *)
Definition screen_vector (st : Viewport) (x y : JS.number) : Vector3.t :=
  Vector3.create ((x / width st) * 2 - 1) (- (y / height st) * 2 + 1) 0.5.

Section Picking.

(** The camera mathematics of THREE and the ray casters of THREE and of
    model/octree, which the viewport calls but does not define. *)
Variable unproject : Vector3.t -> Camera -> Vector3.t.
Variable project : Vector3.t -> Camera -> Vector3.t.
Variable transformDirection : Vector3.t -> Matrix4 -> Vector3.t.
Variable localToWorld : Viewport -> Vector3.t -> Vector3.t.
Variable intersetMesh : Ray -> Mesh -> Octree -> list Intersection.
Variable intersectObjects : Ray -> list nat -> list Intersection.
Variable intersectObject : Ray -> nat -> list Intersection.

(** The ray [getIntersects] stores in [this.ray] for a screen point. *)
Definition picking_ray (st : Viewport) (x y : JS.number) : Ray :=
  let vector := screen_vector st x y in
  let camera := camera_at st (s_camera st) in
  if CameraRef_eqb (s_camera st) s_pCam_ref then
    let vector := Vector3.setZ vector 0.5 in
    let vector := unproject vector camera in
    {| origin := cam_position camera;
       direction :=
         Vector3.normalize (Vector3.sub vector (cam_position camera)) |}
  else
    let vector := Vector3.setZ vector (-1) in
    let vector := unproject vector camera in
    let dir := transformDirection (vec3 0 0 (-1)) (matrixWorld camera) in
    {| origin := vector; direction := dir |}.

Definition is_empty_target (object : Target) : bool :=
  match object with
  | target_null => true
  | target_array [] => true
  | _ => false
  end.

Definition getIntersects (x y : JS.number) (object : Target)
    : M (list Intersection) :=
  if is_empty_target object then ret []
  else
    modify (fun st => set_ray (picking_ray st x y) st) ;;
    st <- get (fun st => st) ;;
    match is_active_mesh st object, octree st with
    | Some m, Some o => ret (intersetMesh (ray st) m o)
    | _, _ =>
        match object with
        | target_array objects => ret (intersectObjects (ray st) objects)
        | target_object a => ret (intersectObject (ray st) a)
        | target_null => ret []
        end
    end.

Definition worldToScreen (st : Viewport) (vector : Vector3.t) : Vector3.t :=
  let widthHalf := (width st / 2)%float in
  let heightHalf := (height st / 2)%float in
  let result := project vector (camera_at st (s_camera st)) in
  Vector3.mk (Vector3.x result * widthHalf + widthHalf)
             (- (Vector3.y result * heightHalf) + heightHalf)
             (Vector3.z result).

Definition lmToScreen (st : Viewport) (lmSymbol : Symbol) : Vector3.t :=
  let pos := symbol_position lmSymbol in
  worldToScreen st (localToWorld st pos).

(** [this.mesh] passed as the [object] of [getIntersects]. *)
Definition mesh_target (st : Viewport) : Target :=
  match mesh st with
  | None => target_null
  | Some m => target_object (mesh_addr m)
  end.

Definition lmViewVisible (lmView : LmView) : M bool :=
  match symbol lmView with
  | None => ret false
  | Some sym =>
      screenCoords <- get (fun st => lmToScreen st sym) ;;
      target <- get mesh_target ;;
      iMesh <- getIntersects (Vector3.x screenCoords)
                             (Vector3.y screenCoords) target ;;
      iLm <- getIntersects (Vector3.x screenCoords)
                           (Vector3.y screenCoords)
                           (target_object (symbol_addr sym)) ;;
      match iMesh with
      | [] => ret true
      | hitMesh :: _ =>
          match iLm with
          | [] => throw TypeError     (* iLm[0] is undefined *)
          | hitLm :: _ =>
              ret (PrimFloat.ltb (distance hitLm) (distance hitMesh))
          end
      end
  end.

End Picking.

(** * Notions used in the statements *)

(** ** Scene graph *)

(** The scene graph as [pointUp] and [changeMesh] see it. *)
Definition scene_of (st : Viewport)
    : VectorObj * (Object3D.t * Object3D.t) * (Object3D.t * Object3D.t) :=
  (_upVector st, (s_scaleRotate st, s_translate st),
   (s_h_scaleRotate st, s_h_translate st)).

(** The state [pointUp]'s body leaves when the up vector changes. *)
Definition reoriented (newUp : VectorObj) (axis : Vector3.t) (angle : JS.number)
    (st : Viewport) : Viewport :=
  set_s_h_scaleRotate (Object3D.rotateOnAxis (s_h_scaleRotate st) axis angle)
    (set_s_scaleRotate (Object3D.rotateOnAxis (s_scaleRotate st) axis angle)
       (set_upVector newUp st)).

(** The transforms [changeMesh] writes for a payload, on the primary and on
    the helper nodes alike. *)
Definition normalised (p : MeshPayload) (node : Object3D.t) : Object3D.t :=
  let s := (1.0 / radius (boundingSphere (geometry (payload_mesh p))))%float in
  Object3D.lookAt
    (Object3D.set_up (Object3D.set_scale node (vec3 s s s)) (payload_up p))
    (payload_front p).

Definition recentred (p : MeshPayload) (node : Object3D.t) : Object3D.t :=
  Object3D.set_position node
    (Vector3.multiplyScalar
       (center (boundingSphere (geometry (payload_mesh p)))) (-1.0)).

(** A mesh whose bounding sphere has radius 2 and centre (1,0,0). *)
Definition sample_payload : MeshPayload :=
  {| payload_mesh :=
       {| mesh_addr := 100;
          geometry := {| isBufferGeometry := true;
                         boundingSphere := {| center := vec3 1 0 0;
                                              radius := 2 |} |} |};
     payload_up := vec3 0 1 0;
     payload_front := vec3 0 0 1 |}.

(** ** Render gate *)

(** What an operation may not disturb while the gate is closed. *)
Definition gate_of (st : Viewport) : option (list GLCommand) * Z * list Handler :=
  (renderer st, ATOMIC_OPERATION st, atomic_handlers st).

(** The gate is closed and the viewport holds its one subscription to the
    counter. *)
Definition suppressed (st : Viewport) : Prop :=
  (0 < ATOMIC_OPERATION st)%Z /\ atomic_handlers st = [h_batchHandler].

(** What the gate relies on across a call: the subscriptions and the
    counter. *)
Definition wiring_of (st : Viewport) : list Listener * Z :=
  (listeners st, ATOMIC_OPERATION st).

Definition has_renderer (st : Viewport) : Prop := renderer st <> None.

(** A batch with a render request, a nested batch, a reorientation and a
    camera toggle. *)
Definition sample_batch : list Action :=
  [ act_update;
    act_atomic [act_update];
    act_call (call_pointUp (vec3 0 0 1));
    act_toggleCamera ].

(** ** Picture in picture *)

(** The subscription [toggleCamera] makes when it enters orthographic mode. *)
Definition PIP_LISTENER : Listener :=
  {| l_emitter := e_cameraController; l_event := CHANGE_PIP;
     l_handler := h_update |}.

(** [renderer.render(this.scene, camera)]. *)
Definition is_scene_render (camera : CameraRef) (c : GLCommand) : bool :=
  match c with
  | render scene_ref camera' => CameraRef_eqb camera' camera
  | _ => false
  end.

(** The renderer calls that only the PIP pass makes. *)
Definition is_pip_call (c : GLCommand) : bool :=
  match c with
  | render _ s_oCamZoom_ref => true
  | setClearColor colour _ => JS.strict_eq colour CLEAR_COLOUR_PIP
  | _ => false
  end.

(** ** Dirty box *)

(** The box after [updateCanvasBoundingBox] has been called for each point
    in turn. *)
Definition fold_points (box : Box) (points : list Point) : Box :=
  fold_left expandBox points box.

Definition draw_points (points : list Point) (st : Viewport) : Viewport :=
  fold_left (fun s p => updateCanvasBoundingBox p s) points st.

(** [minX <= x <= maxX] and [minY <= y <= maxY], with JavaScript's [<=]. *)
Definition contains (box : Box) (point : Point) : bool :=
  PrimFloat.leb (minX box) (px point) && PrimFloat.leb (px point) (maxX box)
  && PrimFloat.leb (minY box) (py point) && PrimFloat.leb (py point) (maxY box).

(** [outer] reaches at least as far as [inner] on every side. *)
Definition covers (outer inner : Box) : bool :=
  PrimFloat.leb (minX outer) (minX inner)
  && PrimFloat.leb (maxX inner) (maxX outer)
  && PrimFloat.leb (minY outer) (minY inner)
  && PrimFloat.leb (maxY inner) (maxY outer).

(** Coordinates and bounds that are numbers, that is, not NaN. *)
Definition numeric_point (p : Point) : Prop :=
  JS.isNaN (px p) = false /\ JS.isNaN (py p) = false.

Definition numeric_box (b : Box) : Prop :=
  JS.isNaN (minX b) = false /\ JS.isNaN (minY b) = false
  /\ JS.isNaN (maxX b) = false /\ JS.isNaN (maxY b) = false.

Definition NaN_POINT : Point := {| px := nan; py := 0 |}.

Definition UNIT_POINT : Point := {| px := 1; py := 1 |}.

(** ** The order of the doubles

    Every double that is not NaN gets an integer key, and the keys order
    the doubles as IEEE 754 does.  [SFkey0] gives both zeros the key 0, as
    the comparisons [<] and [<=] do; [SFkey] puts -0 below +0, as
    [Math.min] and [Math.max] do.  A finite double has a mantissa below
    2^53 and an exponent from -1074 to 971. *)

Definition P53 : Z := 9007199254740992.

Definition finite_key (m : positive) (e : Z) : Z :=
  ((e + 1076) * P53 + Zpos m)%Z.

Definition SFkey (x : spec_float) : Z :=
  match x with
  | S754_nan => 0
  | S754_zero s => if s then -1 else 1
  | S754_infinity s => if s then - (4096 * P53) else 4096 * P53
  | S754_finite s m e => if s then - finite_key m e else finite_key m e
  end%Z.

Definition SFkey0 (x : spec_float) : Z :=
  match x with
  | S754_zero _ => 0
  | _ => SFkey x
  end.

Definition SFnumeric (x : spec_float) : Prop :=
  valid_binary x = true /\ x <> S754_nan.

Definition fkey (a : float) : Z := SFkey (Prim2SF a).

Definition fkey0 (a : float) : Z := SFkey0 (Prim2SF a).

(** [Math.min] picks the argument of least rank, NaN ranking lowest. *)
Definition rank_min (a : float) : Z :=
  if JS.isNaN a then (- (8192 * P53))%Z else fkey a.

(** [Math.max] picks the argument of greatest rank, NaN ranking highest. *)
Definition rank_max (a : float) : Z :=
  if JS.isNaN a then (8192 * P53)%Z else fkey a.

(** The box and a point inside it, read through the keys. *)
Definition key_inside (box : Box) (p : Point) : Prop :=
  (fkey0 (minX box) <= fkey0 (px p) <= fkey0 (maxX box)
   /\ fkey0 (minY box) <= fkey0 (py p) <= fkey0 (maxY box))%Z.

Definition key_covers (outer inner : Box) : Prop :=
  (fkey0 (minX outer) <= fkey0 (minX inner)
   /\ fkey0 (maxX inner) <= fkey0 (maxX outer)
   /\ fkey0 (minY outer) <= fkey0 (minY inner)
   /\ fkey0 (maxY inner) <= fkey0 (maxY outer))%Z.

(** ** A concrete picking set-up *)

(** Stand-ins for the library's camera mathematics and ray casters: the
    identity projection and casters that hit nothing. *)
Definition sample_unproject (v : Vector3.t) (_ : Camera) : Vector3.t := v.

Definition sample_transformDirection (v : Vector3.t) (_ : Matrix4)
    : Vector3.t := v.

Definition sample_intersetMesh (_ : Ray) (_ : Mesh) (_ : Octree)
    : list Intersection := [].

Definition sample_intersectObjects (_ : Ray) (_ : list nat)
    : list Intersection := [].

Definition sample_intersectObject (_ : Ray) (_ : nat)
    : list Intersection := [].

(** The sample viewport switched to its orthographic camera. *)
Definition sample_orthographic : Viewport := toggleCamera sample_viewport.

(** * Further notions: the rest of the viewport *)

(** ** What [changeMesh] installs *)

(** The state [changeMesh] hands to [update] for a payload. *)
Definition install_mesh (p : MeshPayload) (st : Viewport) : Viewport :=
  let m := payload_mesh p in
  let st := set_mesh (Some m) (removeMeshIfPresent st) in
  let st := if isBufferGeometry (geometry m)
            then set_octree (Some {| octree_of := geometry m |}) st
            else st in
  let st := set_s_mesh (s_mesh st ++ [m]) st in
  let st := set_meshScale (radius (boundingSphere (geometry m))) st in
  let st := set_s_scaleRotate (normalised p (s_scaleRotate st)) st in
  let st := set_s_h_scaleRotate (normalised p (s_h_scaleRotate st)) st in
  let st := set_s_translate (recentred p (s_translate st)) st in
  set_s_h_translate (recentred p (s_h_translate st)) st.

(** The mesh bookkeeping: the [s_mesh] node holds the active mesh and
    nothing else, and the octree, when there is one, was built from the
    active mesh's geometry. *)
Definition mesh_bookkeeping (st : Viewport) : Prop :=
  match mesh st with
  | None => s_mesh st = [] /\ octree st = None
  | Some m =>
      s_mesh st = [m]
      /\ octree st = if isBufferGeometry (geometry m)
                     then Some {| octree_of := geometry m |}
                     else None
  end.

(** The transforms fit the active mesh: scale 1/radius on each axis on the
    ScaleRotate nodes, minus the centre on the Translate nodes. *)
Definition normalised_for_mesh (st : Viewport) : Prop :=
  match mesh st with
  | None => True
  | Some m =>
      let sphere := boundingSphere (geometry m) in
      let s := (1 / radius sphere)%float in
      meshScale st = radius sphere
      /\ Object3D.scale (s_scaleRotate st) = vec3 s s s
      /\ Object3D.scale (s_h_scaleRotate st) = vec3 s s s
      /\ Object3D.position (s_translate st)
         = Vector3.multiplyScalar (center sphere) (-1)
      /\ Object3D.position (s_h_translate st)
         = Vector3.multiplyScalar (center sphere) (-1)
  end.

(** Everything reachable: [initialize], then any actions. *)
Definition reachable (env : Environment) (body : list Action) : Viewport :=
  run_actions body (snd (initialize env)).

(** A mesh-mode session that starts with the sample mesh loaded. *)
Definition sample_mesh_environment : Environment :=
  {| env_meshMode := true; env_mesh := Some sample_payload;
     env_connectivityOn := true;
     env_width := 800; env_height := 600; env_devicePixelRatio := Some 1%float;
     env_pCam := default_camera; env_oCam := default_camera;
     env_oCamZoom := default_camera; env_depth := 0 |}.

(** A reorientation followed by a camera toggle. *)
Definition sample_session : list Action :=
  [ act_call (call_pointUp (vec3 0 0 1)); act_toggleCamera ].

(** ** Replaying the renderer's calls *)

(** What a replay of the calls keeps track of: the clear colour in force
    and the colour the last [clear] used. *)
Record GLState := {
  gl_clearColour : option JS.number;
  gl_cleared : option JS.number
}.

Definition gl_initial : GLState :=
  {| gl_clearColour := None; gl_cleared := None |}.

Definition gl_step (s : GLState) (c : GLCommand) : GLState :=
  match c with
  | setClearColor colour _ =>
      {| gl_clearColour := Some colour; gl_cleared := gl_cleared s |}
  | clear =>
      {| gl_clearColour := gl_clearColour s;
         gl_cleared := gl_clearColour s |}
  | _ => s
  end.

Definition gl_replay (s : GLState) (calls : list GLCommand) : GLState :=
  fold_left gl_step calls s.

(** For every [render] call, in order, its camera and the colour of the
    [clear] before it. *)
Fixpoint backgrounds (s : GLState) (calls : list GLCommand)
    : list (CameraRef * option JS.number) :=
  match calls with
  | [] => []
  | c :: calls' =>
      match c with
      | render _ camera => [(camera, gl_cleared s)]
      | _ => []
      end ++ backgrounds (gl_step s c) calls'
  end.

(** The background each camera is meant to be drawn on. *)
Definition background_of (camera : CameraRef) : JS.number :=
  match camera with
  | s_oCamZoom_ref => CLEAR_COLOUR_PIP
  | _ => CLEAR_COLOUR
  end.

Definition drawn_on_own_background (b : CameraRef * option JS.number) : Prop :=
  snd b = Some (background_of (fst b)).

(** The renderer's calls so far leave the main clear colour in force and
    drew every view on its own background; the active camera is not the
    zoom camera. *)
Definition clear_colour_invariant (st : Viewport) : Prop :=
  s_camera st <> s_oCamZoom_ref
  /\ match renderer st with
     | None => True
     | Some calls =>
         gl_clearColour (gl_replay gl_initial calls) = Some CLEAR_COLOUR
         /\ Forall drawn_on_own_background (backgrounds gl_initial calls)
     end.

(** ** Camera wiring *)

Definition pip_subscriptions (st : Viewport) : list Listener :=
  filter (listens e_cameraController CHANGE_PIP) (listeners st).

(** The active camera, the PIP decoration and the [changePip] subscription
    agree. *)
Definition camera_wiring (st : Viewport) : Prop :=
  (s_camera st = s_pCam_ref
   /\ pipCanvas_display st = DISPLAY_NONE
   /\ pip_subscriptions st = [])
  \/ (s_camera st = s_oCam_ref
      /\ pipCanvas_display st = None
      /\ pip_subscriptions st = [PIP_LISTENER]).

(** ** Points on the overlay *)

(** A point whose coordinates lie between the two sentinels of the empty
    dirty box, 0 and 999999. *)
Definition on_canvas (p : Point) : bool :=
  PrimFloat.leb 0 (px p) && PrimFloat.leb (px p) 999999
  && PrimFloat.leb 0 (py p) && PrimFloat.leb (py p) 999999.

(** * The 2D overlay and the selection helpers *)





Section Overlay.

(** The projection of THREE and the scene graph's transform to world
    coordinates, which the viewport calls but does not define. *)
Variable project : Vector3.t -> Camera -> Vector3.t.
Variable localToWorld : Viewport -> Vector3.t -> Vector3.t.




(** The test [lmViewsInSelectionBox] applies to each landmark view. *)
Definition in_selection_box (st : Viewport) (x1 y1 x2 y2 : JS.number)
    (lmView : LmView) : bool :=
  match symbol lmView with
  | None => false
  | Some sym =>
      let c := lmToScreen project localToWorld st sym in
      PrimFloat.ltb x1 (Vector3.x c) && PrimFloat.ltb (Vector3.x c) x2
      && PrimFloat.ltb y1 (Vector3.y c) && PrimFloat.ltb (Vector3.y c) y2
  end.

(** [lmViewsInSelectionBox], with the views of [this.landmarkViews]: each
    view that passes the test is pushed, in order. *)
Definition lmViewsInSelectionBox (landmarkViews : list LmView)
    (x1 y1 x2 y2 : JS.number) (st : Viewport) : list LmView :=
  fold_left (fun lmsInBox lmView =>
               if in_selection_box st x1 y1 x2 y2 lmView
               then lmsInBox ++ [lmView] else lmsInBox)
            landmarkViews [].

End Overlay.


(** The stand-ins of the concrete set-up for the projection and the scene
    graph's transform. *)
Definition sample_project (v : Vector3.t) (_ : Camera) : Vector3.t := v.

Definition sample_localToWorld (_ : Viewport) (v : Vector3.t) : Vector3.t := v.

(** A landmark view whose symbol sits at the origin. *)
Definition sample_lmView : LmView :=
  {| symbol := Some {| symbol_addr := 7; symbol_position := vec3 0 0 0 |} |}.

(** ** What a cast returns *)

Section Casting.

Variable unproject : Vector3.t -> Camera -> Vector3.t.
Variable transformDirection : Vector3.t -> Matrix4 -> Vector3.t.
Variable intersetMesh : Ray -> Mesh -> Octree -> list Intersection.
Variable intersectObjects : Ray -> list nat -> list Intersection.
Variable intersectObject : Ray -> nat -> list Intersection.

(** The caster [getIntersects] hands the ray to, for a target that is
    neither [null] nor empty. *)
Definition cast (st : Viewport) (r : Ray) (object : Target)
    : list Intersection :=
  match is_active_mesh st object, octree st with
  | Some m, Some o => intersetMesh r m o
  | _, _ =>
      match object with
      | target_array objects => intersectObjects r objects
      | target_object a => intersectObject r a
      | target_null => []
      end
  end.

(** The hits of a cast from a screen point, as a function of the state
    before the call. *)
Definition hits_at (st : Viewport) (x y : JS.number) (object : Target)
    : list Intersection :=
  if is_empty_target object then []
  else cast st (picking_ray unproject transformDirection st x y) object.

End Casting.

(** * The mesh model

    The Backbone model of a mesh: its attributes, the material of its
    THREE mesh, and the switches for texture and wireframe.  Materials are
    objects shared by reference, [basicMaterial] being one object for the
    whole module, so they live in a heap. *)

Module MeshModel.

(** A THREE material, as far as the model reads and writes it. *)
Record Material := { wireframe : bool; opacity : JS.number }.

Definition MaterialRef := nat.

(** The materials by address; addresses from [next] on are free. *)
Record Heap := { cell : MaterialRef -> Material; next : MaterialRef }.

(** [new THREE.MeshPhongMaterial()]: no wireframe, opaque. *)
Definition new_material : Material := {| wireframe := false; opacity := 1 |}.

(** The module's [basicMaterial], allocated when the module loads. *)
Definition basicMaterial : MaterialRef := 0%nat.

Definition initial_heap : Heap :=
  {| cell := fun _ => new_material; next := 1%nat |}.

Definition write (r : MaterialRef) (m : Material) (h : Heap) : Heap :=
  {| cell := fun r' => if Nat.eqb r' r then m else cell h r';
     next := next h |}.

(** The attributes: [alpha], [texture], [textureOn], [wireframeOn] and the
    material slot of [t_mesh]; [None] is [undefined]. *)
Record t := {
  get_alpha : JS.number;
  get_texture : option MaterialRef;
  get_textureOn : option bool;
  get_wireframeOn : option bool;
  get_t_mesh : option MaterialRef
}.

(** [defaults]: alpha 1 and nothing else that matters here. *)
Definition defaults : t :=
  {| get_alpha := 1; get_texture := None; get_textureOn := None;
     get_wireframeOn := None; get_t_mesh := None |}.

Definition set_textureOn (v : bool) (m : t) : t :=
  {| get_alpha := get_alpha m; get_texture := get_texture m;
     get_textureOn := Some v; get_wireframeOn := get_wireframeOn m;
     get_t_mesh := get_t_mesh m |}.

Definition set_wireframeOn (v : bool) (m : t) : t :=
  {| get_alpha := get_alpha m; get_texture := get_texture m;
     get_textureOn := get_textureOn m; get_wireframeOn := Some v;
     get_t_mesh := get_t_mesh m |}.

Definition set_material (r : MaterialRef) (m : t) : t :=
  {| get_alpha := get_alpha m; get_texture := get_texture m;
     get_textureOn := get_textureOn m; get_wireframeOn := get_wireframeOn m;
     get_t_mesh := Some r |}.

(** A method runs on its model and the heap of materials. *)
Record State := { model : t; heap : Heap }.

Definition Op (A : Type) := State -> Completion A * State.

Definition done {A} (a : A) : Op A := fun s => (Normal a, s).

Definition andThen {A B} (c : Op A) (k : A -> Op B) : Op B :=
  fun s => match c s with
           | (Normal a, s') => k a s'
           | (Throw e, s') => (Throw e, s')
           end.

Definition on_model (f : t -> t) : Op unit :=
  fun s => (Normal tt, {| model := f (model s); heap := heap s |}).

Definition on_heap (f : Heap -> Heap) : Op unit :=
  fun s => (Normal tt, {| model := model s; heap := f (heap s) |}).

(** [this.t_mesh().material]; [t_mesh()] is [undefined] before the mesh
    has been parsed. *)
Definition material : Op MaterialRef :=
  fun s => match get_t_mesh (model s) with
           | Some r => (Normal r, s)
           | None => (Throw TypeError, s)
           end.

Definition hasTexture (m : t) : bool :=
  match get_texture m with Some _ => true | None => false end.

(** [hasTexture() && get('textureOn')], as a condition. *)
Definition isTextureOn (m : t) : bool :=
  hasTexture m
  && match get_textureOn m with Some true => true | _ => false end.

Definition isWireframeOn : Op bool :=
  andThen material (fun r => fun s => (Normal (wireframe (cell (heap s) r)), s)).

Definition changeAlpha : Op unit :=
  andThen material (fun r => fun s =>
    on_heap (write r {| wireframe := wireframe (cell (heap s) r);
                        opacity := get_alpha (model s) |}) s).

Definition set_wireframe (v : bool) : Op unit :=
  andThen material (fun r => fun s =>
    on_heap (write r {| wireframe := v;
                        opacity := opacity (cell (heap s) r) |}) s).

Definition wireframeOn : Op unit :=
  andThen isWireframeOn (fun wf =>
    if wf then done tt
    else andThen (set_wireframe true) (fun _ =>
         andThen (on_model (set_wireframeOn true)) (fun _ =>
         changeAlpha))).

Definition wireframeOff : Op unit :=
  andThen isWireframeOn (fun wf =>
    if negb wf then done tt
    else andThen (set_wireframe false) (fun _ =>
         andThen (on_model (set_wireframeOn false)) (fun _ =>
         changeAlpha))).

Definition wireframeToggle : Op unit :=
  andThen isWireframeOn (fun wf => if wf then wireframeOff else wireframeOn).

(** [this.t_mesh().material = r]. *)
Definition assign_material (r : MaterialRef) : Op unit :=
  andThen material (fun _ => on_model (set_material r)).

Definition textureOn : Op unit :=
  fun s =>
    if isTextureOn (model s) || negb (hasTexture (model s)) then (Normal tt, s)
    else
      andThen isWireframeOn (fun wf =>
      andThen (fun s => match get_texture (model s) with
                        | Some tex => assign_material tex s
                        | None => (Throw TypeError, s)   (* not reached *)
                        end) (fun _ =>
      andThen (if wf then wireframeOn else wireframeOff) (fun _ =>
      andThen changeAlpha (fun _ =>
      on_model (set_textureOn true))))) s.

Definition textureOff : Op unit :=
  fun s =>
    if negb (isTextureOn (model s)) then (Normal tt, s)
    else
      andThen isWireframeOn (fun wf =>
      andThen (assign_material basicMaterial) (fun _ =>
      andThen (if wf then wireframeOn else wireframeOff) (fun _ =>
      andThen changeAlpha (fun _ =>
      on_model (set_textureOn false))))) s.

Definition textureToggle : Op unit :=
  fun s => if isTextureOn (model s) then textureOff s else textureOn s.

(** [parse], as far as materials go.  With texture coordinates in the
    response it evaluates [new THREE.UVMapping()] for the texture loader.
    The viewport calls [setPixelRatio] on its renderer, which three.js has
    from r70 on, and from r70 on [THREE.UVMapping] is a number constant:
    [new] throws a TypeError before any material is made, [parse] does not
    return, and Backbone sets nothing on the model.  Without texture
    coordinates the mesh gets the shared [basicMaterial], and Backbone sets
    the result on the model. *)
Definition parse (tcoords : bool) : Op unit :=
  if tcoords then fun s => (Throw TypeError, s)
  else on_model (set_material basicMaterial).

(** The switches of the model. *)
Inductive Switch :=
| do_textureOn | do_textureOff | do_textureToggle
| do_wireframeOn | do_wireframeOff | do_wireframeToggle
| do_changeAlpha.

Definition run_switch (c : Switch) : Op unit :=
  match c with
  | do_textureOn => textureOn
  | do_textureOff => textureOff
  | do_textureToggle => textureToggle
  | do_wireframeOn => wireframeOn
  | do_wireframeOff => wireframeOff
  | do_wireframeToggle => wireframeToggle
  | do_changeAlpha => changeAlpha
  end.

Definition run_switches (cs : list Switch) (s : State) : State :=
  fold_left (fun s c => snd (run_switch c s)) cs s.

(** The material shown is the texture when the texture is on and the
    shared basic material otherwise. *)
Definition coherent (m : t) : Prop :=
  get_t_mesh m
  = Some (if isTextureOn m
          then match get_texture m with Some r => r | None => basicMaterial end
          else basicMaterial).

(** The flag and the opacity the mesh is rendered with. *)
Definition shown (s : State) : option Material :=
  option_map (cell (heap s)) (get_t_mesh (model s)).

(** A model after its fetch: [defaults], then [parse] of the response;
    where [parse] throws, nothing has been set. *)
Definition loaded (tcoords : bool) (h : Heap) : State :=
  snd (parse tcoords {| model := defaults; heap := h |}).

(** A model whose attributes hold a texture material of its own, at
    address 1, which is the material shown. *)
Definition sample_textured : State :=
  {| model := {| get_alpha := 1; get_texture := Some 1%nat;
                 get_textureOn := Some true; get_wireframeOn := None;
                 get_t_mesh := Some 1%nat |};
     heap := {| cell := fun _ => new_material; next := 2%nat |} |}.

(** Another model of the same module, created with alpha 0.5 and parsed
    without texture coordinates. *)
Definition sample_faded : t :=
  {| get_alpha := 0.5; get_texture := None; get_textureOn := None;
     get_wireframeOn := None; get_t_mesh := Some basicMaterial |}.

End MeshModel.

(** * The mesh source

    [MeshSource.setAsset] and the success callback it registers, on the
    table of pending requests.  A request object is known by its address;
    [abort] marks it. *)

Module MeshSource.

Record t := {
  pending : list (string * nat);      (* this.pending: asset id -> request *)
  aborted : nat -> bool;              (* the requests [abort] was called on *)
  next_request : nat;                 (* the next request object *)
  get_asset : option string;
  get_mesh : option string
}.

(** [this.pending[id] = xhr].  The table is kept in insertion order, a key
    keeping its place when it exists.  JS enumerates integer-like keys
    before the others; the order plays no part in what follows, the one
    traversal, [abort_each], being independent of it
    ([abort_each_any_order]). *)
Fixpoint assign (id : string) (xhr : nat) (p : list (string * nat))
    : list (string * nat) :=
  match p with
  | [] => [(id, xhr)]
  | (k, v) :: p' =>
      if String.eqb k id then (id, xhr) :: p'
      else (k, v) :: assign id xhr p'
  end.

(** [delete this.pending[id]]. *)
Definition delete (id : string) (p : list (string * nat))
    : list (string * nat) :=
  filter (fun kv => negb (String.eqb (fst kv) id)) p.

(** [_.each(this.pending, xhr => xhr.abort())]. *)
Definition abort_each (p : list (string * nat)) (a : nat -> bool)
    : nat -> bool :=
  fold_left (fun a kv => fun x => Nat.eqb x (snd kv) || a x) p a.

(** [setAsset(newMesh)], with the id of [newMesh]: every pending request
    is aborted, then the fetch of the new mesh is started and recorded. *)
Definition setAsset (id : string) (s : t) : t :=
  let a := abort_each (pending s) (aborted s) in
  let xhr := next_request s in
  {| pending := assign id xhr (pending s);
     aborted := a;
     next_request := S xhr;
     get_asset := get_asset s;
     get_mesh := get_mesh s |}.

(** The [success] callback of the fetch started for [newMesh]. *)
Definition fetch_success (id : string) (s : t) : t :=
  {| pending := delete id (pending s);
     aborted := aborted s;
     next_request := next_request s;
     get_asset := Some id;
     get_mesh := Some id |}.

(** A source with nothing pending. *)
Definition idle : t :=
  {| pending := []; aborted := fun _ => false; next_request := 0;
     get_asset := None; get_mesh := None |}.

(** What happens to a source: a call of [setAsset], or the success
    callback of some fetch.  Which callbacks the network still delivers is
    left open: any may run at any time. *)
Inductive Event :=
| ev_setAsset (id : string)
| ev_success (id : string).

Definition run_event (s : t) (e : Event) : t :=
  match e with
  | ev_setAsset id => setAsset id s
  | ev_success id => fetch_success id s
  end.

Definition run_events (es : list Event) (s : t) : t :=
  fold_left run_event es s.

(** The pending requests that have not been aborted. *)
Definition live (s : t) : list (string * nat) :=
  filter (fun kv => negb (aborted s (snd kv))) (pending s).

(** Requests are handed out in order: whatever is pending or aborted was
    created before the next request. *)
Definition issued (s : t) : Prop :=
  (forall kv, In kv (pending s) -> (snd kv < next_request s)%nat)
  /\ (forall x, aborted s x = true -> (x < next_request s)%nat).

End MeshSource.

(** * Properties *)

Example sample_viewport_initialized :
  renderer sample_viewport
  = Some ([setPixelRatio 1; setClearColor CLEAR_COLOUR 1; setSize 800 600]
          ++ frame sample_viewport)
  /\ ATOMIC_OPERATION sample_viewport = 0%Z
  /\ fst (initialize sample_environment) = Normal tt.
Proof. vm_compute. repeat split. Qed.

Example ORIGINAL_UP_VECTOR_is_COORDS_2 : COORDS_at 2 = Some ORIGINAL_UP_VECTOR.
Proof. reflexivity. Qed.

(** ** Handlers only touch the renderer *)

Lemma set_renderer_twice r r' st :
  set_renderer r' (set_renderer r st) = set_renderer r' st.
Proof. reflexivity. Qed.

Lemma set_renderer_same st : set_renderer (renderer st) st = st.
Proof. destruct st; reflexivity. Qed.

Lemma update_renderer_only st : exists r, update st = set_renderer r st.
Proof.
  unfold update. destruct (renderer st) as [calls|] eqn:E.
  - destruct (atomicOperationUnderway st).
    + exists (Some calls). rewrite <- E. symmetry. apply set_renderer_same.
    + eexists. reflexivity.
  - exists None. rewrite <- E. symmetry. apply set_renderer_same.
Qed.

Lemma run_handler_renderer_only h st :
  exists r, run_handler h st = set_renderer r st.
Proof.
  destruct h; simpl.
  - apply update_renderer_only.
  - unfold batchHandler. destruct (atomicOperationFinished st).
    + apply update_renderer_only.
    + exists (renderer st). symmetry. apply set_renderer_same.
Qed.

Lemma fold_handlers_renderer_only em ev ls st :
  exists r,
    fold_left (fun s l => if listens em ev l then run_handler (l_handler l) s
                          else s) ls st
    = set_renderer r st.
Proof.
  revert st. induction ls as [|l ls IH]; intros st; simpl.
  - exists (renderer st). symmetry. apply set_renderer_same.
  - destruct (listens em ev l).
    + destruct (run_handler_renderer_only (l_handler l) st) as [r ->].
      destruct (IH (set_renderer r st)) as [r' ->].
      exists r'. apply set_renderer_twice.
    + apply IH.
Qed.

Lemma trigger_renderer_only em ev st :
  exists r, trigger em ev st = set_renderer r st.
Proof. apply fold_handlers_renderer_only. Qed.

Lemma startAtomicOperation_shape st :
  exists r, startAtomicOperation st
            = set_renderer r (set_ATOMIC_OPERATION (ATOMIC_OPERATION st + 1) st).
Proof. apply trigger_renderer_only. Qed.

Lemma endAtomicOperation_shape st :
  exists r, endAtomicOperation st
            = set_renderer r (set_ATOMIC_OPERATION (ATOMIC_OPERATION st - 1) st).
Proof. apply trigger_renderer_only. Qed.

Lemma startAtomicOperation_scene st :
  scene_of (startAtomicOperation st) = scene_of st.
Proof. destruct (startAtomicOperation_shape st) as [r ->]. reflexivity. Qed.

Lemma endAtomicOperation_scene st :
  scene_of (endAtomicOperation st) = scene_of st.
Proof. destruct (endAtomicOperation_shape st) as [r ->]. reflexivity. Qed.

Lemma update_scene st : scene_of (update st) = scene_of st.
Proof. destruct (update_renderer_only st) as [r ->]. reflexivity. Qed.

Lemma update_display st :
  s_camera (update st) = s_camera st
  /\ pipCanvas_display (update st) = pipCanvas_display st
  /\ listeners (update st) = listeners st
  /\ ATOMIC_OPERATION (update st) = ATOMIC_OPERATION st
  /\ frame (update st) = frame st.
Proof. destruct (update_renderer_only st) as [r ->]. repeat split. Qed.

(** [resize] throws without a renderer and otherwise tells it the size
    and updates. *)
Lemma resize_cases st :
  (renderer st = None /\ resize st = (Throw TypeError, st))
  \/ (exists calls,
        renderer st = Some calls
        /\ resize st
           = (Normal tt,
              update (set_renderer
                        (Some (calls ++ [setSize (width st) (height st)]))
                        st))).
Proof.
  unfold resize, bind, get, modify, throw.
  destruct (renderer st) as [calls|] eqn:E.
  - right. exists calls. split; reflexivity.
  - left. split; reflexivity.
Qed.

Lemma resize_renderer_only st : exists r, snd (resize st) = set_renderer r st.
Proof.
  destruct (resize_cases st) as [[Hr ->]|(calls & Hr & ->)]; cbn [snd].
  - exists None. rewrite <- Hr. symmetry. apply set_renderer_same.
  - destruct (update_renderer_only
                (set_renderer
                   (Some (calls ++ [setSize (width st) (height st)])) st))
      as [r ->].
    exists r. apply set_renderer_twice.
Qed.

Lemma resize_scene st : scene_of (snd (resize st)) = scene_of st.
Proof. destruct (resize_renderer_only st) as [r ->]. reflexivity. Qed.

(** ** [mainDirection] *)

Lemma mainDirection_fold v cs dist main :
  let out := snd (fold_left (mainDirection_step v) cs (dist, main)) in
  (out = main \/ exists c, out = Some c /\ In c cs)
  /\ (cs <> [] -> out <> None).
Proof.
  revert dist main. induction cs as [|c cs IH]; intros dist main; simpl.
  - split; [now left | congruence].
  - destruct (PrimFloat.ltb (Vector3.distanceTo v (vec c)) dist
              || match main with None => true | Some _ => false end) eqn:E.
    + destruct (IH (Vector3.distanceTo v (vec c)) (Some c)) as [[H|[c' [H Hin]]] Hne].
      * split; [right; exists c; auto | intros _; rewrite H; congruence].
      * split; [right; exists c'; auto | intros _; rewrite H; congruence].
    + destruct main as [m|]; [|rewrite orb_true_r in E; discriminate].
      destruct (IH dist (Some m)) as [[H|[c' [H Hin]]] Hne].
      * split; [now left | intros _; rewrite H; congruence].
      * split; [right; exists c'; auto | intros _; rewrite H; congruence].
Qed.

Lemma mainDirection_canonical v :
  exists c, mainDirection v = Some c /\ In c COORDS.
Proof.
  unfold mainDirection.
  destruct (mainDirection_fold v COORDS 0%float None) as [[H|[c [H Hin]]] Hne].
  - exfalso. apply Hne; [discriminate | exact H].
  - exists c; auto.
Qed.

(** ** [pointUp] *)

Lemma pointUp_axis_found s :
  exists a, pointUp_axis s [0; 2; 4]%nat None = Normal (Some a)
            /\ In a COORDS.
Proof.
  simpl. unfold COORDS.
  repeat match goal with
         | |- context [if ?b then _ else _] => destruct b
         end;
    eexists; (split; [reflexivity | simpl; tauto]).
Qed.

Lemma pointUp_body_cases v st :
  exists n, mainDirection (Vector3.normalize v) = Some n /\ In n COORDS /\
    ((same_object n (_upVector st) = true
      /\ pointUp_body v st = (Normal tt, st))
     \/ (same_object n (_upVector st) = false
         /\ exists axis angle,
              pointUp_body v st = (Normal tt, reoriented n axis angle st))).
Proof.
  destruct (mainDirection_canonical (Vector3.normalize v)) as [n [Hn Hin]].
  exists n. split; [exact Hn|]. split; [exact Hin|].
  unfold pointUp_body. rewrite Hn. unfold bind, get.
  destruct (same_object n (_upVector st)) eqn:E.
  - left. split; reflexivity.
  - right. split; [reflexivity|].
    destruct (pointUp_axis_found
                (Vector3.addVectors (vec n) (vec (_upVector st))))
      as [a [-> _]].
    eexists. eexists. reflexivity.
Qed.

Lemma COORDS_identity a b :
  In a COORDS -> In b COORDS -> same_object a b = true -> a = b.
Proof.
  unfold COORDS; simpl; intros Ha Hb.
  repeat match goal with
         | H : _ \/ _ |- _ => destruct H
         | H : False |- _ => destruct H
         end; subst; simpl; intros E; try reflexivity; discriminate E.
Qed.

Lemma same_object_refl a : same_object a a = true.
Proof. apply Nat.eqb_refl. Qed.

Lemma scene_of_inv st st' :
  scene_of st' = scene_of st ->
  _upVector st' = _upVector st
  /\ s_scaleRotate st' = s_scaleRotate st
  /\ s_translate st' = s_translate st
  /\ s_h_scaleRotate st' = s_h_scaleRotate st
  /\ s_h_translate st' = s_h_translate st.
Proof. unfold scene_of. intros H. injection H as ? ? ? ? ?. auto. Qed.

Ltac scene_fields H :=
  unfold scene_of in H; injection H as ? ? ? ? ?.

(** C1.  From a viewport whose up vector is one of [COORDS], [pointUp]
    returns and leaves the up vector equal to the element of [COORDS]
    nearest the target, one of the six canonical axes; a second call with
    the same target changes neither the up vector nor the orientation of the
    two ScaleRotate nodes. *)
Theorem pointUp_snaps_and_is_idempotent (v : Vector3.t) (st : Viewport) :
  In (_upVector st) COORDS ->
  exists st1,
    pointUp v st = (Normal tt, st1)
    /\ In (_upVector st1) COORDS
    /\ mainDirection (Vector3.normalize v) = Some (_upVector st1)
    /\ exists st2,
         pointUp v st1 = (Normal tt, st2)
         /\ _upVector st2 = _upVector st1
         /\ s_scaleRotate st2 = s_scaleRotate st1
         /\ s_h_scaleRotate st2 = s_h_scaleRotate st1.
Proof.
  intros Hup.
  assert (Hsecond : forall s n,
             mainDirection (Vector3.normalize v) = Some n ->
             same_object n (_upVector s) = true ->
             exists s2, pointUp v s = (Normal tt, s2)
                        /\ scene_of s2 = scene_of s).
  { intros s n Hn Hsame.
    destruct (pointUp_body_cases v (startAtomicOperation s))
      as [n' [Hn' [_ [[_ Hb]|[Hdiff _]]]]].
    - exists (endAtomicOperation (startAtomicOperation s)).
      unfold pointUp, atomicOperation. rewrite Hb. split; [reflexivity|].
      rewrite endAtomicOperation_scene. apply startAtomicOperation_scene.
    - exfalso. rewrite Hn in Hn'. injection Hn' as <-.
      pose proof (startAtomicOperation_scene s) as Hs. scene_fields Hs.
      congruence. }
  destruct (pointUp_body_cases v (startAtomicOperation st))
    as [n [Hn [Hin [[Hsame Hb]|[Hdiff [axis [angle Hb]]]]]]].
  - pose proof (startAtomicOperation_scene st) as Hs. scene_fields Hs.
    exists (endAtomicOperation (startAtomicOperation st)).
    pose proof (endAtomicOperation_scene (startAtomicOperation st)) as He.
    scene_fields He.
    assert (Hn_up : n = _upVector st).
    { apply COORDS_identity; try assumption. congruence. }
    unfold pointUp at 1, atomicOperation. rewrite Hb.
    split; [reflexivity|]. split; [congruence|]. split; [congruence|].
    destruct (Hsecond (endAtomicOperation (startAtomicOperation st)) n Hn)
      as [s2 [Hrun Hsc]].
    { replace (_upVector (endAtomicOperation (startAtomicOperation st)))
        with n by congruence.
      apply same_object_refl. }
    exists s2. split; [exact Hrun|]. scene_fields Hsc. auto.
  - set (st' := reoriented n axis angle (startAtomicOperation st)) in *.
    exists (endAtomicOperation st').
    pose proof (endAtomicOperation_scene st') as He. scene_fields He.
    assert (Hup' : _upVector st' = n) by reflexivity.
    unfold pointUp at 1, atomicOperation. rewrite Hb.
    split; [reflexivity|]. split; [congruence|]. split; [congruence|].
    destruct (Hsecond (endAtomicOperation st') n Hn) as [s2 [Hrun Hsc]].
    { replace (_upVector (endAtomicOperation st')) with n by congruence.
      apply same_object_refl. }
    exists s2. split; [exact Hrun|]. scene_fields Hsc. auto.
Qed.

Lemma pointUp_snaps_and_is_idempotent_witness :
  In (_upVector sample_viewport) COORDS
  /\ exists st1,
       pointUp (vec3 0 0 1) sample_viewport = (Normal tt, st1)
       /\ In (_upVector st1) COORDS
       /\ mainDirection (Vector3.normalize (vec3 0 0 1))
          = Some (_upVector st1)
       /\ exists st2,
            pointUp (vec3 0 0 1) st1 = (Normal tt, st2)
            /\ _upVector st2 = _upVector st1
            /\ s_scaleRotate st2 = s_scaleRotate st1
            /\ s_h_scaleRotate st2 = s_h_scaleRotate st1.
Proof.
  assert (H : In (_upVector sample_viewport) COORDS).
  { vm_compute. right. right. left. reflexivity. }
  split; [exact H|].
  exact (pointUp_snaps_and_is_idempotent (vec3 0 0 1) sample_viewport H).
Defined.

(** ** The rotation [pointUp] applies *)

Lemma pointUp_runs_body v st n axis angle :
  pointUp_body v (startAtomicOperation st)
  = (Normal tt, reoriented n axis angle (startAtomicOperation st)) ->
  exists st1,
    pointUp v st = (Normal tt, st1)
    /\ _upVector st1 = n
    /\ s_scaleRotate st1 = Object3D.rotateOnAxis (s_scaleRotate st) axis angle
    /\ s_h_scaleRotate st1
       = Object3D.rotateOnAxis (s_h_scaleRotate st) axis angle.
Proof.
  intros Hb.
  exists (endAtomicOperation (reoriented n axis angle (startAtomicOperation st))).
  unfold pointUp, atomicOperation. rewrite Hb. split; [reflexivity|].
  pose proof (endAtomicOperation_scene
                (reoriented n axis angle (startAtomicOperation st))) as He.
  pose proof (startAtomicOperation_scene st) as Hs.
  scene_fields He. scene_fields Hs.
  repeat split; congruence.
Qed.

Lemma pointUp_body_rotation v st n :
  In n COORDS -> In (_upVector st) COORDS ->
  mainDirection (Vector3.normalize v) = Some n ->
  same_object n (_upVector st) = false ->
  let s := Vector3.addVectors (vec n) (vec (_upVector st)) in
  exists axis,
    first_orthogonal_axis s = Some axis
    /\ (JS.strict_eq (Vector3.length s) 0 = false ->
        quarter_turn_sign s axis = 1%float
        \/ quarter_turn_sign s axis = (-1)%float)
    /\ pointUp_body v st
       = (Normal tt,
          reoriented n (vec axis)
            (if JS.strict_eq (Vector3.length s) 0
             then (-1 * JS.Math_PI)%float
             else (quarter_turn_sign s axis * JS.Math_PI / 2)%float) st).
Proof.
  intros Hn Hup Hmain Hdiff. unfold pointUp_body. rewrite Hmain.
  unfold bind, get. rewrite Hdiff.
  destruct (_upVector st) as [ua uv] eqn:Eup.
  unfold COORDS in Hn, Hup; simpl in Hn, Hup.
  repeat match goal with
         | H : _ \/ _ |- _ => destruct H
         | H : False |- _ => destruct H
         end;
    try match goal with H : _ = n |- _ => subst n end;
    match goal with H : _ = {| addr := ua; vec := uv |} |- _ =>
      injection H as <- <- end;
    try discriminate Hdiff;
    (eexists; split; [vm_compute; reflexivity|];
     split; [intros Hlen; vm_compute in Hlen; try discriminate Hlen;
             vm_compute; auto
            |reflexivity]).
Qed.

Lemma pointUp_rotation v st n :
  In (_upVector st) COORDS ->
  mainDirection (Vector3.normalize v) = Some n ->
  same_object n (_upVector st) = false ->
  let s := Vector3.addVectors (vec n) (vec (_upVector st)) in
  exists axis,
    first_orthogonal_axis s = Some axis
    /\ (JS.strict_eq (Vector3.length s) 0 = false ->
        quarter_turn_sign s axis = 1%float
        \/ quarter_turn_sign s axis = (-1)%float)
    /\ let angle :=
         if JS.strict_eq (Vector3.length s) 0
         then (-1 * JS.Math_PI)%float
         else (quarter_turn_sign s axis * JS.Math_PI / 2)%float in
       exists st1,
         pointUp v st = (Normal tt, st1)
         /\ _upVector st1 = n
         /\ s_scaleRotate st1
            = Object3D.rotateOnAxis (s_scaleRotate st) (vec axis) angle
         /\ s_h_scaleRotate st1
            = Object3D.rotateOnAxis (s_h_scaleRotate st) (vec axis) angle.
Proof.
  intros Hup Hmain Hdiff.
  pose proof (startAtomicOperation_scene st) as Hs. scene_fields Hs.
  assert (Hn : In n COORDS).
  { destruct (mainDirection_canonical (Vector3.normalize v)) as [c [Hc Hin]].
    congruence. }
  destruct (pointUp_body_rotation v (startAtomicOperation st) n)
    as [axis [Hax [Hsign Hb]]]; try congruence.
  replace (_upVector (startAtomicOperation st)) with (_upVector st) in *
    by congruence.
  exists axis. split; [exact Hax|]. split; [exact Hsign|].
  cbv zeta. apply pointUp_runs_body. exact Hb.
Qed.

(** C5.  With the up vector at (0,1,0), [pointUp] towards (0,0,1) returns,
    multiplies the orientation of both ScaleRotate nodes once by the
    rotation of pi/2 about (1,0,0), and stores [COORDS[4]], the +Z axis, as
    the up vector.  In general, when the nearest axis differs from a
    canonical up vector, the rotation axis is the first of the even-position
    axes orthogonal to the sum of the two, and the angle is minus pi when
    the sum vanishes and otherwise pi/2 times the product of the components
    of sum plus axis, which is 1 or -1. *)
Theorem pointUp_quarter_turn_about_X :
  (forall st,
      _upVector st = ORIGINAL_UP_VECTOR ->
      exists st1,
        pointUp (vec3 0 0 1) st = (Normal tt, st1)
        /\ COORDS_at 4 = Some (_upVector st1)
        /\ vec (_upVector st1) = vec3 0 0 1
        /\ Object3D.quaternion (s_scaleRotate st1)
           = Q_multiply (Object3D.quaternion (s_scaleRotate st))
                        (Q_axisAngle (vec3 1 0 0) (JS.Math_PI / 2))
        /\ Object3D.quaternion (s_h_scaleRotate st1)
           = Q_multiply (Object3D.quaternion (s_h_scaleRotate st))
                        (Q_axisAngle (vec3 1 0 0) (JS.Math_PI / 2)))
  /\ (forall v st n,
         In (_upVector st) COORDS ->
         mainDirection (Vector3.normalize v) = Some n ->
         same_object n (_upVector st) = false ->
         let s := Vector3.addVectors (vec n) (vec (_upVector st)) in
         exists axis,
           first_orthogonal_axis s = Some axis
           /\ (JS.strict_eq (Vector3.length s) 0 = false ->
               quarter_turn_sign s axis = 1%float
               \/ quarter_turn_sign s axis = (-1)%float)
           /\ let angle :=
                if JS.strict_eq (Vector3.length s) 0
                then (-1 * JS.Math_PI)%float
                else (quarter_turn_sign s axis * JS.Math_PI / 2)%float in
              exists st1,
                pointUp v st = (Normal tt, st1)
                /\ _upVector st1 = n
                /\ s_scaleRotate st1
                   = Object3D.rotateOnAxis (s_scaleRotate st) (vec axis) angle
                /\ s_h_scaleRotate st1
                   = Object3D.rotateOnAxis (s_h_scaleRotate st) (vec axis)
                                           angle).
Proof.
  split; [|exact pointUp_rotation].
  intros st Hup.
  assert (Hmain : mainDirection (Vector3.normalize (vec3 0 0 1))
                  = Some {| addr := 4; vec := vec3 0 0 1 |})
    by (vm_compute; reflexivity).
  destruct (pointUp_rotation (vec3 0 0 1) st
              {| addr := 4; vec := vec3 0 0 1 |})
    as [axis [Hax [_ [st1 [Hrun [Hnew [Hrot Hhrot]]]]]]].
  - rewrite Hup. vm_compute. tauto.
  - exact Hmain.
  - rewrite Hup. reflexivity.
  - rewrite Hup in Hax, Hrot, Hhrot.
    vm_compute in Hax. injection Hax as <-.
    exists st1. split; [exact Hrun|].
    rewrite Hnew, Hrot, Hhrot. repeat split.
Qed.

Lemma pointUp_quarter_turn_about_X_witness :
  exists st1,
    pointUp (vec3 0 0 1) sample_viewport = (Normal tt, st1)
    /\ COORDS_at 4 = Some (_upVector st1)
    /\ vec (_upVector st1) = vec3 0 0 1
    /\ Object3D.quaternion (s_scaleRotate st1)
       = Q_multiply (Object3D.quaternion (s_scaleRotate sample_viewport))
                    (Q_axisAngle (vec3 1 0 0) (JS.Math_PI / 2))
    /\ Object3D.quaternion (s_h_scaleRotate st1)
       = Q_multiply (Object3D.quaternion (s_h_scaleRotate sample_viewport))
                    (Q_axisAngle (vec3 1 0 0) (JS.Math_PI / 2)).
Proof.
  apply (proj1 pointUp_quarter_turn_about_X sample_viewport).
  vm_compute. reflexivity.
Defined.

(** ** [changeMesh] *)

Lemma changeMesh_payload p st calls :
  renderer st = Some calls ->
  exists st0,
    changeMesh (Some p) st = (Normal tt, update st0)
    /\ s_scaleRotate st0 = normalised p (s_scaleRotate st)
    /\ s_h_scaleRotate st0 = normalised p (s_h_scaleRotate st)
    /\ s_translate st0 = recentred p (s_translate st)
    /\ s_h_translate st0 = recentred p (s_h_translate st)
    /\ _upVector st0 = _upVector st
    /\ renderer st0 = Some calls
    /\ ATOMIC_OPERATION st0 = ATOMIC_OPERATION st
    /\ frame st0 = frame st
    /\ mesh st0 = Some (payload_mesh p)
    /\ listeners st0 = listeners st.
Proof.
  intros Hr. destruct st; simpl in Hr; subst.
  unfold changeMesh, memoryString, bind, get, modify, ret,
    removeMeshIfPresent.
  cbn [renderer mesh].
  destruct mesh0; destruct (isBufferGeometry (geometry (payload_mesh p)));
    cbv beta iota delta -[update frame filter app Mesh_eqb negb];
    (eexists; split; [reflexivity|]; repeat split).
Qed.

Lemma changeMesh_null st calls :
  renderer st = Some calls ->
  changeMesh None st = (Normal tt, removeMeshIfPresent st).
Proof.
  intros Hr. unfold changeMesh, memoryString, bind, get, modify.
  rewrite Hr. reflexivity.
Qed.

Lemma changeMesh_no_renderer payload st :
  renderer st = None -> changeMesh payload st = (Throw TypeError, st).
Proof.
  intros Hr. unfold changeMesh, memoryString, bind, get, modify.
  rewrite Hr. reflexivity.
Qed.

Lemma update_renders st calls :
  renderer st = Some calls ->
  atomicOperationUnderway st = false ->
  update st = set_renderer (Some (calls ++ frame st)) st.
Proof. intros Hr Hd. unfold update. rewrite Hr, Hd. reflexivity. Qed.

Lemma update_suppressed st :
  atomicOperationUnderway st = true -> update st = st.
Proof.
  intros Hd. unfold update. rewrite Hd. destruct (renderer st); reflexivity.
Qed.

(** Every frame starts by making the whole surface the viewport and the
    scissor, clearing it and rendering the scene with the active camera,
    and renders the scene with that camera once. *)
Lemma frame_main_render st :
  (exists rest,
     frame st
     = [setViewport 0 0 (width st) (height st);
        setScissor 0 0 (width st) (height st);
        enableScissorTest true; clear; render scene_ref (s_camera st)]
       ++ rest)
  /\ List.length (filter (is_scene_render (s_camera st)) (frame st)) = 1%nat.
Proof.
  unfold frame, main_pass, pip_pass.
  destruct (s_camera st); destruct (showConnectivity st); cbn;
    (split; [eexists; reflexivity | reflexivity]).
Qed.

(** C3.  On a viewport whose renderer exists, [changeMesh] with a payload
    returns; both ScaleRotate nodes get the scale 1/radius on each axis (and
    the payload's up and look-at orientation), both Translate nodes get the
    sphere's centre times -1 as position, and [update] runs on the result,
    which renders one frame unless an atomic operation is underway: the
    renderer then receives, after the calls it had, the viewport and
    scissor of the whole surface, [clear] and the render of the scene with
    the active camera.  For radius 2 and centre (1,0,0) the scale is 0.5 on
    each axis and the position is (-1,-0,-0), which [Vector3.equals] takes
    for (-1,0,0): zero times -1 is the negative zero. *)
Theorem changeMesh_normalises (p : MeshPayload) (st : Viewport)
    (calls : list GLCommand) :
  renderer st = Some calls ->
  let sphere := boundingSphere (geometry (payload_mesh p)) in
  let s := (1.0 / radius sphere)%float in
  exists st1,
    changeMesh (Some p) st = (Normal tt, st1)
    /\ Object3D.scale (s_scaleRotate st1) = vec3 s s s
    /\ Object3D.scale (s_h_scaleRotate st1) = vec3 s s s
    /\ Object3D.position (s_translate st1)
       = Vector3.multiplyScalar (center sphere) (-1)
    /\ Object3D.position (s_h_translate st1)
       = Vector3.multiplyScalar (center sphere) (-1)
    /\ (atomicOperationUnderway st = false ->
        renderer st1 = Some (calls ++ frame st))
    /\ (atomicOperationUnderway st = false ->
        exists rest,
          renderer st1
          = Some (calls
                  ++ [setViewport 0 0 (width st) (height st);
                      setScissor 0 0 (width st) (height st);
                      enableScissorTest true; clear;
                      render scene_ref (s_camera st)]
                  ++ rest))
    /\ (atomicOperationUnderway st = true -> renderer st1 = Some calls)
    /\ (p = sample_payload ->
        Object3D.scale (s_scaleRotate st1) = vec3 0.5 0.5 0.5
        /\ Object3D.scale (s_h_scaleRotate st1) = vec3 0.5 0.5 0.5
        /\ Object3D.position (s_translate st1) = vec3 (-1) (-0) (-0)
        /\ Object3D.position (s_h_translate st1) = vec3 (-1) (-0) (-0)
        /\ Vector3.equals (Object3D.position (s_translate st1))
                          (vec3 (-1) 0 0) = true
        /\ Vector3.equals (Object3D.position (s_h_translate st1))
                          (vec3 (-1) 0 0) = true).
Proof.
  intros Hr sphere s.
  destruct (changeMesh_payload p st calls Hr)
    as [st0 [Hrun [Hsr [Hhsr [Htr [Hhtr [_ [Hr0 [Hd0 [Hf0 _]]]]]]]]]].
  pose proof (update_scene st0) as Hsc. scene_fields Hsc.
  exists (update st0). split; [exact Hrun|].
  assert (Hscale : Object3D.scale (s_scaleRotate (update st0)) = vec3 s s s)
    by (replace (s_scaleRotate (update st0)) with (s_scaleRotate st0)
          by congruence; rewrite Hsr; reflexivity).
  assert (Hhscale : Object3D.scale (s_h_scaleRotate (update st0)) = vec3 s s s)
    by (replace (s_h_scaleRotate (update st0)) with (s_h_scaleRotate st0)
          by congruence; rewrite Hhsr; reflexivity).
  assert (Hpos : Object3D.position (s_translate (update st0))
                 = Vector3.multiplyScalar (center sphere) (-1))
    by (replace (s_translate (update st0)) with (s_translate st0)
          by congruence; rewrite Htr; reflexivity).
  assert (Hhpos : Object3D.position (s_h_translate (update st0))
                  = Vector3.multiplyScalar (center sphere) (-1))
    by (replace (s_h_translate (update st0)) with (s_h_translate st0)
          by congruence; rewrite Hhtr; reflexivity).
  repeat match goal with |- _ /\ _ => split end; try assumption.
  - intros Hd. rewrite (update_renders st0 calls Hr0).
    + rewrite Hf0. reflexivity.
    + unfold atomicOperationUnderway in *. rewrite Hd0. exact Hd.
  - intros Hd. rewrite (update_renders st0 calls Hr0).
    + rewrite Hf0. destruct (frame_main_render st) as [[rest ->] _].
      exists rest. reflexivity.
    + unfold atomicOperationUnderway in *. rewrite Hd0. exact Hd.
  - intros Hd. rewrite update_suppressed; [exact Hr0|].
    unfold atomicOperationUnderway in *. rewrite Hd0. exact Hd.
  - intros ->. rewrite Hscale, Hhscale, Hpos, Hhpos.
    vm_compute. repeat split.
Qed.

Lemma changeMesh_normalises_witness :
  exists st1,
    changeMesh (Some sample_payload) sample_viewport = (Normal tt, st1)
    /\ Object3D.scale (s_scaleRotate st1) = vec3 0.5 0.5 0.5
    /\ Vector3.equals (Object3D.position (s_translate st1))
                      (vec3 (-1) 0 0) = true
    /\ exists rest,
         renderer st1
         = Some (([setPixelRatio 1; setClearColor CLEAR_COLOUR 1;
                   setSize 800 600] ++ frame sample_viewport)
                 ++ [setViewport 0 0 800 600; setScissor 0 0 800 600;
                     enableScissorTest true; clear;
                     render scene_ref s_pCam_ref]
                 ++ rest).
Proof.
  destruct (changeMesh_normalises sample_payload sample_viewport
              ([setPixelRatio 1; setClearColor CLEAR_COLOUR 1;
                setSize 800 600] ++ frame sample_viewport))
    as [st1 [Hrun [_ [_ [_ [_ [_ [Hrender [_ Hsample]]]]]]]]].
  - vm_compute. reflexivity.
  - exists st1. split; [exact Hrun|].
    destruct (Hsample eq_refl) as [Hs [_ [_ [_ [Hp _]]]]].
    split; [exact Hs|]. split; [exact Hp|]. exact (Hrender eq_refl).
Defined.

(** ** The helper hierarchy stays in step *)

Lemma scene_invariant_scene st st' :
  scene_of st' = scene_of st -> scene_invariant st -> scene_invariant st'.
Proof.
  intros H [[Hsr Htr] Hup]. scene_fields H.
  unfold scene_invariant, mirrored, canonical_up in *.
  split; [split|]; congruence.
Qed.

Lemma removeMeshIfPresent_scene st :
  scene_of (removeMeshIfPresent st) = scene_of st.
Proof. unfold removeMeshIfPresent. destruct (mesh st); reflexivity. Qed.

Lemma toggleCamera_scene st : scene_of (toggleCamera st) = scene_of st.
Proof.
  unfold toggleCamera. rewrite update_scene.
  destruct (CameraRef_eqb (s_camera st) s_pCam_ref); reflexivity.
Qed.

Lemma atomic_modify_scene f st :
  (forall s, scene_of (f s) = scene_of s) ->
  scene_of (snd (atomicOperation (modify f) st)) = scene_of st.
Proof.
  intros Hf. unfold atomicOperation, modify. simpl.
  rewrite endAtomicOperation_scene, Hf. apply startAtomicOperation_scene.
Qed.

Lemma changeMesh_invariant payload st :
  scene_invariant st -> scene_invariant (snd (changeMesh payload st)).
Proof.
  intros Hm. destruct (renderer st) as [calls|] eqn:Hr.
  - destruct payload as [p|].
    + destruct (changeMesh_payload p st calls Hr)
        as [st0 [-> [Hsr [Hhsr [Htr [Hhtr [Hup _]]]]]]].
      simpl. pose proof (update_scene st0) as Hsc. scene_fields Hsc.
      destruct Hm as [[Hm1 Hm2] Hm3].
      unfold scene_invariant, mirrored, canonical_up in *.
      split; [split|]; congruence.
    + rewrite (changeMesh_null st calls Hr). simpl.
      apply (scene_invariant_scene st);
        [apply removeMeshIfPresent_scene | exact Hm].
  - rewrite (changeMesh_no_renderer payload st Hr). exact Hm.
Qed.

Lemma pointUp_invariant v st :
  scene_invariant st -> scene_invariant (snd (pointUp v st)).
Proof.
  intros [[Hm1 Hm2] Hm3].
  pose proof (startAtomicOperation_scene st) as Hs. scene_fields Hs.
  unfold pointUp, atomicOperation.
  destruct (pointUp_body_cases v (startAtomicOperation st))
    as [n [_ [Hn [[_ ->]|[_ [axis [angle ->]]]]]]]; simpl.
  - pose proof (endAtomicOperation_scene (startAtomicOperation st)) as He.
    scene_fields He. unfold scene_invariant, mirrored, canonical_up in *.
    split; [split|]; congruence.
  - set (st' := reoriented n axis angle (startAtomicOperation st)).
    assert (E0 : _upVector st' = n) by reflexivity.
    assert (E1 : s_scaleRotate st'
                 = Object3D.rotateOnAxis
                     (s_scaleRotate (startAtomicOperation st)) axis angle)
      by reflexivity.
    assert (E2 : s_h_scaleRotate st'
                 = Object3D.rotateOnAxis
                     (s_h_scaleRotate (startAtomicOperation st)) axis angle)
      by reflexivity.
    assert (E3 : s_translate st' = s_translate (startAtomicOperation st))
      by reflexivity.
    assert (E4 : s_h_translate st' = s_h_translate (startAtomicOperation st))
      by reflexivity.
    clearbody st'.
    destruct (scene_of_inv _ _ (endAtomicOperation_scene st'))
      as (Fup & Fsr & Ftr & Fhsr & Fhtr).
    destruct (scene_of_inv _ _ (startAtomicOperation_scene st))
      as (_ & Ssr & Str & Shsr & Shtr).
    unfold scene_invariant, mirrored, canonical_up. split; [split|].
    + rewrite Fhsr, Fsr, E1, E2, Ssr, Shsr, Hm1. reflexivity.
    + rewrite Fhtr, Ftr, E3, E4, Str, Shtr, Hm2. reflexivity.
    + rewrite Fup, E0. exact Hn.
Qed.

Lemma run_calls_invariant cs st :
  scene_invariant st -> scene_invariant (run_calls cs st).
Proof.
  revert st. induction cs as [|c cs IH]; intros st Hm; simpl.
  - exact Hm.
  - apply IH. destruct c; simpl.
    + apply changeMesh_invariant. exact Hm.
    + apply pointUp_invariant. exact Hm.
Qed.

Lemma initialize_invariant env : scene_invariant (snd (initialize env)).
Proof.
  unfold initialize, bind.
  set (st0 := fresh_viewport env).
  assert (H0 : scene_invariant st0)
    by (split; [split; reflexivity | right; right; left; reflexivity]).
  set (c1 := (if env_meshMode env then ret tt else modify toggleCamera) st0).
  assert (H1 : fst c1 = Normal tt /\ scene_invariant (snd c1)).
  { subst c1. destruct (env_meshMode env); simpl; (split; [reflexivity|]).
    - exact H0.
    - apply (scene_invariant_scene st0); [apply toggleCamera_scene | exact H0]. }
  destruct c1 as [r1 st1]. simpl in H1. destruct H1 as [-> H1].
  unfold modify at 1 2. unfold resetCamera.
  set (st2 := set_renderer (Some (renderer_created env)) (update st1)).
  assert (H2 : scene_invariant st2).
  { apply (scene_invariant_scene st1); [|exact H1].
    subst st2. transitivity (scene_of (update st1)); [reflexivity|].
    apply update_scene. }
  pose proof (changeMesh_invariant (env_mesh env) st2 H2) as H3.
  destruct (changeMesh (env_mesh env) st2) as [[[]|e] st3]; simpl in H3;
    [|exact H3].
  unfold modify at 1. set (st3' := set_showConnectivity true st3).
  assert (H3' : scene_of st3' = scene_of st3) by reflexivity.
  pose proof (atomic_modify_scene
                (set_showConnectivity (env_connectivityOn env)) st3'
                (fun s => eq_refl)) as H4.
  unfold updateConnectivityDisplay.
  destruct (atomicOperation
              (modify (set_showConnectivity (env_connectivityOn env))) st3')
    as [[[]|e] st4] eqn:E4; cbn [snd] in H4;
    [|cbn [snd]; apply (scene_invariant_scene st3); [congruence | assumption]].
  pose proof (atomic_modify_scene clearCanvas st4 (fun s => eq_refl)) as H5.
  unfold updateEditingDisplay.
  destruct (atomicOperation (modify clearCanvas) st4) as [[[]|e] st5] eqn:E5;
    cbn [snd] in H5.
  - unfold modify.
    apply (scene_invariant_scene st3); [|exact H3].
    rewrite resize_scene. transitivity (scene_of st5); [reflexivity|].
    congruence.
  - cbn [snd]. apply (scene_invariant_scene st3); [congruence | exact H3].
Qed.

(** The up vector of every viewport reached by [changeMesh] and [pointUp]
    calls is one of [COORDS]. *)
Lemma reachable_up_canonical env cs :
  In (_upVector (run_calls cs (snd (initialize env)))) COORDS.
Proof.
  apply (run_calls_invariant cs (snd (initialize env))
           (initialize_invariant env)).
Qed.

(** C4.  After construction and any sequence of [changeMesh] and [pointUp]
    calls, the helper ScaleRotate node equals the primary one (position,
    up vector, scale and orientation) and the helper Translate node equals
    the primary one. *)
Theorem helper_hierarchy_mirrors_primary (env : Environment)
    (cs : list Call) :
  let st := run_calls cs (snd (initialize env)) in
  Object3D.scale (s_h_scaleRotate st) = Object3D.scale (s_scaleRotate st)
  /\ Object3D.up (s_h_scaleRotate st) = Object3D.up (s_scaleRotate st)
  /\ Object3D.quaternion (s_h_scaleRotate st)
     = Object3D.quaternion (s_scaleRotate st)
  /\ Object3D.position (s_h_translate st) = Object3D.position (s_translate st)
  /\ s_h_scaleRotate st = s_scaleRotate st
  /\ s_h_translate st = s_translate st.
Proof.
  intros st.
  destruct (run_calls_invariant cs (snd (initialize env))
              (initialize_invariant env)) as [[Hsr Htr] _].
  fold st in Hsr, Htr. rewrite Hsr, Htr. repeat split.
Qed.

(** ** The atomic-operation gate *)

Lemma Action_nested_ind (P : Action -> Prop) :
  P act_update ->
  (forall c, P (act_call c)) ->
  P act_toggleCamera ->
  (forall body, Forall P body -> P (act_atomic body)) ->
  forall a, P a.
Proof.
  intros Hu Hc Ht Ha.
  fix IH 1. intros [| c | | body].
  - exact Hu.
  - apply Hc.
  - exact Ht.
  - apply Ha. induction body as [|a body IHbody]; constructor.
    + apply IH.
    + exact IHbody.
Qed.

Lemma fold_listeners_filter em ev ls st :
  fold_left (fun s l => if listens em ev l then run_handler (l_handler l) s
                        else s) ls st
  = fold_left (fun s h => run_handler h s)
              (map l_handler (filter (listens em ev) ls)) st.
Proof.
  revert st. induction ls as [|l ls IH]; intros st; simpl.
  - reflexivity.
  - destruct (listens em ev l); simpl; apply IH.
Qed.

(** With the one subscription [initialize] makes, a change of the counter
    runs [batchHandler] once. *)
Lemma trigger_atomic_subscribed st :
  atomic_handlers st = [h_batchHandler] ->
  trigger e_atomic CHANGE_ATOMIC_OPERATION st = batchHandler st.
Proof.
  unfold atomic_handlers, trigger. intros H.
  rewrite fold_listeners_filter, H. reflexivity.
Qed.

Lemma suppressed_underway st :
  suppressed st -> atomicOperationUnderway st = true.
Proof. intros [Hd _]. unfold atomicOperationUnderway. apply Z.ltb_lt, Hd. Qed.

Lemma suppressed_gate st st' :
  gate_of st' = gate_of st -> suppressed st -> suppressed st'.
Proof.
  unfold gate_of, suppressed. intros H [Hd Hl]. injection H as _ -> ->.
  split; assumption.
Qed.

Lemma startAtomicOperation_suppressed st :
  suppressed st ->
  startAtomicOperation st = set_ATOMIC_OPERATION (ATOMIC_OPERATION st + 1) st.
Proof.
  intros [Hd Hl]. unfold startAtomicOperation, set_depth.
  rewrite trigger_atomic_subscribed by exact Hl.
  unfold batchHandler, atomicOperationFinished. simpl.
  destruct (Z.eqb_spec (ATOMIC_OPERATION st + 1) 0); [lia | reflexivity].
Qed.

Lemma endAtomicOperation_suppressed st :
  (1 < ATOMIC_OPERATION st)%Z ->
  atomic_handlers st = [h_batchHandler] ->
  endAtomicOperation st = set_ATOMIC_OPERATION (ATOMIC_OPERATION st - 1) st.
Proof.
  intros Hd Hl. unfold endAtomicOperation, set_depth.
  rewrite trigger_atomic_subscribed by exact Hl.
  unfold batchHandler, atomicOperationFinished. simpl.
  destruct (Z.eqb_spec (ATOMIC_OPERATION st - 1) 0); [lia | reflexivity].
Qed.

(** An atomic operation entered while the gate is closed leaves the gate
    as it found it, if its body does. *)
Lemma atomicOperation_suppressed {A} (f : M A) st :
  suppressed st ->
  (forall s, suppressed s -> gate_of (snd (f s)) = gate_of s) ->
  gate_of (snd (atomicOperation f st)) = gate_of st.
Proof.
  intros Hs Hf. unfold atomicOperation.
  rewrite (startAtomicOperation_suppressed st Hs).
  set (s1 := set_ATOMIC_OPERATION (ATOMIC_OPERATION st + 1) st).
  assert (Hs1 : suppressed s1).
  { destruct Hs as [Hd Hl]. split; [simpl; lia | exact Hl]. }
  specialize (Hf s1 Hs1). destruct (f s1) as [r s2]. simpl in *.
  assert (Hg : gate_of s2 = (renderer st, (ATOMIC_OPERATION st + 1)%Z,
                             atomic_handlers st)) by exact Hf.
  unfold gate_of in Hg. injection Hg as Hr Hd Hl.
  destruct Hs as [Hd0 Hl0].
  rewrite endAtomicOperation_suppressed by (try lia; congruence).
  unfold gate_of. simpl. rewrite Hr, Hd.
  replace (atomic_handlers (set_ATOMIC_OPERATION (ATOMIC_OPERATION st + 1 - 1) s2))
    with (atomic_handlers s2) by reflexivity.
  rewrite Hl. f_equal. f_equal. lia.
Qed.

Lemma update_gate st : suppressed st -> gate_of (update st) = gate_of st.
Proof.
  intros Hs. rewrite update_suppressed; [reflexivity|].
  apply suppressed_underway, Hs.
Qed.

Lemma changeMesh_gate payload st :
  suppressed st -> gate_of (snd (changeMesh payload st)) = gate_of st.
Proof.
  intros Hs. destruct (renderer st) as [calls|] eqn:Hr.
  - destruct payload as [p|].
    + destruct (changeMesh_payload p st calls Hr)
        as [st0 [-> [_ [_ [_ [_ [_ [Hr0 [Hd0 [_ [_ Hl0]]]]]]]]]]].
      cbn [snd].
      assert (Hg : gate_of st0 = gate_of st).
      { unfold gate_of, atomic_handlers. rewrite Hr0, Hd0, Hl0, Hr.
        reflexivity. }
      rewrite update_gate; [exact Hg|].
      apply (suppressed_gate st); assumption.
    + rewrite (changeMesh_null st calls Hr). cbn [snd].
      unfold removeMeshIfPresent. destruct (mesh st); reflexivity.
  - rewrite (changeMesh_no_renderer payload st Hr). reflexivity.
Qed.

Lemma pointUp_body_gate v st :
  gate_of (snd (pointUp_body v st)) = gate_of st.
Proof.
  destruct (pointUp_body_cases v st)
    as [n [_ [_ [[_ ->]|[_ [axis [angle ->]]]]]]]; reflexivity.
Qed.

Lemma pointUp_gate v st :
  suppressed st -> gate_of (snd (pointUp v st)) = gate_of st.
Proof.
  intros Hs. apply atomicOperation_suppressed; [exact Hs|].
  intros s _. apply pointUp_body_gate.
Qed.

Lemma filter_app_miss {A} (f : A -> bool) l x :
  f x = false -> filter f (l ++ [x]) = filter f l.
Proof.
  intros H. rewrite filter_app. simpl. rewrite H. apply app_nil_r.
Qed.

Lemma filter_filter_keep {A} (f g : A -> bool) l :
  (forall x, f x = true -> g x = true) ->
  filter f (filter g l) = filter f l.
Proof.
  intros H. induction l as [|x l IH]; simpl; [reflexivity|].
  destruct (g x) eqn:Eg; simpl.
  - destruct (f x); [f_equal|]; exact IH.
  - destruct (f x) eqn:Ef; [|exact IH].
    rewrite (H x Ef) in Eg. discriminate.
Qed.

Lemma listens_atomic_not_camera l :
  listens e_atomic CHANGE_ATOMIC_OPERATION l = true ->
  negb (listens e_cameraController CHANGE_PIP l) = true.
Proof.
  unfold listens. destruct (l_emitter l); simpl; [discriminate | reflexivity].
Qed.

Lemma toggleCamera_gate st :
  suppressed st -> gate_of (toggleCamera st) = gate_of st.
Proof.
  intros Hs. unfold toggleCamera.
  match goal with |- gate_of (update ?s) = _ =>
    assert (Hg : gate_of s = gate_of st) end.
  { destruct (CameraRef_eqb (s_camera st) s_pCam_ref);
      unfold gate_of, atomic_handlers; simpl.
    - rewrite filter_app_miss by reflexivity. reflexivity.
    - rewrite filter_filter_keep by exact listens_atomic_not_camera.
      reflexivity. }
  rewrite update_gate; [exact Hg|].
  apply (suppressed_gate st); assumption.
Qed.

Lemma run_actions_gate body st :
  Forall (fun a => forall s, suppressed s ->
                             gate_of (run_action a s) = gate_of s) body ->
  suppressed st -> gate_of (run_actions body st) = gate_of st.
Proof.
  intros Hbody. revert st.
  induction Hbody as [|a body Ha _ IH]; intros st Hs; simpl.
  - reflexivity.
  - unfold run_actions in *. simpl. rewrite IH.
    + apply Ha, Hs.
    + apply (suppressed_gate st); [apply Ha, Hs | exact Hs].
Qed.

(** While the gate is closed no action renders, and every action leaves
    the depth counter where it found it. *)
Lemma run_action_gate a :
  forall st, suppressed st -> gate_of (run_action a st) = gate_of st.
Proof.
  induction a as [| c | | body IH] using Action_nested_ind; intros st Hs.
  - apply update_gate, Hs.
  - destruct c; simpl; [apply changeMesh_gate | apply pointUp_gate]; exact Hs.
  - apply toggleCamera_gate, Hs.
  - change (run_action (act_atomic body) st)
      with (snd (atomicOperation (modify (run_actions body)) st)).
    apply atomicOperation_suppressed; [exact Hs|].
    intros s Hs'. apply (run_actions_gate body s IH Hs').
Qed.

(** *** Every constructed viewport is wired as the gate needs *)

Lemma update_wiring st :
  wiring_of (update st) = wiring_of st
  /\ (has_renderer st -> has_renderer (update st)).
Proof.
  split.
  - destruct (update_renderer_only st) as [r ->]. reflexivity.
  - unfold has_renderer, update. intros H.
    destruct (renderer st) as [calls|] eqn:E; [|contradiction].
    destruct (atomicOperationUnderway st); [rewrite E|]; discriminate.
Qed.

Lemma run_handler_wiring h st :
  wiring_of (run_handler h st) = wiring_of st
  /\ (has_renderer st -> has_renderer (run_handler h st)).
Proof.
  destruct h; simpl; [apply update_wiring|].
  unfold batchHandler. destruct (atomicOperationFinished st);
    [apply update_wiring | split; auto].
Qed.

Lemma trigger_wiring em ev st :
  wiring_of (trigger em ev st) = wiring_of st
  /\ (has_renderer st -> has_renderer (trigger em ev st)).
Proof.
  unfold trigger. generalize (listeners st) as ls. intros ls. revert st.
  induction ls as [|l ls IH]; intros st; simpl; [split; auto|].
  destruct (listens em ev l); [|apply IH].
  destruct (run_handler_wiring (l_handler l) st) as [Hw Hr].
  destruct (IH (run_handler (l_handler l) st)) as [Hw' Hr'].
  split; [congruence | auto].
Qed.

Lemma atomic_modify_wiring f st :
  (forall s, listeners (f s) = listeners s
             /\ ATOMIC_OPERATION (f s) = ATOMIC_OPERATION s
             /\ (has_renderer s -> has_renderer (f s))) ->
  let st' := snd (atomicOperation (modify f) st) in
  wiring_of st' = wiring_of st /\ (has_renderer st -> has_renderer st').
Proof.
  intros Hf. unfold atomicOperation, modify. cbn [snd].
  unfold startAtomicOperation, endAtomicOperation, set_depth.
  set (s1 := trigger _ _ (set_ATOMIC_OPERATION (ATOMIC_OPERATION st + 1) st)).
  destruct (trigger_wiring e_atomic CHANGE_ATOMIC_OPERATION
              (set_ATOMIC_OPERATION (ATOMIC_OPERATION st + 1) st))
    as [W1 R1]. fold s1 in W1, R1.
  destruct (Hf s1) as (L2 & D2 & R2).
  destruct (trigger_wiring e_atomic CHANGE_ATOMIC_OPERATION
              (set_ATOMIC_OPERATION (ATOMIC_OPERATION (f s1) - 1) (f s1)))
    as [W3 R3].
  unfold wiring_of in *. cbn [listeners ATOMIC_OPERATION set_ATOMIC_OPERATION]
    in W1, W3. injection W1 as L1 D1. split.
  - rewrite W3, L2, L1, D2, D1. f_equal. lia.
  - intros H. apply R3, R2, R1, H.
Qed.

Lemma changeMesh_wiring payload st :
  has_renderer st ->
  wiring_of (snd (changeMesh payload st)) = wiring_of st
  /\ has_renderer (snd (changeMesh payload st)).
Proof.
  unfold has_renderer. intros H.
  destruct (renderer st) as [calls|] eqn:Hr; [clear H | contradiction].
  destruct payload as [p|].
  - destruct (changeMesh_payload p st calls Hr)
      as [st0 [-> [_ [_ [_ [_ [_ [Hr0 [Hd0 [_ [_ Hl0]]]]]]]]]]].
    cbn [snd]. destruct (update_wiring st0) as [W R]. split.
    + rewrite W. unfold wiring_of. congruence.
    + apply R. unfold has_renderer. rewrite Hr0. discriminate.
  - rewrite (changeMesh_null st calls Hr). cbn [snd].
    unfold removeMeshIfPresent.
    destruct (mesh st); (split; [reflexivity|]);
      unfold has_renderer; simpl; rewrite Hr; discriminate.
Qed.

Lemma resize_wiring st :
  wiring_of (snd (resize st)) = wiring_of st
  /\ (has_renderer st -> has_renderer (snd (resize st))).
Proof.
  split.
  - destruct (resize_renderer_only st) as [r ->]. reflexivity.
  - intros H. destruct (resize_cases st) as [[Hr _]|(calls & _ & ->)].
    + contradiction.
    + cbn [snd]. apply update_wiring. discriminate.
Qed.

Lemma initialize_shape env :
  exists st5,
    snd (initialize env)
    = snd (resize (listenTo e_atomic CHANGE_ATOMIC_OPERATION h_batchHandler
                            st5))
    /\ ATOMIC_OPERATION st5 = env_depth env
    /\ filter (listens e_atomic CHANGE_ATOMIC_OPERATION) (listeners st5) = []
    /\ has_renderer st5.
Proof.
  unfold initialize, bind.
  set (c1 := (if env_meshMode env then ret tt else modify toggleCamera)
               (fresh_viewport env)).
  assert (H1 : fst c1 = Normal tt
               /\ ATOMIC_OPERATION (snd c1) = env_depth env
               /\ filter (listens e_atomic CHANGE_ATOMIC_OPERATION)
                         (listeners (snd c1)) = []).
  { subst c1. destruct (env_meshMode env); cbn [fst snd ret modify].
    - repeat split.
    - split; [reflexivity|].
      destruct (update_display
                  (clearCanvas
                     (set_pipCanvas_display None
                        (set_s_camera s_oCam_ref
                           (listenTo e_cameraController CHANGE_PIP h_update
                              (fresh_viewport env))))))
        as (_ & _ & Ul & Ud & _).
      unfold toggleCamera. cbn [fresh_viewport s_camera CameraRef_eqb].
      rewrite Ul, Ud. split; reflexivity. }
  destruct c1 as [r1 st1]. cbn [fst snd] in H1. destruct H1 as (-> & D1 & L1).
  unfold modify at 1 2. unfold resetCamera.
  set (st2 := set_renderer (Some (renderer_created env)) (update st1)).
  assert (W2 : wiring_of st2 = wiring_of st1)
    by (destruct (update_wiring st1) as [W _]; exact W).
  assert (R2 : has_renderer st2) by discriminate.
  destruct (changeMesh_wiring (env_mesh env) st2 R2) as [W3 R3].
  destruct (changeMesh (env_mesh env) st2) as [[[]|e] st3] eqn:E3;
    cbn [snd] in W3, R3.
  2:{ exfalso. unfold has_renderer in R2.
      destruct (renderer st2) as [calls|] eqn:Hr; [|contradiction].
      destruct (env_mesh env) as [p|].
      - destruct (changeMesh_payload p st2 calls Hr) as [st0 [Hrun _]].
        congruence.
      - rewrite (changeMesh_null st2 calls Hr) in E3. discriminate. }
  unfold modify at 1. set (st3' := set_showConnectivity true st3).
  assert (W3' : wiring_of st3' = wiring_of st3) by reflexivity.
  assert (R3' : has_renderer st3') by exact R3.
  unfold updateConnectivityDisplay, updateEditingDisplay.
  destruct (atomic_modify_wiring
              (set_showConnectivity (env_connectivityOn env)) st3')
    as [W4 R4]; [intros s; repeat split; auto|].
  destruct (atomicOperation
              (modify (set_showConnectivity (env_connectivityOn env))) st3')
    as [[[]|e] st4] eqn:E4; [|discriminate E4].
  cbn [snd] in W4, R4.
  destruct (atomic_modify_wiring clearCanvas st4) as [W5 R5];
    [intros s; repeat split; auto|].
  destruct (atomicOperation (modify clearCanvas) st4) as [[[]|e] st5] eqn:E5;
    [|discriminate E5].
  cbn [snd] in W5, R5. unfold modify.
  assert (W : wiring_of st5 = wiring_of st1) by congruence.
  unfold wiring_of in W. injection W as L5 D5.
  exists st5. split; [reflexivity|]. split; [congruence|].
  split; [congruence|]. apply R5, R4, R3'.
Qed.

(** After [initialize] the renderer exists, the counter is where it was,
    and [batchHandler] is the one callback subscribed to the counter. *)
Lemma initialize_wired env :
  let st := snd (initialize env) in
  atomic_handlers st = [h_batchHandler]
  /\ ATOMIC_OPERATION st = env_depth env
  /\ has_renderer st.
Proof.
  destruct (initialize_shape env) as (st5 & -> & D5 & L5 & R5).
  set (st6 := listenTo e_atomic CHANGE_ATOMIC_OPERATION h_batchHandler st5).
  destruct (resize_wiring st6) as [W7 R7].
  unfold wiring_of in W7. injection W7 as L7 D7.
  cbv zeta. split; [|split].
  - unfold atomic_handlers. rewrite L7. subst st6. unfold listenTo.
    cbn [listeners set_listeners]. rewrite filter_app, L5. reflexivity.
  - rewrite D7. exact D5.
  - apply R7. exact R5.
Qed.

Lemma pointUp_has_renderer v st :
  has_renderer st -> has_renderer (snd (pointUp v st)).
Proof.
  intros H. unfold pointUp, atomicOperation.
  assert (H1 : has_renderer (startAtomicOperation st)).
  { unfold startAtomicOperation, set_depth. apply trigger_wiring. exact H. }
  destruct (pointUp_body_cases v (startAtomicOperation st))
    as [n [_ [_ [[_ ->]|[_ [axis [angle ->]]]]]]]; cbn [snd];
    unfold endAtomicOperation, set_depth; apply trigger_wiring; exact H1.
Qed.

(** Every viewport reached by [changeMesh] and [pointUp] calls has its
    renderer. *)
Lemma reachable_has_renderer env cs :
  has_renderer (run_calls cs (snd (initialize env))).
Proof.
  assert (H : has_renderer (snd (initialize env)))
    by apply (initialize_wired env).
  revert H. generalize (snd (initialize env)) as st.
  induction cs as [|c cs IH]; intros st H; simpl; [exact H|].
  apply IH. destruct c; simpl.
  - apply changeMesh_wiring, H.
  - apply pointUp_has_renderer, H.
Qed.

(** C2.  While the depth counter is greater than zero, [update] changes
    nothing.  From depth zero, on a viewport that has its renderer and its
    one subscription to the counter, an atomic operation with any body
    (render requests, scene-graph calls, camera toggles, nested atomic
    operations) ends with the counter back at zero and the renderer having
    received exactly the calls of one frame, that of the final state,
    issued by [batchHandler] when the counter returned to zero.  That
    frame starts with the viewport and scissor of the whole surface,
    [clear] and the render of the scene with the active camera, and holds
    no second render of the scene with that camera. *)
Theorem atomic_gate_renders_once (body : list Action) (st : Viewport)
    (calls : list GLCommand) :
  renderer st = Some calls ->
  ATOMIC_OPERATION st = 0%Z ->
  atomic_handlers st = [h_batchHandler] ->
  (forall s, (0 < ATOMIC_OPERATION s)%Z -> update s = s)
  /\ let inside := run_actions body (startAtomicOperation st) in
     let st' := run_action (act_atomic body) st in
     renderer inside = Some calls
     /\ ATOMIC_OPERATION inside = 1%Z
     /\ st' = batchHandler (set_ATOMIC_OPERATION 0 inside)
     /\ renderer st' = Some (calls ++ frame st')
     /\ ATOMIC_OPERATION st' = 0%Z
     /\ (exists rest,
           frame st'
           = [setViewport 0 0 (width st') (height st');
              setScissor 0 0 (width st') (height st');
              enableScissorTest true; clear;
              render scene_ref (s_camera st')]
             ++ rest)
     /\ List.length (filter (is_scene_render (s_camera st')) (frame st'))
        = 1%nat.
Proof.
  intros Hr Hd Hl. split.
  { intros s Hs. apply update_suppressed. apply Z.ltb_lt, Hs. }
  assert (Hstart : startAtomicOperation st = set_ATOMIC_OPERATION 1 st).
  { unfold startAtomicOperation, set_depth.
    rewrite trigger_atomic_subscribed by exact Hl. rewrite Hd. reflexivity. }
  cbv zeta. rewrite Hstart.
  set (s1 := set_ATOMIC_OPERATION 1 st).
  assert (Hs1 : suppressed s1) by (split; [simpl; lia | exact Hl]).
  assert (Hg : gate_of (run_actions body s1) = gate_of s1).
  { apply run_actions_gate; [|exact Hs1].
    apply Forall_forall. intros a _. apply run_action_gate. }
  set (inside := run_actions body s1) in *.
  unfold gate_of in Hg. injection Hg as Hri Hdi Hli.
  simpl in Hri, Hdi. fold (atomic_handlers s1) in Hli.
  assert (Hrun : run_action (act_atomic body) st
                 = batchHandler (set_ATOMIC_OPERATION 0 inside)).
  { change (run_action (act_atomic body) st)
      with (endAtomicOperation (run_actions body (startAtomicOperation st))).
    rewrite Hstart. fold s1. fold inside.
    unfold endAtomicOperation, set_depth. rewrite Hdi.
    apply trigger_atomic_subscribed.
    transitivity (atomic_handlers inside); [reflexivity|].
    rewrite Hli. exact Hl. }
  rewrite Hrun.
  split; [congruence|]. split; [exact Hdi|]. split; [reflexivity|].
  unfold batchHandler, atomicOperationFinished. cbn [ATOMIC_OPERATION set_ATOMIC_OPERATION Z.eqb].
  rewrite (update_renders _ calls);
    [ split; [reflexivity|]; split; [reflexivity|]; apply frame_main_render
    | rewrite <- Hr; exact Hri | reflexivity].
Qed.

Lemma atomic_gate_renders_once_witness :
  let calls := [setPixelRatio 1; setClearColor CLEAR_COLOUR 1;
                setSize 800 600] ++ frame sample_viewport in
  (renderer sample_viewport = Some calls
   /\ ATOMIC_OPERATION sample_viewport = 0%Z
   /\ atomic_handlers sample_viewport = [h_batchHandler])
  /\ let st' := run_action (act_atomic sample_batch) sample_viewport in
     renderer st' = Some (calls ++ frame st')
     /\ ATOMIC_OPERATION st' = 0%Z
     /\ (exists rest,
           frame st'
           = [setViewport 0 0 (width st') (height st');
              setScissor 0 0 (width st') (height st');
              enableScissorTest true; clear;
              render scene_ref (s_camera st')]
             ++ rest)
     /\ List.length (filter (is_scene_render (s_camera st')) (frame st'))
        = 1%nat.
Proof.
  intros calls.
  assert (Hr : renderer sample_viewport = Some calls)
    by (vm_compute; reflexivity).
  assert (Hd : ATOMIC_OPERATION sample_viewport = 0%Z)
    by (vm_compute; reflexivity).
  assert (Hl : atomic_handlers sample_viewport = [h_batchHandler])
    by (vm_compute; reflexivity).
  split; [auto|].
  destruct (atomic_gate_renders_once sample_batch sample_viewport calls
              Hr Hd Hl) as [_ [_ [_ [_ H]]]].
  exact H.
Defined.

(** ** Camera toggling and the picture in picture *)

Lemma filter_none_left {A} (f : A -> bool) l :
  forall x, In x (filter (fun y => negb (f y)) l) -> f x = false.
Proof.
  intros x Hin. apply filter_In in Hin. destruct Hin as [_ H].
  apply negb_true_iff, H.
Qed.

Lemma toggleCamera_to_orthographic st :
  s_camera st = s_pCam_ref ->
  exists st0,
    toggleCamera st = update st0
    /\ s_camera st0 = s_oCam_ref
    /\ pipCanvas_display st0 = None
    /\ listeners st0 = listeners st ++ [PIP_LISTENER]
    /\ renderer st0 = renderer st
    /\ ATOMIC_OPERATION st0 = ATOMIC_OPERATION st.
Proof.
  intros Hc. unfold toggleCamera. rewrite Hc. simpl.
  eexists. split; [reflexivity|]. repeat split.
Qed.

Lemma toggleCamera_to_perspective st :
  s_camera st = s_oCam_ref ->
  exists st0,
    toggleCamera st = update st0
    /\ s_camera st0 = s_pCam_ref
    /\ pipCanvas_display st0 = DISPLAY_NONE
    /\ listeners st0
       = filter (fun l => negb (listens e_cameraController CHANGE_PIP l))
                (listeners st)
    /\ renderer st0 = renderer st
    /\ ATOMIC_OPERATION st0 = ATOMIC_OPERATION st.
Proof.
  intros Hc. unfold toggleCamera. rewrite Hc. simpl.
  eexists. split; [reflexivity|]. repeat split.
Qed.

(** C6.  Toggling from the perspective camera clears the PIP canvas's
    [display] (it was 'none'), appends the subscription of [update] to the
    camera controller's [changePip], and makes the orthographic camera
    active, so that every [update] that is not suppressed then issues the
    main pass followed by the PIP pass: PIP clear colour, viewport and
    scissor at (width - 300, height - 300) of size 300 x 300, clear, render
    with the zoom camera, main clear colour.  Toggling from the
    orthographic camera sets [display] to 'none', removes every [changePip]
    subscription and makes the perspective camera active; with the
    perspective camera active an [update] issues the main pass only. *)
Theorem toggleCamera_pip :
  (forall st,
      s_camera st = s_pCam_ref ->
      let st' := toggleCamera st in
      pipCanvas_display st' = None
      /\ pipCanvas_display st' <> DISPLAY_NONE
      /\ listeners st' = listeners st ++ [PIP_LISTENER]
      /\ s_camera st' = s_oCam_ref
      /\ (forall calls,
             renderer st = Some calls ->
             atomicOperationUnderway st = false ->
             renderer st' = Some (calls ++ main_pass st' ++ pip_pass st'))
      /\ (forall calls,
             renderer st' = Some calls ->
             atomicOperationUnderway st' = false ->
             renderer (update st')
             = Some (calls ++ main_pass st' ++ pip_pass st')))
  /\ (forall st,
         let b := pipBounds st in
         b = {| b_x := (width st - 300)%float; b_y := (height st - 300)%float;
                b_width := 300; b_height := 300 |}
         /\ exists connectivity,
              pip_pass st
              = [ setClearColor CLEAR_COLOUR_PIP 1;
                  setViewport (b_x b) (b_y b) (b_width b) (b_height b);
                  setScissor (b_x b) (b_y b) (b_width b) (b_height b);
                  enableScissorTest true;
                  clear;
                  render scene_ref s_oCamZoom_ref ]
                ++ connectivity ++ [ setClearColor CLEAR_COLOUR 1 ])
  /\ (forall st,
         s_camera st = s_oCam_ref ->
         let st' := toggleCamera st in
         pipCanvas_display st' = DISPLAY_NONE
         /\ (forall l, In l (listeners st') ->
                       listens e_cameraController CHANGE_PIP l = false)
         /\ s_camera st' = s_pCam_ref)
  /\ (forall st,
         s_camera st = s_pCam_ref ->
         frame st = main_pass st
         /\ forall c, In c (frame st) -> is_pip_call c = false).
Proof.
  split; [|split; [|split]].
  - intros st Hc st'.
    destruct (toggleCamera_to_orthographic st Hc)
      as [st0 [Hrun [Hc0 [Hd0 [Hl0 [Hr0 Ha0]]]]]].
    destruct (update_display st0) as [Uc [Ud [Ul [_ _]]]].
    subst st'. rewrite Hrun.
    split; [congruence|]. split; [rewrite Ud, Hd0; discriminate|].
    split; [congruence|]. split; [congruence|]. split.
    { intros calls Hr Hu. rewrite (update_renders st0 calls).
      - cbn [renderer set_renderer]. unfold frame. rewrite Hc0. reflexivity.
      - congruence.
      - unfold atomicOperationUnderway in *. rewrite Ha0. exact Hu. }
    intros calls Hr Hu. rewrite (update_renders _ calls Hr Hu).
    cbn [renderer set_renderer]. unfold frame. rewrite Uc, Hc0. reflexivity.
  - intros st b. split; [reflexivity|].
    subst b. unfold pip_pass. eexists. reflexivity.
  - intros st Hc st'.
    destruct (toggleCamera_to_perspective st Hc)
      as [st0 [Hrun [Hc0 [Hd0 [Hl0 _]]]]].
    destruct (update_display st0) as [Uc [Ud [Ul [_ _]]]].
    subst st'. rewrite Hrun.
    split; [congruence|]. split; [|congruence].
    intros l Hin. rewrite Ul, Hl0 in Hin.
    apply (filter_none_left _ _ _ Hin).
  - intros st Hc. unfold frame. rewrite Hc. simpl. rewrite app_nil_r.
    split; [reflexivity|].
    unfold main_pass. rewrite Hc. intros c Hin.
    destruct (showConnectivity st); simpl in Hin;
      repeat match goal with
             | H : _ \/ _ |- _ => destruct H
             | H : False |- _ => destruct H
             end; subst c; reflexivity.
Qed.

(** ** Picking *)

Section PickingProperties.

Variable unproject : Vector3.t -> Camera -> Vector3.t.
Variable project : Vector3.t -> Camera -> Vector3.t.
Variable transformDirection : Vector3.t -> Matrix4 -> Vector3.t.
Variable localToWorld : Viewport -> Vector3.t -> Vector3.t.
Variable intersetMesh : Ray -> Mesh -> Octree -> list Intersection.
Variable intersectObjects : Ray -> list nat -> list Intersection.
Variable intersectObject : Ray -> nat -> list Intersection.

Let pick := getIntersects unproject transformDirection intersetMesh
                          intersectObjects intersectObject.
Let pick_ray := picking_ray unproject transformDirection.
Let visible := lmViewVisible unproject project transformDirection localToWorld
                             intersetMesh intersectObjects intersectObject.

Lemma getIntersects_sets_ray x y object st :
  is_empty_target object = false ->
  exists hits,
    pick x y object st = (Normal hits, set_ray (pick_ray st x y) st).
Proof.
  intros He. unfold pick, getIntersects. rewrite He.
  unfold bind, modify, get, ret. cbv beta iota.
  destruct (is_active_mesh _ object) as [m|];
    [destruct (octree _) as [o|]|];
    try (eexists; reflexivity);
    destruct object; try discriminate He; eexists; reflexivity.
Qed.

(** C9.  With a [null] target or an empty array, [getIntersects] returns
    the empty list without throwing, and leaves the viewport, its ray
    included, as it was. *)
Theorem getIntersects_empty_target (x y : JS.number) (st : Viewport) :
  pick x y target_null st = (Normal [], st)
  /\ pick x y (target_array []) st = (Normal [], st).
Proof. split; reflexivity. Qed.

(** C10.  For a landmark view without a symbol, [lmViewVisible] returns
    [false] without throwing, and leaves the viewport, its ray included, as
    it was: no ray is cast. *)
Theorem lmViewVisible_without_symbol (st : Viewport) :
  visible {| symbol := None |} st = (Normal false, st).
Proof. reflexivity. Qed.

(** C7, as the code has it.  For a target that is neither [null] nor
    empty, [getIntersects] stores a ray built from the active camera and
    from the device coordinates of the screen point, (x / width) * 2 - 1
    and -(y / height) * 2 + 1, each stored as 0 when it comes out as NaN.
    With the perspective camera the origin is the camera position and the
    direction is the normalised difference between the point unprojected
    at depth 0.5 and that position.  Otherwise the origin is the point
    unprojected at depth -1 and the direction is (0,0,-1) transformed by
    the camera's world matrix; two screen points then give the same
    direction, and different origins exactly when their unprojections
    differ, which for an injective [unproject] is exactly when their
    device coordinates differ. *)
Theorem getIntersects_ray (x y : JS.number) (object : Target) (st : Viewport) :
  is_empty_target object = false ->
  let camera := camera_at st (s_camera st) in
  let nx := JS.logical_or ((x / width st) * 2 - 1) 0 in
  let ny := JS.logical_or (- (y / height st) * 2 + 1) 0 in
  let r := ray (snd (pick x y object st)) in
  (s_camera st = s_pCam_ref ->
   origin r = cam_position camera
   /\ direction r
      = Vector3.normalize
          (Vector3.sub (unproject (vec3 nx ny 0.5) camera)
                       (cam_position camera)))
  /\ (s_camera st <> s_pCam_ref ->
      origin r = unproject (vec3 nx ny (-1)) camera
      /\ direction r = transformDirection (vec3 0 0 (-1)) (matrixWorld camera)
      /\ forall x' y' object',
           is_empty_target object' = false ->
           let nx' := JS.logical_or ((x' / width st) * 2 - 1) 0 in
           let ny' := JS.logical_or (- (y' / height st) * 2 + 1) 0 in
           let r' := ray (snd (pick x' y' object' st)) in
           direction r' = direction r
           /\ (origin r' <> origin r <->
               unproject (vec3 nx' ny' (-1)) camera
               <> unproject (vec3 nx ny (-1)) camera)
           /\ ((forall a b, unproject a camera = unproject b camera -> a = b) ->
               (origin r' <> origin r <-> (nx', ny') <> (nx, ny)))).
Proof.
  intros He camera nx ny r.
  destruct (getIntersects_sets_ray x y object st He) as [hits Hrun].
  subst r. rewrite Hrun. cbn [snd ray set_ray].
  unfold pick_ray, picking_ray, screen_vector, Vector3.create, Vector3.setZ.
  cbn [Vector3.x Vector3.y]. fold camera. fold nx. fold ny. split.
  - intros Hc. rewrite Hc. split; reflexivity.
  - intros Hc.
    assert (Hb : CameraRef_eqb (s_camera st) s_pCam_ref = false)
      by (destruct (s_camera st); try reflexivity; congruence).
    rewrite Hb. split; [reflexivity|]. split; [reflexivity|].
    intros x' y' object' He'.
    set (nx' := JS.logical_or ((x' / width st) * 2 - 1) 0).
    set (ny' := JS.logical_or (- (y' / height st) * 2 + 1) 0).
    destruct (getIntersects_sets_ray x' y' object' st He') as [hits' Hrun'].
    rewrite Hrun'. cbn [snd ray set_ray].
    unfold pick_ray, picking_ray, screen_vector, Vector3.create, Vector3.setZ.
    cbn [Vector3.x Vector3.y]. fold camera. fold nx'. fold ny'. rewrite Hb.
    split; [reflexivity|]. cbn [origin]. split; [reflexivity|].
    intros Hinj. split.
    + intros Hne Heq. apply Hne. injection Heq as -> ->. reflexivity.
    + intros Hne Heq. apply Hne. apply Hinj in Heq.
      unfold vec3 in Heq. injection Heq as -> ->. reflexivity.
Qed.

End PickingProperties.

(** ** The order of JavaScript numbers *)

Lemma digits2_pos_bound m : (Zpos m < 2 ^ Zpos (digits2_pos m))%Z.
Proof.
  induction m as [p IH | p IH |]; simpl digits2_pos.
  - rewrite Pos2Z.inj_succ, Z.pow_succ_r by lia. lia.
  - rewrite Pos2Z.inj_succ, Z.pow_succ_r by lia. lia.
  - reflexivity.
Qed.

Lemma valid_finite_bounds s m e :
  valid_binary (S754_finite s m e) = true ->
  (-1074 <= e <= 971 /\ 0 < Zpos m < P53)%Z.
Proof.
  unfold valid_binary, bounded, canonical_mantissa, fexp, SpecFloat.emin.
  intros H. apply andb_true_iff in H. destruct H as [Hc He].
  apply Z.eqb_eq in Hc. apply Z.leb_le in He.
  change (3 - emax - prec)%Z with (-1074)%Z in Hc.
  change (emax - prec)%Z with 971%Z in He.
  change prec with 53%Z in Hc.
  assert (Hd : (Zpos (digits2_pos m) <= 53)%Z) by lia.
  assert (Hp : (2 ^ Zpos (digits2_pos m) <= 2 ^ 53)%Z)
    by (apply Z.pow_le_mono_r; lia).
  pose proof (digits2_pos_bound m) as Hm.
  change (2 ^ 53)%Z with P53 in Hp. lia.
Qed.

Lemma finite_key_lex m1 e1 m2 e2 :
  (0 < Zpos m1 < P53)%Z -> (0 < Zpos m2 < P53)%Z -> (e1 < e2)%Z ->
  (finite_key m1 e1 < finite_key m2 e2)%Z.
Proof.
  unfold finite_key. intros H1 H2 He.
  assert (0 <= (e2 - e1 - 1) * P53)%Z by (apply Z.mul_nonneg_nonneg; lia).
  lia.
Qed.

Lemma finite_key_range s m e :
  valid_binary (S754_finite s m e) = true ->
  (1 < finite_key m e < 4096 * P53)%Z.
Proof.
  intros H. apply valid_finite_bounds in H. destruct H as [He Hm].
  unfold finite_key.
  assert (0 <= (e + 1074) * P53)%Z by (apply Z.mul_nonneg_nonneg; lia).
  assert (0 <= (971 - e) * P53)%Z by (apply Z.mul_nonneg_nonneg; lia).
  lia.
Qed.

Lemma P53_pos : (0 < P53)%Z.
Proof. reflexivity. Qed.

Lemma SFcompare_key0 x y :
  SFnumeric x -> SFnumeric y ->
  SFcompare x y = Some (SFkey0 x ?= SFkey0 y)%Z.
Proof.
  intros [Vx Nx] [Vy Ny]. pose proof P53_pos as HP.
  destruct x as [sx | sx | | sx mx ex]; try congruence;
    destruct y as [sy | sy | | sy my ey]; try congruence;
    try (pose proof (valid_finite_bounds _ _ _ Vx) as [_ Bx];
         apply finite_key_range in Vx);
    try (pose proof (valid_finite_bounds _ _ _ Vy) as [_ By];
         apply finite_key_range in Vy);
    clear Nx Ny;
    unfold SFcompare, SFkey0, SFkey;
    try destruct sx; try destruct sy; try reflexivity;
    try (f_equal; symmetry;
         first [ apply Z.compare_lt_iff; lia
               | apply Z.compare_gt_iff; lia ]).
  - (* both negative *)
    f_equal. destruct (Z.compare_spec ex ey) as [He | He | He].
    + subst ey. rewrite Pos.compare_cont_spec. simpl.
      destruct (Pos.compare_spec mx my) as [Hm | Hm | Hm]; simpl; symmetry.
      * subst. apply Z.compare_refl.
      * apply Z.compare_gt_iff. unfold finite_key. lia.
      * apply Z.compare_lt_iff. unfold finite_key. lia.
    + symmetry. apply Z.compare_gt_iff.
      pose proof (finite_key_lex mx ex my ey Bx By He). lia.
    + symmetry. apply Z.compare_lt_iff.
      pose proof (finite_key_lex my ey mx ex By Bx He). lia.
  - (* both positive *)
    f_equal. destruct (Z.compare_spec ex ey) as [He | He | He].
    + subst ey. rewrite Pos.compare_cont_spec. simpl.
      destruct (Pos.compare_spec mx my) as [Hm | Hm | Hm]; simpl; symmetry.
      * subst. apply Z.compare_refl.
      * apply Z.compare_lt_iff. unfold finite_key. lia.
      * apply Z.compare_gt_iff. unfold finite_key. lia.
    + symmetry. apply Z.compare_lt_iff.
      apply (finite_key_lex mx ex my ey Bx By He).
    + symmetry. apply Z.compare_gt_iff.
      apply (finite_key_lex my ey mx ex By Bx He).
Qed.

Lemma finite_key_inj m1 e1 m2 e2 :
  (0 < Zpos m1 < P53)%Z -> (0 < Zpos m2 < P53)%Z ->
  finite_key m1 e1 = finite_key m2 e2 -> m1 = m2 /\ e1 = e2.
Proof.
  intros H1 H2 H.
  destruct (Z.lt_trichotomy e1 e2) as [He | [He | He]].
  - pose proof (finite_key_lex m1 e1 m2 e2 H1 H2 He). lia.
  - subst e2. unfold finite_key in H. split; [lia | reflexivity].
  - pose proof (finite_key_lex m2 e2 m1 e1 H2 H1 He). lia.
Qed.

Lemma SFkey_inj x y :
  SFnumeric x -> SFnumeric y -> SFkey x = SFkey y -> x = y.
Proof.
  intros [Vx Nx] [Vy Ny]. pose proof P53_pos as HP.
  destruct x as [sx | sx | | sx mx ex]; try congruence;
    destruct y as [sy | sy | | sy my ey]; try congruence;
    try (pose proof (valid_finite_bounds _ _ _ Vx) as [_ Bx];
         apply finite_key_range in Vx);
    try (pose proof (valid_finite_bounds _ _ _ Vy) as [_ By];
         apply finite_key_range in Vy);
    clear Nx Ny;
    unfold SFkey; try destruct sx; try destruct sy;
    intros H; try reflexivity; try lia.
  - destruct (finite_key_inj mx ex my ey Bx By); [lia | congruence].
  - destruct (finite_key_inj mx ex my ey Bx By); [lia | congruence].
Qed.

Lemma SFcompare_refl x : SFnumeric x -> SFcompare x x = Some Eq.
Proof.
  intros H. rewrite (SFcompare_key0 x x H H), Z.compare_refl. reflexivity.
Qed.

Lemma isNaN_true a : JS.isNaN a = true <-> Prim2SF a = S754_nan.
Proof.
  unfold JS.isNaN. rewrite eqb_spec. unfold SFeqb. split.
  - intros H. destruct (Prim2SF a) eqn:E; try reflexivity;
      rewrite SFcompare_refl in H; try discriminate H;
      (split; [rewrite <- E; apply Prim2SF_valid | discriminate]).
  - intros ->. reflexivity.
Qed.

Lemma isNaN_false a : JS.isNaN a = false -> SFnumeric (Prim2SF a).
Proof.
  intros H. split; [apply Prim2SF_valid|].
  intros E. apply isNaN_true in E. congruence.
Qed.

Lemma isNaN_unique a b : JS.isNaN a = true -> JS.isNaN b = true -> a = b.
Proof.
  intros Ha Hb. apply Prim2SF_inj.
  apply isNaN_true in Ha. apply isNaN_true in Hb. congruence.
Qed.

Lemma ltb_key a b :
  JS.isNaN a = false -> JS.isNaN b = false ->
  PrimFloat.ltb a b = (fkey0 a <? fkey0 b)%Z.
Proof.
  intros Ha Hb. rewrite ltb_spec. unfold SFltb, fkey0.
  rewrite (SFcompare_key0 _ _ (isNaN_false a Ha) (isNaN_false b Hb)).
  unfold Z.ltb. destruct (_ ?= _)%Z; reflexivity.
Qed.

Lemma leb_key a b :
  JS.isNaN a = false -> JS.isNaN b = false ->
  PrimFloat.leb a b = (fkey0 a <=? fkey0 b)%Z.
Proof.
  intros Ha Hb. rewrite leb_spec. unfold SFleb, fkey0.
  rewrite (SFcompare_key0 _ _ (isNaN_false a Ha) (isNaN_false b Hb)).
  unfold Z.leb. destruct (_ ?= _)%Z; reflexivity.
Qed.



(** keys with and without the sign of zero *)
Lemma SFkey0_lt x y :
  SFnumeric x -> SFnumeric y ->
  (SFkey0 x < SFkey0 y)%Z -> (SFkey x < SFkey y)%Z.
Proof.
  intros [Vx Nx] [Vy Ny]. pose proof P53_pos as HP.
  destruct x as [sx | sx | | sx mx ex]; try congruence;
    destruct y as [sy | sy | | sy my ey]; try congruence;
    try apply finite_key_range in Vx; try apply finite_key_range in Vy;
    clear Nx Ny; unfold SFkey0, SFkey;
    try destruct sx; try destruct sy; lia.
Qed.

Lemma SFkey0_eq x y :
  SFnumeric x -> SFnumeric y -> SFkey0 x = SFkey0 y ->
  x = y \/ exists sx sy, x = S754_zero sx /\ y = S754_zero sy.
Proof.
  intros Hx Hy H.
  destruct x as [sx | sx | | sx mx ex]; destruct y as [sy | sy | | sy my ey];
    try (right; eexists; eexists; split; reflexivity);
    left; apply SFkey_inj; try assumption;
    destruct Hx as [Vx Nx], Hy as [Vy Ny]; try congruence;
    pose proof P53_pos as HP;
    try apply finite_key_range in Vx; try apply finite_key_range in Vy;
    clear Nx Ny; unfold SFkey0, SFkey in *;
    try destruct sx; try destruct sy; lia.
Qed.

Lemma SFkey_le_key0 x y :
  SFnumeric x -> SFnumeric y ->
  (SFkey x <= SFkey y)%Z -> (SFkey0 x <= SFkey0 y)%Z.
Proof.
  intros Hx Hy H.
  destruct (Z.le_gt_cases (SFkey0 x) (SFkey0 y)) as [Hle | Hgt];
    [exact Hle|].
  apply (SFkey0_lt y x Hy Hx) in Hgt. lia.
Qed.

Lemma SFkey_range x :
  SFnumeric x -> (- (4096 * P53) <= SFkey x <= 4096 * P53)%Z.
Proof.
  intros [Vx Nx]. pose proof P53_pos as HP.
  destruct x as [sx | sx | | sx mx ex]; try congruence;
    try apply finite_key_range in Vx; clear Nx; unfold SFkey;
    try destruct sx; lia.
Qed.

Lemma one_over_zero a s :
  Prim2SF a = S754_zero s -> Prim2SF (1 / a) = S754_infinity s.
Proof.
  intros H. rewrite div_spec, H.
  change (Prim2SF 1) with (S754_finite false 4503599627370496 (-52)).
  destruct s; reflexivity.
Qed.

Lemma ltb_irrefl a : PrimFloat.ltb a a = false.
Proof.
  rewrite ltb_spec. unfold SFltb.
  destruct (JS.isNaN a) eqn:E.
  - apply isNaN_true in E. rewrite E. reflexivity.
  - rewrite SFcompare_refl by (apply isNaN_false, E). reflexivity.
Qed.

Lemma numeric_tie a b :
  JS.isNaN a = false -> JS.isNaN b = false ->
  PrimFloat.ltb a b = false -> PrimFloat.ltb b a = false ->
  (if PrimFloat.ltb (1 / a) (1 / b) then fkey a < fkey b
   else fkey a >= fkey b)%Z
  /\ (fkey a = fkey b -> a = b).
Proof.
  intros Ha Hb Hab Hba.
  pose proof (isNaN_false a Ha) as Na. pose proof (isNaN_false b Hb) as Nb.
  rewrite (ltb_key a b Ha Hb) in Hab. rewrite (ltb_key b a Hb Ha) in Hba.
  apply Z.ltb_ge in Hab, Hba.
  assert (H0 : fkey0 a = fkey0 b) by lia.
  split.
  - destruct (SFkey0_eq _ _ Na Nb H0) as [E | [sa [sb [Ea Eb]]]].
    + apply Prim2SF_inj in E. subst b. rewrite ltb_irrefl. lia.
    + rewrite ltb_spec, (one_over_zero a sa Ea), (one_over_zero b sb Eb).
      unfold fkey. rewrite Ea, Eb. destruct sa, sb; simpl; lia.
  - intros H. apply Prim2SF_inj. apply SFkey_inj; assumption.
Qed.

Lemma Math_min_rank a b :
  JS.Math_min a b = if (rank_min a <=? rank_min b)%Z then a else b.
Proof.
  unfold JS.Math_min, rank_min. pose proof P53_pos as HP.
  destruct (JS.isNaN a) eqn:Ha.
  - destruct (JS.isNaN b) eqn:Hb.
    + rewrite Z.leb_refl. reflexivity.
    + pose proof (SFkey_range _ (isNaN_false b Hb)) as R. unfold fkey.
      destruct (Z.leb_spec (- (8192 * P53)) (SFkey (Prim2SF b))); [reflexivity | lia].
  - destruct (JS.isNaN b) eqn:Hb.
    + pose proof (SFkey_range _ (isNaN_false a Ha)) as R. unfold fkey.
      destruct (Z.leb_spec (SFkey (Prim2SF a)) (- (8192 * P53))); [lia | reflexivity].
    + pose proof (isNaN_false a Ha) as Na. pose proof (isNaN_false b Hb) as Nb.
      destruct (PrimFloat.ltb a b) eqn:Hab.
      * rewrite (ltb_key a b Ha Hb) in Hab. apply Z.ltb_lt in Hab.
        apply (SFkey0_lt _ _ Na Nb) in Hab. unfold fkey.
        destruct (Z.leb_spec (SFkey (Prim2SF a)) (SFkey (Prim2SF b))); [reflexivity | lia].
      * destruct (PrimFloat.ltb b a) eqn:Hba.
        -- rewrite (ltb_key b a Hb Ha) in Hba. apply Z.ltb_lt in Hba.
           apply (SFkey0_lt _ _ Nb Na) in Hba. unfold fkey.
           destruct (Z.leb_spec (SFkey (Prim2SF a)) (SFkey (Prim2SF b))); [lia | reflexivity].
        -- destruct (numeric_tie a b Ha Hb Hab Hba) as [T Tinj].
           destruct (PrimFloat.ltb (1 / a) (1 / b)).
           ++ destruct (Z.leb_spec (fkey a) (fkey b)); [reflexivity | lia].
           ++ destruct (Z.leb_spec (fkey a) (fkey b)); [|reflexivity].
              symmetry. apply Tinj. lia.
Qed.

Lemma Math_max_rank a b :
  JS.Math_max a b = if (rank_max a <? rank_max b)%Z then b else a.
Proof.
  unfold JS.Math_max, rank_max. pose proof P53_pos as HP.
  destruct (JS.isNaN a) eqn:Ha.
  - destruct (JS.isNaN b) eqn:Hb.
    + rewrite Z.ltb_irrefl. reflexivity.
    + pose proof (SFkey_range _ (isNaN_false b Hb)) as R. unfold fkey.
      destruct (Z.ltb_spec (8192 * P53) (SFkey (Prim2SF b))); [lia | reflexivity].
  - destruct (JS.isNaN b) eqn:Hb.
    + pose proof (SFkey_range _ (isNaN_false a Ha)) as R. unfold fkey.
      destruct (Z.ltb_spec (SFkey (Prim2SF a)) (8192 * P53)); [reflexivity | lia].
    + pose proof (isNaN_false a Ha) as Na. pose proof (isNaN_false b Hb) as Nb.
      destruct (PrimFloat.ltb a b) eqn:Hab.
      * rewrite (ltb_key a b Ha Hb) in Hab. apply Z.ltb_lt in Hab.
        apply (SFkey0_lt _ _ Na Nb) in Hab. unfold fkey.
        destruct (Z.ltb_spec (SFkey (Prim2SF a)) (SFkey (Prim2SF b))); [reflexivity | lia].
      * destruct (PrimFloat.ltb b a) eqn:Hba.
        -- rewrite (ltb_key b a Hb Ha) in Hba. apply Z.ltb_lt in Hba.
           apply (SFkey0_lt _ _ Nb Na) in Hba. unfold fkey.
           destruct (Z.ltb_spec (SFkey (Prim2SF a)) (SFkey (Prim2SF b))); [lia | reflexivity].
        -- destruct (numeric_tie a b Ha Hb Hab Hba) as [T Tinj].
           destruct (PrimFloat.ltb (1 / a) (1 / b)).
           ++ destruct (Z.ltb_spec (fkey a) (fkey b)); [reflexivity | lia].
           ++ destruct (Z.ltb_spec (fkey a) (fkey b)); [lia | reflexivity].
Qed.

Lemma rank_min_inj a b : rank_min a = rank_min b -> a = b.
Proof.
  unfold rank_min. pose proof P53_pos as HP.
  destruct (JS.isNaN a) eqn:Ha, (JS.isNaN b) eqn:Hb; intros H.
  - apply isNaN_unique; assumption.
  - pose proof (SFkey_range _ (isNaN_false b Hb)). unfold fkey in H. lia.
  - pose proof (SFkey_range _ (isNaN_false a Ha)). unfold fkey in H. lia.
  - apply Prim2SF_inj, SFkey_inj; try apply isNaN_false; assumption.
Qed.

Lemma rank_max_inj a b : rank_max a = rank_max b -> a = b.
Proof.
  unfold rank_max. pose proof P53_pos as HP.
  destruct (JS.isNaN a) eqn:Ha, (JS.isNaN b) eqn:Hb; intros H.
  - apply isNaN_unique; assumption.
  - pose proof (SFkey_range _ (isNaN_false b Hb)). unfold fkey in H. lia.
  - pose proof (SFkey_range _ (isNaN_false a Ha)). unfold fkey in H. lia.
  - apply Prim2SF_inj, SFkey_inj; try apply isNaN_false; assumption.
Qed.

Lemma Math_min_swap m p q :
  JS.Math_min (JS.Math_min m p) q = JS.Math_min (JS.Math_min m q) p.
Proof.
  rewrite !Math_min_rank.
  destruct (Z.leb_spec (rank_min m) (rank_min p));
    destruct (Z.leb_spec (rank_min m) (rank_min q));
  repeat match goal with
         | |- context [(?x <=? ?y)%Z] => destruct (Z.leb_spec x y)
         end; try reflexivity; try lia;
    apply rank_min_inj; lia.
Qed.

Lemma Math_max_swap m p q :
  JS.Math_max (JS.Math_max m p) q = JS.Math_max (JS.Math_max m q) p.
Proof.
  rewrite !Math_max_rank.
  destruct (Z.ltb_spec (rank_max m) (rank_max p));
    destruct (Z.ltb_spec (rank_max m) (rank_max q));
  repeat match goal with
         | |- context [(?x <? ?y)%Z] => destruct (Z.ltb_spec x y)
         end; try reflexivity; try lia;
    apply rank_max_inj; lia.
Qed.

(** ** The dirty box *)

Ltac clear_bools :=
  repeat match goal with H : @eq bool _ _ |- _ => clear H end.

Lemma Math_min_key0 a b :
  JS.isNaN a = false -> JS.isNaN b = false ->
  JS.isNaN (JS.Math_min a b) = false
  /\ fkey0 (JS.Math_min a b) = Z.min (fkey0 a) (fkey0 b).
Proof.
  intros Ha Hb. rewrite Math_min_rank. unfold rank_min. rewrite Ha, Hb.
  pose proof (isNaN_false a Ha) as Na. pose proof (isNaN_false b Hb) as Nb.
  destruct (Z.leb_spec (fkey a) (fkey b)) as [H | H].
  - split; [exact Ha|].
    pose proof (SFkey_le_key0 _ _ Na Nb H). unfold fkey0. lia.
  - split; [exact Hb|].
    assert (H' : (SFkey (Prim2SF b) <= SFkey (Prim2SF a))%Z)
      by (unfold fkey in H; lia).
    pose proof (SFkey_le_key0 _ _ Nb Na H'). unfold fkey0. lia.
Qed.

Lemma Math_max_key0 a b :
  JS.isNaN a = false -> JS.isNaN b = false ->
  JS.isNaN (JS.Math_max a b) = false
  /\ fkey0 (JS.Math_max a b) = Z.max (fkey0 a) (fkey0 b).
Proof.
  intros Ha Hb. rewrite Math_max_rank. unfold rank_max. rewrite Ha, Hb.
  pose proof (isNaN_false a Ha) as Na. pose proof (isNaN_false b Hb) as Nb.
  destruct (Z.ltb_spec (fkey a) (fkey b)) as [H | H].
  - split; [exact Hb|].
    assert (H' : (SFkey (Prim2SF a) <= SFkey (Prim2SF b))%Z)
      by (unfold fkey in H; lia).
    pose proof (SFkey_le_key0 _ _ Na Nb H'). unfold fkey0. lia.
  - split; [exact Ha|].
    pose proof (SFkey_le_key0 _ _ Nb Na H). unfold fkey0. lia.
Qed.

Lemma contains_key box p :
  numeric_box box -> numeric_point p ->
  key_inside box p -> contains box p = true.
Proof.
  intros (B1 & B2 & B3 & B4) (P1 & P2) ((K1 & K2) & (K3 & K4)).
  unfold contains. rewrite !leb_key by assumption.
  rewrite !andb_true_iff, !Z.leb_le. auto.
Qed.

Lemma covers_key outer inner :
  numeric_box outer -> numeric_box inner ->
  key_covers outer inner -> covers outer inner = true.
Proof.
  intros (B1 & B2 & B3 & B4) (I1 & I2 & I3 & I4) (K1 & K2 & K3 & K4).
  unfold covers. rewrite !leb_key by assumption.
  rewrite !andb_true_iff, !Z.leb_le. auto.
Qed.

Lemma expandBox_numeric box p :
  numeric_box box -> numeric_point p ->
  numeric_box (expandBox box p)
  /\ key_inside (expandBox box p) p
  /\ key_covers (expandBox box p) box.
Proof.
  intros (B1 & B2 & B3 & B4) (P1 & P2).
  destruct (Math_min_key0 _ _ B1 P1) as [N1 K1].
  destruct (Math_min_key0 _ _ B2 P2) as [N2 K2].
  destruct (Math_max_key0 _ _ B3 P1) as [N3 K3].
  destruct (Math_max_key0 _ _ B4 P2) as [N4 K4].
  unfold numeric_box, key_inside, key_covers, expandBox. simpl.
  rewrite K1, K2, K3, K4. repeat split; try assumption; clear_bools; lia.
Qed.

Lemma fold_points_numeric points : forall box,
  numeric_box box -> Forall numeric_point points ->
  numeric_box (fold_points box points)
  /\ key_covers (fold_points box points) box
  /\ forall p, In p points -> key_inside (fold_points box points) p.
Proof.
  induction points as [|q points IH]; intros box Hb Hp.
  - split; [exact Hb|].
    split; [unfold key_covers, fold_points; simpl; lia|]. intros p [].
  - inversion Hp as [|? ? Hq Hrest]; subst.
    destruct (expandBox_numeric box q Hb Hq) as (Hb' & Hin' & Hcov').
    destruct (IH (expandBox box q) Hb' Hrest) as (Hf & Hcov & Hall).
    change (fold_points box (q :: points))
      with (fold_points (expandBox box q) points).
    split; [exact Hf|]. split.
    + clear - Hcov Hcov'. unfold key_covers in *. lia.
    + intros p [<- | Hin]; [|apply Hall, Hin].
      clear - Hcov Hin'. unfold key_covers, key_inside in *. lia.
Qed.

Lemma expandBox_swap box p q :
  expandBox (expandBox box p) q = expandBox (expandBox box q) p.
Proof.
  unfold expandBox. simpl.
  rewrite (Math_min_swap (minX box)), (Math_min_swap (minY box)),
    (Math_max_swap (maxX box)), (Math_max_swap (maxY box)).
  reflexivity.
Qed.

Lemma fold_points_permutation points points' :
  Permutation points points' ->
  forall box, fold_points box points = fold_points box points'.
Proof.
  unfold fold_points.
  induction 1 as [| p l l' _ IH | p q l | l l' l'' _ IH1 _ IH2];
    intros box; simpl.
  - reflexivity.
  - apply IH.
  - rewrite expandBox_swap. reflexivity.
  - rewrite IH1. apply IH2.
Qed.

Lemma draw_points_ctxBox points : forall st,
  ctxBox (draw_points points st) = fold_points (ctxBox st) points.
Proof.
  unfold draw_points, fold_points.
  induction points as [|p points IH]; intros st; simpl.
  - reflexivity.
  - rewrite IH. reflexivity.
Qed.

(** C8, as the code has it.  Calling [updateCanvasBoundingBox] for points
    whose coordinates are not NaN, on a viewport whose dirty box has no NaN
    bound, leaves a box that contains every one of the points and reaches
    at least as far as the box it started from, each single call included;
    and for any points and any viewport, NaN or not, the final box is the
    same for every permutation of the points. *)
Theorem updateCanvasBoundingBox_fold (st : Viewport) (points : list Point) :
  numeric_box (ctxBox st) ->
  Forall numeric_point points ->
  let final := ctxBox (draw_points points st) in
  (forall p, In p points -> contains final p = true)
  /\ covers final (ctxBox st) = true
  /\ (forall p, numeric_point p ->
                covers (ctxBox (updateCanvasBoundingBox p st)) (ctxBox st)
                = true)
  /\ (forall st' points1 points2, Permutation points1 points2 ->
        ctxBox (draw_points points1 st') = ctxBox (draw_points points2 st')).
Proof.
  intros Hb Hp final. subst final. rewrite draw_points_ctxBox.
  destruct (fold_points_numeric points (ctxBox st) Hb Hp)
    as (Hf & Hcov & Hall).
  split; [|split; [|split]].
  - intros p Hin. apply contains_key; [exact Hf | | apply Hall, Hin].
    rewrite Forall_forall in Hp. apply Hp, Hin.
  - apply covers_key; assumption.
  - intros p Hq.
    destruct (expandBox_numeric (ctxBox st) p Hb Hq) as (Hb' & _ & Hc).
    apply covers_key; assumption.
  - intros st' points1 points2 Hperm. rewrite !draw_points_ctxBox.
    apply fold_points_permutation, Hperm.
Qed.

Lemma updateCanvasBoundingBox_fold_witness :
  let points := [ {| px := 10; py := 20 |}; {| px := 3.5; py := 700 |};
                  {| px := -0; py := neg_infinity |} ] in
  let final := ctxBox (draw_points points sample_viewport) in
  (forall p, In p points -> contains final p = true)
  /\ covers final (ctxBox sample_viewport) = true.
Proof.
  intros points final.
  destruct (updateCanvasBoundingBox_fold sample_viewport points)
    as (Hin & Hcov & _).
  - repeat split.
  - repeat constructor.
  - split; assumption.
Defined.

(** C8, as the specification words it, fails on NaN: once a NaN coordinate
    is folded in, the bound is NaN, no later [Math.min] recovers it, and no
    point, not even a later one with numeric coordinates, compares inside
    the box. *)
Lemma updateCanvasBoundingBox_NaN_counterexample :
  let points := [ NaN_POINT; UNIT_POINT ] in
  let final := ctxBox (draw_points points sample_viewport) in
  ctxBox sample_viewport = EMPTY_BOX
  /\ In UNIT_POINT points
  /\ contains final UNIT_POINT = false
  /\ contains final NaN_POINT = false
  /\ covers (ctxBox (updateCanvasBoundingBox NaN_POINT sample_viewport))
            (ctxBox sample_viewport) = false.
Proof. vm_compute. repeat split. right. left. reflexivity. Qed.

(** C7, as the specification words it, fails: distinct screen points need
    not give distinct origins.  With the orthographic camera on the 800 by
    600 surface, the screen points x = 0 and x = 2^-1074 have the same
    device coordinate -1, so their rays start at the same point whatever
    [unproject] is, the identity here; and a NaN coordinate gives the ray
    of the centre of the surface. *)
Lemma getIntersects_ray_same_origin_counterexample :
  let pick := getIntersects sample_unproject sample_transformDirection
                sample_intersetMesh sample_intersectObjects
                sample_intersectObject in
  let st := sample_orthographic in
  s_camera st = s_oCam_ref
  /\ (forall a b, sample_unproject a (s_oCam st) = sample_unproject b (s_oCam st)
                  -> a = b)
  /\ JS.strict_eq 0 0x1p-1074 = false
  /\ ray (snd (pick 0x1p-1074%float 0%float (target_object 7) st))
     = ray (snd (pick 0%float 0%float (target_object 7) st))
  /\ origin (ray (snd (pick 0%float 0%float (target_object 7) st))) = vec3 (-1) 1 (-1)
  /\ JS.strict_eq nan 400 = false
  /\ ray (snd (pick nan 300%float (target_object 7) st))
     = ray (snd (pick 400%float 300%float (target_object 7) st)).
Proof.
  cbv zeta. split; [reflexivity|]. split; [intros a b H; exact H|].
  vm_compute. repeat split.
Qed.

Lemma getIntersects_ray_witness :
  let pick := getIntersects sample_unproject sample_transformDirection
                sample_intersetMesh sample_intersectObjects
                sample_intersectObject in
  is_empty_target (target_object 7) = false
  /\ origin (ray (snd (pick 400%float 300%float (target_object 7) sample_viewport)))
     = cam_position (camera_at sample_viewport (s_camera sample_viewport))
  /\ origin (ray (snd (pick 200%float 150%float (target_object 7) sample_orthographic)))
     = vec3 (-0.5) 0.5 (-1)
  /\ direction (ray (snd (pick 200%float 150%float (target_object 7) sample_orthographic)))
     = vec3 0 0 (-1)
  /\ origin (ray (snd (pick 600%float 150%float (target_object 7) sample_orthographic)))
     <> origin (ray (snd (pick 200%float 150%float (target_object 7)
                               sample_orthographic))).
Proof.
  cbv zeta. split; [reflexivity|].
  destruct (getIntersects_ray sample_unproject sample_transformDirection
              sample_intersetMesh sample_intersectObjects
              sample_intersectObject 400 300 (target_object 7)
              sample_viewport eq_refl) as [Hp _].
  destruct (Hp eq_refl) as [Ho _]. split; [exact Ho|].
  assert (Hc : s_camera sample_orthographic <> s_pCam_ref)
    by (vm_compute; discriminate).
  destruct (getIntersects_ray sample_unproject sample_transformDirection
              sample_intersetMesh sample_intersectObjects
              sample_intersectObject 200 150 (target_object 7)
              sample_orthographic eq_refl) as [_ Hortho].
  destruct (Hortho Hc) as (Ho' & Hd' & Hall).
  split; [rewrite Ho'; vm_compute; reflexivity|].
  split; [rewrite Hd'; vm_compute; reflexivity|].
  destruct (Hall 600%float 150%float (target_object 7) eq_refl)
    as (_ & _ & Hinj).
  apply (Hinj (fun a b H => H)). vm_compute. discriminate.
Defined.

(** * Further properties *)

(** ** Invariants of every operation *)

Lemma set_ATOMIC_OPERATION_same st :
  set_ATOMIC_OPERATION (ATOMIC_OPERATION st) st = st.
Proof. destruct st; reflexivity. Qed.

Section OperationInvariant.

Variable P : Viewport -> Prop.

Hypothesis P_update : forall st, P st -> P (update st).
Hypothesis P_depth : forall st d, P st -> P (set_ATOMIC_OPERATION d st).
Hypothesis P_changeMesh :
  forall st payload, P st -> P (snd (changeMesh payload st)).
Hypothesis P_pointUp_body : forall st v, P st -> P (snd (pointUp_body v st)).
Hypothesis P_toggleCamera : forall st, P st -> P (toggleCamera st).

Lemma invariant_trigger em ev st : P st -> P (trigger em ev st).
Proof.
  unfold trigger. generalize (listeners st) as ls. intros ls. revert st.
  induction ls as [|l ls IH]; intros st H; simpl; [exact H|].
  apply IH. destruct (listens em ev l); [|exact H].
  destruct (l_handler l); simpl; [apply P_update, H|].
  unfold batchHandler. destruct (atomicOperationFinished st);
    [apply P_update, H | exact H].
Qed.

Lemma invariant_atomicOperation {A} (f : M A) st :
  (forall s, P s -> P (snd (f s))) ->
  P st -> P (snd (atomicOperation f st)).
Proof.
  intros Hf H. unfold atomicOperation.
  assert (H1 : P (startAtomicOperation st))
    by (apply invariant_trigger, P_depth, H).
  specialize (Hf _ H1). destruct (f (startAtomicOperation st)) as [r s2].
  cbn [snd] in *. apply invariant_trigger, P_depth, Hf.
Qed.

Lemma invariant_run_actions_of body :
  Forall (fun a => forall s, P s -> P (run_action a s)) body ->
  forall st, P st -> P (run_actions body st).
Proof.
  unfold run_actions. induction 1 as [|a body Ha _ IH]; intros st H; simpl.
  - exact H.
  - apply IH, Ha, H.
Qed.

Lemma invariant_run_action a : forall st, P st -> P (run_action a st).
Proof.
  induction a as [| c | | body IH] using Action_nested_ind; intros st H.
  - apply P_update, H.
  - destruct c; simpl.
    + apply P_changeMesh, H.
    + apply invariant_atomicOperation; [|exact H].
      intros s Hs. apply P_pointUp_body, Hs.
  - apply P_toggleCamera, H.
  - change (run_action (act_atomic body) st)
      with (snd (atomicOperation (modify (run_actions body)) st)).
    apply invariant_atomicOperation; [|exact H].
    intros s Hs. apply (invariant_run_actions_of body IH s Hs).
Qed.

Lemma invariant_run_actions body st : P st -> P (run_actions body st).
Proof.
  apply invariant_run_actions_of, Forall_forall.
  intros a _. apply invariant_run_action.
Qed.

Hypothesis P_fresh : forall env, P (fresh_viewport env).
Hypothesis P_create :
  forall st env, P st -> P (set_renderer (Some (renderer_created env)) st).
Hypothesis P_setSize :
  forall st calls w h,
    P st -> renderer st = Some calls ->
    P (set_renderer (Some (calls ++ [setSize w h])) st).
Hypothesis P_showConnectivity :
  forall st b, P st -> P (set_showConnectivity b st).
Hypothesis P_clearCanvas : forall st, P st -> P (clearCanvas st).
Hypothesis P_listen :
  forall st, P st ->
             P (listenTo e_atomic CHANGE_ATOMIC_OPERATION h_batchHandler st).

Lemma invariant_bind {A B} (c : M A) (k : A -> M B) st :
  P (snd (c st)) ->
  (forall a s, P s -> P (snd (k a s))) ->
  P (snd (bind c k st)).
Proof.
  intros Hc Hk. unfold bind. destruct (c st) as [[a|e] s]; cbn [snd] in *.
  - apply Hk, Hc.
  - exact Hc.
Qed.

Lemma invariant_initialize env : P (snd (initialize env)).
Proof.
  unfold initialize.
  apply invariant_bind.
  { destruct (env_meshMode env); cbn [snd ret modify].
    - apply P_fresh.
    - apply P_toggleCamera, P_fresh. }
  intros _ s0 H0. apply invariant_bind; [apply P_update, H0|].
  intros _ s1 H1. apply invariant_bind; [apply P_create, H1|].
  intros _ s2 H2. apply invariant_bind; [apply P_changeMesh, H2|].
  intros _ s3 H3. apply invariant_bind; [apply P_showConnectivity, H3|].
  intros _ s4 H4. apply invariant_bind.
  { apply invariant_atomicOperation; [|exact H4].
    intros s Hs. apply P_showConnectivity, Hs. }
  intros _ s5 H5. apply invariant_bind.
  { apply invariant_atomicOperation; [|exact H5].
    intros s Hs. apply P_clearCanvas, Hs. }
  intros _ s6 H6. apply invariant_bind; [apply P_listen, H6|].
  intros _ s7 H7.
  destruct (resize_cases s7) as [[_ ->]|(calls & Hr & ->)]; cbn [snd].
  - exact H7.
  - apply P_update, P_setSize; assumption.
Qed.

Lemma invariant_reachable env body : P (reachable env body).
Proof. apply invariant_run_actions, invariant_initialize. Qed.

End OperationInvariant.

(** ** What [changeMesh] does to the state *)

Lemma changeMesh_install p st calls :
  renderer st = Some calls ->
  changeMesh (Some p) st = (Normal tt, update (install_mesh p st)).
Proof.
  intros Hr. destruct st. cbn [renderer] in Hr. subst.
  unfold changeMesh, memoryString, bind, get, modify, ret, install_mesh.
  cbn [renderer]. cbv zeta.
  destruct (isBufferGeometry (geometry (payload_mesh p))); reflexivity.
Qed.

(** The three ways [changeMesh] can end. *)
Lemma changeMesh_cases payload st :
  (renderer st = None /\ changeMesh payload st = (Throw TypeError, st))
  \/ (renderer st <> None /\ payload = None
      /\ changeMesh payload st = (Normal tt, removeMeshIfPresent st))
  \/ (renderer st <> None /\ exists p,
        payload = Some p
        /\ changeMesh payload st = (Normal tt, update (install_mesh p st))).
Proof.
  destruct (renderer st) as [calls|] eqn:Hr.
  - right. destruct payload as [p|].
    + right. split; [discriminate|]. exists p. split; [reflexivity|].
      apply (changeMesh_install p st calls Hr).
    + left. split; [discriminate|]. split; [reflexivity|].
      apply (changeMesh_null st calls Hr).
  - left. split; [reflexivity|]. apply changeMesh_no_renderer, Hr.
Qed.

Lemma Mesh_eqb_refl m : Mesh_eqb m m = true.
Proof. apply Nat.eqb_refl. Qed.

Lemma removeMeshIfPresent_bookkeeping st :
  mesh_bookkeeping st ->
  mesh (removeMeshIfPresent st) = None
  /\ s_mesh (removeMeshIfPresent st) = []
  /\ octree (removeMeshIfPresent st) = None.
Proof.
  unfold mesh_bookkeeping, removeMeshIfPresent.
  destruct (mesh st) as [m|] eqn:Hm.
  - intros [Hs _]. cbn. rewrite Hs. cbn. rewrite Mesh_eqb_refl. auto.
  - intros [Hs Ho]. rewrite Hm. auto.
Qed.

Lemma install_mesh_bookkeeping p st :
  mesh_bookkeeping st -> mesh_bookkeeping (install_mesh p st).
Proof.
  intros H. destruct (removeMeshIfPresent_bookkeeping st H) as (Hm & Hs & Ho).
  unfold mesh_bookkeeping, install_mesh. cbv zeta.
  destruct (isBufferGeometry (geometry (payload_mesh p))) eqn:Hb;
    cbn; rewrite ?Hb, Hs, ?Ho; auto.
Qed.

Lemma update_bookkeeping st : mesh_bookkeeping st -> mesh_bookkeeping (update st).
Proof. destruct (update_renderer_only st) as [r ->]. exact (fun H => H). Qed.

Lemma changeMesh_bookkeeping st payload :
  mesh_bookkeeping st -> mesh_bookkeeping (snd (changeMesh payload st)).
Proof.
  intros H.
  destruct (changeMesh_cases payload st)
    as [[_ ->]|[(_ & _ & ->)|(_ & p & _ & ->)]]; cbn [snd].
  - exact H.
  - destruct (removeMeshIfPresent_bookkeeping st H) as (Hm & Hs & Ho).
    unfold mesh_bookkeeping. rewrite Hm. auto.
  - apply update_bookkeeping, install_mesh_bookkeeping, H.
Qed.

Lemma pointUp_body_state v st :
  snd (pointUp_body v st) = st
  \/ exists n axis angle, snd (pointUp_body v st) = reoriented n axis angle st.
Proof.
  destruct (pointUp_body_cases v st) as (n & _ & _ & [[_ ->]|[_ (a & g & ->)]]).
  - left. reflexivity.
  - right. exists n, a, g. reflexivity.
Qed.

Lemma toggleCamera_state st :
  exists r ls c d,
    toggleCamera st
    = set_renderer r
        (set_ctxBox EMPTY_BOX
           (set_pipCanvas_display d (set_s_camera c (set_listeners ls st)))).
Proof.
  unfold toggleCamera. cbv zeta.
  destruct (CameraRef_eqb (s_camera st) s_pCam_ref);
    match goal with
    | |- context [update ?s] => destruct (update_renderer_only s) as [r ->]
    end; do 4 eexists; reflexivity.
Qed.

Lemma mesh_bookkeeping_reachable env body :
  mesh_bookkeeping (reachable env body).
Proof.
  apply (invariant_reachable mesh_bookkeeping).
  - apply update_bookkeeping.
  - intros st d H. exact H.
  - apply changeMesh_bookkeeping.
  - intros st v H.
    destruct (pointUp_body_state v st) as [->|(n & a & g & ->)]; exact H.
  - intros st H. destruct (toggleCamera_state st) as (r & ls & c & d & ->).
    exact H.
  - intros e. split; reflexivity.
  - intros st e H. exact H.
  - intros st calls w h H _. exact H.
  - intros st b H. exact H.
  - intros st H. exact H.
  - intros st H. exact H.
Qed.

(** X1.  After construction and any sequence of render requests, mesh
    changes, reorientations, camera toggles and nested atomic operations,
    the [s_mesh] node holds exactly the active mesh (nothing when there is
    none: meshes removed are not left behind in the scene), and the octree
    is the one built from the active mesh's geometry when that is a buffer
    geometry and is absent otherwise. *)
Theorem reachable_mesh_bookkeeping (env : Environment) (body : list Action) :
  let st := reachable env body in
  match mesh st with
  | None => s_mesh st = [] /\ octree st = None
  | Some m =>
      s_mesh st = [m]
      /\ octree st = (if isBufferGeometry (geometry m)
                      then Some {| octree_of := geometry m |}
                      else None)
  end.
Proof. apply mesh_bookkeeping_reachable. Qed.

Lemma update_normalised st :
  normalised_for_mesh st -> normalised_for_mesh (update st).
Proof. destruct (update_renderer_only st) as [r ->]. exact (fun H => H). Qed.

Lemma removeMeshIfPresent_mesh st : mesh (removeMeshIfPresent st) = None.
Proof.
  unfold removeMeshIfPresent. destruct (mesh st) eqn:E; [reflexivity | exact E].
Qed.

Lemma install_mesh_normalised p st : normalised_for_mesh (install_mesh p st).
Proof.
  unfold normalised_for_mesh, install_mesh. cbv zeta.
  destruct (isBufferGeometry (geometry (payload_mesh p)));
    cbn; repeat split.
Qed.

Lemma changeMesh_normalised st payload :
  normalised_for_mesh st -> normalised_for_mesh (snd (changeMesh payload st)).
Proof.
  intros H.
  destruct (changeMesh_cases payload st)
    as [[_ ->]|[(_ & _ & ->)|(_ & p & _ & ->)]]; cbn [snd].
  - exact H.
  - unfold normalised_for_mesh. rewrite removeMeshIfPresent_mesh. exact I.
  - apply update_normalised, install_mesh_normalised.
Qed.

(** X2.  In every state reached from construction by render requests, mesh
    changes, reorientations, camera toggles and nested atomic operations,
    the transforms fit the active mesh: [meshScale] is the radius of its
    bounding sphere, both ScaleRotate nodes have the scale 1/radius on each
    axis and both Translate nodes sit at minus the sphere's centre.
    [pointUp] and [toggleCamera] do not disturb what [changeMesh] set. *)
Theorem reachable_normalised (env : Environment) (body : list Action) :
  let st := reachable env body in
  forall m, mesh st = Some m ->
    let sphere := boundingSphere (geometry m) in
    let s := (1 / radius sphere)%float in
    meshScale st = radius sphere
    /\ Object3D.scale (s_scaleRotate st) = vec3 s s s
    /\ Object3D.scale (s_h_scaleRotate st) = vec3 s s s
    /\ Object3D.position (s_translate st)
       = Vector3.multiplyScalar (center sphere) (-1)
    /\ Object3D.position (s_h_translate st)
       = Vector3.multiplyScalar (center sphere) (-1).
Proof.
  intros st m Hm.
  assert (H : normalised_for_mesh st).
  { apply (invariant_reachable normalised_for_mesh).
    - apply update_normalised.
    - intros s d H. exact H.
    - apply changeMesh_normalised.
    - intros s v H.
      destruct (pointUp_body_state v s) as [->|(n & a & g & ->)]; exact H.
    - intros s H. destruct (toggleCamera_state s) as (r & ls & c & d & ->).
      exact H.
    - intros e. exact I.
    - intros s e H. exact H.
    - intros s calls w h H _. exact H.
    - intros s b H. exact H.
    - intros s H. exact H.
    - intros s H. exact H. }
  unfold normalised_for_mesh in H. rewrite Hm in H. exact H.
Qed.

Lemma reachable_normalised_witness :
  let st := reachable sample_mesh_environment sample_session in
  mesh st = Some (payload_mesh sample_payload)
  /\ meshScale st = 2%float
  /\ Object3D.scale (s_scaleRotate st) = vec3 0.5 0.5 0.5.
Proof.
  assert (Hm : mesh (reachable sample_mesh_environment sample_session)
               = Some (payload_mesh sample_payload))
    by (vm_compute; reflexivity).
  destruct (reachable_normalised sample_mesh_environment sample_session
              _ Hm) as (H1 & H2 & _).
  split; [exact Hm|]. split; [exact H1 | exact H2].
Defined.

(** ** Reorientation against mesh changes *)

Lemma has_renderer_run_actions body st :
  has_renderer st -> has_renderer (run_actions body st).
Proof.
  apply (invariant_run_actions has_renderer).
  - intros s. apply update_wiring.
  - intros s d H. exact H.
  - intros s payload H. apply changeMesh_wiring, H.
  - intros s v H.
    destruct (pointUp_body_state v s) as [->|(n & a & g & ->)]; exact H.
  - intros s H. unfold toggleCamera. cbv zeta. apply update_wiring.
    destruct (CameraRef_eqb (s_camera s) s_pCam_ref); exact H.
Qed.

Lemma has_renderer_reachable env body : has_renderer (reachable env body).
Proof. apply has_renderer_run_actions, initialize_wired. Qed.

Lemma scene_invariant_reachable env body : scene_invariant (reachable env body).
Proof.
  apply (invariant_run_actions scene_invariant); [| | | | |apply initialize_invariant].
  - intros s. apply scene_invariant_scene, update_scene.
  - intros s d H. exact H.
  - intros s payload. apply changeMesh_invariant.
  - intros s v [[H1 H2] H3].
    destruct (pointUp_body_cases v s)
      as (n & _ & Hn & [[_ ->]|[_ (a & g & ->)]]); cbn [snd].
    + split; [split|]; assumption.
    + split; [split|].
      * unfold reoriented; cbn. rewrite H1. reflexivity.
      * exact H2.
      * exact Hn.
  - intros s. apply scene_invariant_scene, toggleCamera_scene.
Qed.

Lemma pointUp_scene v st :
  canonical_up st ->
  exists n,
    mainDirection (Vector3.normalize v) = Some n
    /\ fst (pointUp v st) = Normal tt
    /\ _upVector (snd (pointUp v st)) = n
    /\ (n = _upVector st -> scene_of (snd (pointUp v st)) = scene_of st)
    /\ Object3D.position (s_scaleRotate (snd (pointUp v st)))
       = Object3D.position (s_scaleRotate st)
    /\ Object3D.position (s_h_scaleRotate (snd (pointUp v st)))
       = Object3D.position (s_h_scaleRotate st)
    /\ s_translate (snd (pointUp v st)) = s_translate st
    /\ s_h_translate (snd (pointUp v st)) = s_h_translate st.
Proof.
  intros Hc. unfold pointUp, atomicOperation.
  pose proof (startAtomicOperation_scene st) as Hs. scene_fields Hs.
  destruct (pointUp_body_cases v (startAtomicOperation st))
    as (n & Hn & Hin & [[Hsame Hb]|[Hdiff (a & g & Hb)]]);
    exists n; rewrite Hb; cbn [fst snd];
    match goal with
    | |- context [endAtomicOperation ?s] =>
        pose proof (endAtomicOperation_scene s) as He; scene_fields He
    end.
  - assert (Hup : n = _upVector st).
    { apply COORDS_identity; [exact Hin | exact Hc |].
      rewrite <- H. exact Hsame. }
    repeat split; try congruence.
    intros _. rewrite endAtomicOperation_scene. apply startAtomicOperation_scene.
  - split; [exact Hn|]. split; [reflexivity|]. split; [exact H4|]. split.
    { intros E. subst n. rewrite <- H in Hdiff.
      rewrite same_object_refl in Hdiff. discriminate Hdiff. }
    rewrite H5, H6, H7, H8, H0, H1, H2, H3. repeat split.
Qed.

Lemma normalised_position p o o' :
  Object3D.position o = Object3D.position o' -> normalised p o = normalised p o'.
Proof.
  intros H. unfold normalised, Object3D.lookAt, Object3D.set_up,
    Object3D.set_scale. cbn. rewrite H. reflexivity.
Qed.

Lemma changeMesh_scene p st :
  has_renderer st ->
  let st' := snd (changeMesh (Some p) st) in
  _upVector st' = _upVector st
  /\ s_scaleRotate st' = normalised p (s_scaleRotate st)
  /\ s_h_scaleRotate st' = normalised p (s_h_scaleRotate st)
  /\ has_renderer st'.
Proof.
  intros Hr. pose proof (changeMesh_wiring (Some p) st Hr) as [_ Hr'].
  unfold has_renderer in Hr.
  destruct (renderer st) as [calls|] eqn:E; [|contradiction].
  destruct (changeMesh_payload p st calls E)
    as (st0 & Hc & Hsr & Hhsr & _ & _ & Hup & _).
  cbv zeta. rewrite Hc in *. cbn [snd] in *.
  pose proof (update_scene st0) as Hs. scene_fields Hs.
  repeat split; congruence.
Qed.

(** X3.  [changeMesh] overwrites the orientation of the ScaleRotate nodes
    with the payload's look-at orientation but leaves [_upVector] as it
    was.  So in any reachable state, [pointUp v], a mesh change, and
    [pointUp v] again leave the nodes exactly as the mesh change alone
    would: the first rotation is overwritten, the second [pointUp] returns
    at its identity test without rotating, and [_upVector] nevertheless
    is the main direction of [v]. *)
Theorem changeMesh_keeps_upVector_resets_orientation
    (env : Environment) (body : list Action) (v : Vector3.t)
    (p : MeshPayload) :
  let st := reachable env body in
  let st1 := snd (pointUp v st) in
  let st2 := snd (changeMesh (Some p) st1) in
  let st3 := snd (pointUp v st2) in
  let direct := snd (changeMesh (Some p) st) in
  fst (pointUp v st2) = Normal tt
  /\ mainDirection (Vector3.normalize v) = Some (_upVector st3)
  /\ _upVector direct = _upVector st
  /\ s_scaleRotate st3 = s_scaleRotate direct
  /\ s_h_scaleRotate st3 = s_h_scaleRotate direct
  /\ Object3D.quaternion (s_scaleRotate st3)
     = Q_lookAt (payload_front p) (Object3D.position (s_scaleRotate st))
                (payload_up p).
Proof.
  intros st st1 st2 st3 direct.
  pose proof (has_renderer_reachable env body) as Hr. fold st in Hr.
  destruct (scene_invariant_reachable env body) as [_ Hc]. fold st in Hc.
  destruct (pointUp_scene v st Hc)
    as (n & Hn & _ & Hup1 & _ & Hp1 & Hhp1 & _ & _).
  fold st1 in Hup1, Hp1, Hhp1.
  assert (Hr1 : has_renderer st1) by apply (pointUp_has_renderer v st Hr).
  destruct (changeMesh_scene p st1 Hr1) as (Hup2 & Hsr2 & Hhsr2 & Hr2).
  fold st2 in Hup2, Hsr2, Hhsr2, Hr2.
  destruct (changeMesh_scene p st Hr) as (Hupd & Hsrd & Hhsrd & _).
  fold direct in Hupd, Hsrd, Hhsrd.
  assert (Hc2 : canonical_up st2).
  { unfold canonical_up. rewrite Hup2, Hup1.
    destruct (mainDirection_canonical (Vector3.normalize v)) as (c & Hc' & Hin).
    rewrite Hn in Hc'. injection Hc' as <-. exact Hin. }
  destruct (pointUp_scene v st2 Hc2)
    as (n' & Hn' & Hok & Hup3 & Hsame & _).
  rewrite Hn in Hn'. injection Hn' as <-.
  fold st3 in Hup3, Hsame.
  assert (Hsc : scene_of st3 = scene_of st2)
    by (apply Hsame; rewrite Hup2, Hup1; reflexivity).
  scene_fields Hsc.
  split; [exact Hok|]. split; [rewrite Hup3; exact Hn|].
  split; [exact Hupd|].
  rewrite H0, H2, Hsr2, Hhsr2, Hsrd, Hhsrd.
  rewrite (normalised_position p _ _ Hp1), (normalised_position p _ _ Hhp1).
  repeat split.
Qed.

(** X4.  [changeMesh] throws exactly when the renderer is undefined, which
    [memoryString] reads first; it then throws a TypeError before anything
    is removed, leaving the viewport as it was.  With a renderer it
    returns: for a [null] payload the state is that of
    [removeMeshIfPresent], with no frame rendered; for a payload a frame is
    requested on the state with the mesh installed. *)
Theorem changeMesh_throws_iff_no_renderer (payload : option MeshPayload)
    (st : Viewport) :
  (renderer st = None <-> exists e, fst (changeMesh payload st) = Throw e)
  /\ (renderer st = None -> changeMesh payload st = (Throw TypeError, st))
  /\ (renderer st <> None ->
      match payload with
      | None =>
          changeMesh payload st = (Normal tt, removeMeshIfPresent st)
          /\ renderer (removeMeshIfPresent st) = renderer st
      | Some p =>
          changeMesh payload st = (Normal tt, update (install_mesh p st))
          /\ mesh (snd (changeMesh payload st)) = Some (payload_mesh p)
      end).
Proof.
  destruct (changeMesh_cases payload st)
    as [[Hr Hc]|[(Hr & -> & Hc)|(Hr & p & -> & Hc)]].
  - split; [|split].
    + split; [intros _; exists TypeError; rewrite Hc; reflexivity|].
      intros _. exact Hr.
    + intros _. exact Hc.
    + intros H. contradiction.
  - split; [|split].
    + split; [intros H; contradiction|].
      intros [e He]. rewrite Hc in He. discriminate He.
    + intros H. contradiction.
    + intros _. split; [exact Hc|].
      unfold removeMeshIfPresent. destruct (mesh st); reflexivity.
  - split; [|split].
    + split; [intros H; contradiction|].
      intros [e He]. rewrite Hc in He. discriminate He.
    + intros H. contradiction.
    + intros _. split; [exact Hc|]. rewrite Hc. cbn [snd].
      destruct (update_renderer_only (install_mesh p st)) as [r ->].
      unfold install_mesh. cbv zeta.
      destruct (isBufferGeometry (geometry (payload_mesh p))); reflexivity.
Qed.

(** ** [mainDirection] picks the nearest axis *)

Lemma ltb_true_numeric a b :
  PrimFloat.ltb a b = true -> JS.isNaN a = false /\ JS.isNaN b = false.
Proof.
  rewrite ltb_spec. unfold SFltb. intros H.
  destruct (JS.isNaN a) eqn:Ha.
  { apply isNaN_true in Ha. rewrite Ha in H. discriminate H. }
  destruct (JS.isNaN b) eqn:Hb.
  { apply isNaN_true in Hb. rewrite Hb in H.
    destruct (Prim2SF a); discriminate H. }
  split; reflexivity.
Qed.

Lemma ltb_NaN_l a b : JS.isNaN a = true -> PrimFloat.ltb a b = false.
Proof.
  intros Ha. destruct (PrimFloat.ltb a b) eqn:E; [|reflexivity].
  apply ltb_true_numeric in E. destruct E as [E _]. congruence.
Qed.

Lemma ltb_NaN_r a b : JS.isNaN b = true -> PrimFloat.ltb a b = false.
Proof.
  intros Hb. destruct (PrimFloat.ltb a b) eqn:E; [|reflexivity].
  apply ltb_true_numeric in E. destruct E as [_ E]. congruence.
Qed.

(** What is not below a bound is not below anything below the bound. *)
Lemma ltb_not_below c d dist :
  PrimFloat.ltb d dist = true -> PrimFloat.ltb c dist = false ->
  PrimFloat.ltb c d = false.
Proof.
  intros Hd Hc. destruct (ltb_true_numeric _ _ Hd) as [Nd Ndist].
  destruct (JS.isNaN c) eqn:Nc; [apply ltb_NaN_l, Nc|].
  rewrite ltb_key in * by assumption.
  apply Z.ltb_lt in Hd. apply Z.ltb_ge in Hc. apply Z.ltb_ge. lia.
Qed.

Lemma ltb_trans a b c :
  PrimFloat.ltb a b = true -> PrimFloat.ltb b c = true ->
  PrimFloat.ltb a c = true.
Proof.
  intros H1 H2. destruct (ltb_true_numeric _ _ H1) as [Na Nb].
  destruct (ltb_true_numeric _ _ H2) as [_ Nc].
  rewrite ltb_key in * by assumption.
  apply Z.ltb_lt in H1, H2. apply Z.ltb_lt. lia.
Qed.

Lemma ltb_asym a b : PrimFloat.ltb a b = true -> PrimFloat.ltb b a = false.
Proof.
  intros H. destruct (ltb_true_numeric _ _ H) as [Na Nb].
  rewrite ltb_key in * by assumption.
  apply Z.ltb_lt in H. apply Z.ltb_ge. lia.
Qed.

(** Below a value that something else is not below: strictly below that
    something, unless it is NaN. *)
Lemma ltb_below_other c d dist :
  PrimFloat.ltb d dist = true -> PrimFloat.ltb c dist = false ->
  PrimFloat.ltb d c = true \/ JS.isNaN c = true.
Proof.
  intros Hd Hc. destruct (ltb_true_numeric _ _ Hd) as [Nd Ndist].
  destruct (JS.isNaN c) eqn:Nc; [right; reflexivity | left].
  rewrite ltb_key in * by assumption.
  apply Z.ltb_lt in Hd. apply Z.ltb_ge in Hc. apply Z.ltb_lt. lia.
Qed.

Section MainDirection.

Variable v : Vector3.t.

Let d (c : VectorObj) : JS.number := Vector3.distanceTo v (vec c).

(** [c] comes before the running choice [r] and lost to it. *)
Let farther (r c : VectorObj) : Prop :=
  PrimFloat.ltb (d r) (d c) = true \/ JS.isNaN (d c) = true.

Lemma mainDirection_step_some dist r c :
  mainDirection_step v (dist, Some r) c
  = if PrimFloat.ltb (d c) dist then (d c, Some c) else (dist, Some r).
Proof.
  unfold mainDirection_step, d. rewrite orb_false_r. reflexivity.
Qed.

Lemma mainDirection_fold_nearest cs : forall before r mid,
  (forall c, In c before -> farther r c) ->
  (forall c, In c mid -> PrimFloat.ltb (d c) (d r) = false) ->
  exists before' r' after',
    before ++ r :: mid ++ cs = before' ++ r' :: after'
    /\ fold_left (mainDirection_step v) cs (d r, Some r) = (d r', Some r')
    /\ (forall c, In c before' -> farther r' c)
    /\ (forall c, In c after' -> PrimFloat.ltb (d c) (d r') = false).
Proof.
  induction cs as [|c cs IH]; intros before r mid Hb Hm.
  - exists before, r, mid. rewrite app_nil_r. auto.
  - cbn [fold_left]. rewrite mainDirection_step_some.
    destruct (PrimFloat.ltb (d c) (d r)) eqn:E.
    + destruct (IH (before ++ r :: mid) c [])
        as (b' & r' & a' & Heq & Hf & Hb' & Ha').
      * intros c' Hin. apply in_app_or in Hin.
        destruct Hin as [Hin|[<-|Hin]].
        -- destruct (Hb c' Hin) as [H|H]; [left | right; exact H].
           apply (ltb_trans _ _ _ E H).
        -- left. exact E.
        -- apply (ltb_below_other _ _ _ E (Hm c' Hin)).
      * intros c' [].
      * exists b', r', a'. split; [|auto].
        rewrite <- Heq. cbn [app]. rewrite <- app_assoc. reflexivity.
    + destruct (IH before r (mid ++ [c]))
        as (b' & r' & a' & Heq & Hf & Hb' & Ha').
      * exact Hb.
      * intros c' Hin. apply in_app_or in Hin.
        destruct Hin as [Hin|[<-|[]]]; [apply Hm, Hin | exact E].
      * exists b', r', a'. split; [|auto].
        rewrite <- Heq, <- app_assoc. reflexivity.
Qed.

Lemma mainDirection_fold_NaN cs : forall dist r,
  JS.isNaN dist = true ->
  fold_left (mainDirection_step v) cs (dist, Some r) = (dist, Some r).
Proof.
  induction cs as [|c cs IH]; intros dist r Hn; [reflexivity|].
  cbn [fold_left]. rewrite mainDirection_step_some.
  rewrite (ltb_NaN_r _ _ Hn). apply IH, Hn.
Qed.

(** X5.  [mainDirection] returns the element of [COORDS] nearest the
    vector, the first one when several are at the same distance: no axis
    is strictly nearer than the one returned, and every axis listed before
    it is strictly farther (or at a NaN distance).  When the distance to
    the first axis is NaN, as for a vector with a NaN component, no later
    comparison succeeds and the first axis, +X, is returned. *)
Theorem mainDirection_nearest_first :
  exists before r after,
    COORDS = before ++ r :: after
    /\ mainDirection v = Some r
    /\ (forall c, In c COORDS ->
          PrimFloat.ltb (Vector3.distanceTo v (vec c))
                        (Vector3.distanceTo v (vec r)) = false)
    /\ (forall c, In c before ->
          PrimFloat.ltb (Vector3.distanceTo v (vec r))
                        (Vector3.distanceTo v (vec c)) = true
          \/ JS.isNaN (Vector3.distanceTo v (vec c)) = true)
    /\ (JS.isNaN (Vector3.distanceTo v (vec3 1 0 0)) = true ->
        mainDirection v = COORDS_at 0).
Proof.
  set (c0 := {| addr := 0%nat; vec := vec3 1 0 0 |}).
  set (rest := tl COORDS).
  assert (Hstep : mainDirection v
                  = snd (fold_left (mainDirection_step v) rest (d c0, Some c0))).
  { unfold mainDirection, COORDS. cbn [fold_left tl].
    unfold mainDirection_step at 6. rewrite orb_true_r. reflexivity. }
  destruct (mainDirection_fold_nearest rest [] c0 [])
    as (b & r & a & Heq & Hf & Hb & Ha); [intros c [] | intros c [] |].
  exists b, r, a. split; [exact Heq|].
  split; [rewrite Hstep, Hf; reflexivity|].
  split; [|split].
  - intros c Hin. change COORDS with ([] ++ c0 :: [] ++ rest) in Hin.
    rewrite Heq in Hin. apply in_app_or in Hin.
    destruct Hin as [Hin|[<-|Hin]].
    + destruct (Hb c Hin) as [H|H]; [apply ltb_asym, H | apply ltb_NaN_l, H].
    + apply ltb_irrefl.
    + apply Ha, Hin.
  - exact Hb.
  - intros Hn. rewrite Hstep.
    rewrite (mainDirection_fold_NaN rest (d c0) c0 Hn). reflexivity.
Qed.

End MainDirection.

(** ** Reorienting there and back *)

Lemma COORDS_sum_comm a b :
  In a COORDS -> In b COORDS ->
  Vector3.addVectors (vec a) (vec b) = Vector3.addVectors (vec b) (vec a).
Proof.
  unfold COORDS; simpl; intros Ha Hb.
  repeat match goal with
         | H : _ \/ _ |- _ => destruct H
         | H : False |- _ => destruct H
         end; subst; vm_compute; reflexivity.
Qed.

Lemma same_object_sym a b : same_object a b = same_object b a.
Proof. apply Nat.eqb_sym. Qed.

(** X6.  [pointUp] computes its rotation from the sum of the old and the
    new up vector, which is the same in both directions.  So from a
    canonical up vector, reorienting towards another axis and then back
    returns [_upVector] to where it was but multiplies the orientation of
    the ScaleRotate nodes twice by one and the same axis-angle rotation
    (a quarter turn of either sign, or minus pi), not by a rotation and its
    inverse. *)
Theorem pointUp_there_and_back (st : Viewport) (v w : Vector3.t)
    (n : VectorObj) :
  In (_upVector st) COORDS ->
  mainDirection (Vector3.normalize v) = Some n ->
  same_object n (_upVector st) = false ->
  mainDirection (Vector3.normalize w) = Some (_upVector st) ->
  let st1 := snd (pointUp v st) in
  let st2 := snd (pointUp w st1) in
  exists axis angle,
    fst (pointUp v st) = Normal tt
    /\ fst (pointUp w st1) = Normal tt
    /\ _upVector st1 = n
    /\ _upVector st2 = _upVector st
    /\ s_scaleRotate st1
       = Object3D.rotateOnAxis (s_scaleRotate st) axis angle
    /\ s_scaleRotate st2
       = Object3D.rotateOnAxis
           (Object3D.rotateOnAxis (s_scaleRotate st) axis angle) axis angle
    /\ s_h_scaleRotate st2
       = Object3D.rotateOnAxis
           (Object3D.rotateOnAxis (s_h_scaleRotate st) axis angle) axis angle
    /\ Object3D.quaternion (s_scaleRotate st2)
       = Q_multiply
           (Q_multiply (Object3D.quaternion (s_scaleRotate st))
                       (Q_axisAngle axis angle))
           (Q_axisAngle axis angle)
    /\ (angle = (1 * JS.Math_PI / 2)%float
        \/ angle = (-1 * JS.Math_PI / 2)%float
        \/ angle = (-1 * JS.Math_PI)%float).
Proof.
  intros Hup Hn Hdiff Hw st1 st2.
  assert (Hin : In n COORDS).
  { destruct (mainDirection_canonical (Vector3.normalize v)) as (c & Hc & Hin).
    rewrite Hn in Hc. injection Hc as <-. exact Hin. }
  destruct (pointUp_rotation v st n Hup Hn Hdiff)
    as (axis & Hax & Hsign & s1 & Hrun & Hup1 & Hsr1 & Hhsr1).
  subst st1 st2. rewrite Hrun. cbn [fst snd].
  assert (Hup1' : In (_upVector s1) COORDS) by (rewrite Hup1; exact Hin).
  assert (Hdiff' : same_object (_upVector st) (_upVector s1) = false)
    by (rewrite Hup1, same_object_sym; exact Hdiff).
  destruct (pointUp_rotation w s1 (_upVector st) Hup1' Hw Hdiff')
    as (axis' & Hax' & _ & s2 & Hrun2 & Hup2 & Hsr2 & Hhsr2).
  rewrite Hup1 in Hax', Hsr2, Hhsr2.
  rewrite (COORDS_sum_comm _ _ Hup Hin) in Hax', Hsr2, Hhsr2.
  rewrite Hax in Hax'. injection Hax' as <-.
  rewrite Hrun2. cbn [fst snd].
  eexists (vec axis), _.
  split; [reflexivity|]. split; [reflexivity|]. split; [exact Hup1|].
  split; [exact Hup2|]. split; [exact Hsr1|].
  rewrite Hsr2, Hhsr2, Hsr1, Hhsr1.
  split; [reflexivity|]. split; [reflexivity|]. split; [reflexivity|].
  destruct (JS.strict_eq _ 0) eqn:E.
  - right. right. reflexivity.
  - destruct (Hsign eq_refl) as [-> | ->]; [left | right; left]; reflexivity.
Qed.

Lemma pointUp_there_and_back_witness :
  exists axis angle,
    fst (pointUp (vec3 0 0 1) sample_viewport) = Normal tt
    /\ s_scaleRotate
         (snd (pointUp (vec3 0 1 0)
                       (snd (pointUp (vec3 0 0 1) sample_viewport))))
       = Object3D.rotateOnAxis
           (Object3D.rotateOnAxis (s_scaleRotate sample_viewport) axis angle)
           axis angle.
Proof.
  assert (H1 : In (_upVector sample_viewport) COORDS).
  { vm_compute. right. right. left. reflexivity. }
  assert (H2 : mainDirection (Vector3.normalize (vec3 0 0 1))
               = Some {| addr := 4; vec := vec3 0 0 1 |})
    by (vm_compute; reflexivity).
  assert (H3 : same_object {| addr := 4; vec := vec3 0 0 1 |}
                           (_upVector sample_viewport) = false)
    by (vm_compute; reflexivity).
  assert (H4 : mainDirection (Vector3.normalize (vec3 0 1 0))
               = Some (_upVector sample_viewport))
    by (vm_compute; reflexivity).
  destruct (pointUp_there_and_back sample_viewport (vec3 0 0 1) (vec3 0 1 0)
              _ H1 H2 H3 H4)
    as (axis & angle & Ha & _ & _ & _ & _ & Hb & _).
  exists axis, angle. split; [exact Ha | exact Hb].
Defined.

(** ** Clear colours *)

Lemma backgrounds_app calls1 : forall s calls2,
  backgrounds s (calls1 ++ calls2)
  = backgrounds s calls1 ++ backgrounds (gl_replay s calls1) calls2.
Proof.
  induction calls1 as [|c calls1 IH]; intros s calls2; [reflexivity|].
  cbn [app backgrounds]. rewrite IH, <- app_assoc. reflexivity.
Qed.

Lemma gl_replay_app s calls1 calls2 :
  gl_replay s (calls1 ++ calls2) = gl_replay (gl_replay s calls1) calls2.
Proof. apply fold_left_app. Qed.

(** One frame, replayed from a state with the main clear colour in force. *)
Lemma frame_clear_colours st s :
  s_camera st <> s_oCamZoom_ref ->
  gl_clearColour s = Some CLEAR_COLOUR ->
  gl_clearColour (gl_replay s (frame st)) = Some CLEAR_COLOUR
  /\ Forall drawn_on_own_background (backgrounds s (frame st)).
Proof.
  intros Hc Hs. unfold frame, main_pass, pip_pass, gl_replay.
  destruct s as [colour cleared]. cbn [gl_clearColour] in Hs. subst colour.
  destruct (s_camera st) eqn:Ec; [| |contradiction];
    destruct (showConnectivity st);
    cbn; (split; [reflexivity|]);
    repeat (constructor; try reflexivity).
Qed.

Lemma update_clear_colours st :
  clear_colour_invariant st -> clear_colour_invariant (update st).
Proof.
  intros [Hc Hr]. unfold update.
  destruct (renderer st) as [calls|] eqn:E.
  - destruct (atomicOperationUnderway st).
    + split; [exact Hc | rewrite E; exact Hr].
    + split; [exact Hc|]. cbn [renderer set_renderer].
      destruct Hr as [Hcol Hbg].
      destruct (frame_clear_colours st _ Hc Hcol) as [Hcol' Hbg'].
      rewrite gl_replay_app, backgrounds_app. split; [exact Hcol'|].
      apply Forall_app. split; assumption.
  - split; [exact Hc | rewrite E; exact I].
Qed.

Lemma clear_colour_transfer st st' :
  s_camera st' <> s_oCamZoom_ref -> renderer st' = renderer st ->
  clear_colour_invariant st -> clear_colour_invariant st'.
Proof.
  intros Hc Hr [_ H]. split; [exact Hc | rewrite Hr; exact H].
Qed.

Lemma install_mesh_display p st :
  s_camera (install_mesh p st) = s_camera st
  /\ renderer (install_mesh p st) = renderer st
  /\ pipCanvas_display (install_mesh p st) = pipCanvas_display st
  /\ listeners (install_mesh p st) = listeners st
  /\ ctxBox (install_mesh p st) = ctxBox st.
Proof.
  unfold install_mesh, removeMeshIfPresent. cbv zeta.
  destruct (isBufferGeometry (geometry (payload_mesh p)));
    destruct (mesh st); repeat split.
Qed.

Lemma removeMeshIfPresent_display st :
  s_camera (removeMeshIfPresent st) = s_camera st
  /\ renderer (removeMeshIfPresent st) = renderer st
  /\ pipCanvas_display (removeMeshIfPresent st) = pipCanvas_display st
  /\ listeners (removeMeshIfPresent st) = listeners st
  /\ ctxBox (removeMeshIfPresent st) = ctxBox st.
Proof. unfold removeMeshIfPresent. destruct (mesh st); repeat split. Qed.

Lemma changeMesh_clear_colours st payload :
  clear_colour_invariant st ->
  clear_colour_invariant (snd (changeMesh payload st)).
Proof.
  intros H.
  destruct (changeMesh_cases payload st)
    as [[_ ->]|[(_ & _ & ->)|(_ & p & _ & ->)]]; cbn [snd].
  - exact H.
  - destruct (removeMeshIfPresent_display st) as (Hc & Hr & _).
    apply (clear_colour_transfer st); [rewrite Hc; apply H | exact Hr | exact H].
  - apply update_clear_colours.
    destruct (install_mesh_display p st) as (Hc & Hr & _).
    apply (clear_colour_transfer st); [rewrite Hc; apply H | exact Hr | exact H].
Qed.

Lemma toggleCamera_clear_colours st :
  clear_colour_invariant st -> clear_colour_invariant (toggleCamera st).
Proof.
  intros H. unfold toggleCamera. cbv zeta. apply update_clear_colours.
  destruct (CameraRef_eqb (s_camera st) s_pCam_ref);
    (apply (clear_colour_transfer st); [discriminate | reflexivity | exact H]).
Qed.

(** X7.  Replaying the renderer's calls of any reachable state: the main
    clear colour 0xEEEEEE is in force at the end, and every [render] call
    was preceded by a [clear] in the colour of its view, 0xCCCCCC for the
    zoom camera of the picture in picture and 0xEEEEEE for the active
    camera.  The PIP pass always restores the colour it changed, and the
    zoom camera never becomes the active one. *)
Theorem reachable_clear_colours (env : Environment) (body : list Action) :
  let st := reachable env body in
  s_camera st <> s_oCamZoom_ref
  /\ exists calls,
       renderer st = Some calls
       /\ gl_clearColour (gl_replay gl_initial calls) = Some CLEAR_COLOUR
       /\ Forall (fun b => snd b = Some (background_of (fst b)))
                 (backgrounds gl_initial calls).
Proof.
  intros st.
  assert (H : clear_colour_invariant st).
  { apply (invariant_reachable clear_colour_invariant).
    - apply update_clear_colours.
    - intros s d H. exact H.
    - apply changeMesh_clear_colours.
    - intros s v H.
      destruct (pointUp_body_state v s) as [->|(n & a & g & ->)]; exact H.
    - apply toggleCamera_clear_colours.
    - intros e. split; [discriminate | exact I].
    - intros s e [Hc _]. split; [exact Hc|]. cbn. split; [reflexivity|].
      constructor.
    - intros s calls w h [Hc Hr] E. split; [exact Hc|].
      rewrite E in Hr. destruct Hr as [Hk Hb]. cbn [renderer set_renderer].
      rewrite gl_replay_app, backgrounds_app, app_nil_r.
      split; [exact Hk | exact Hb].
    - intros s b H. exact H.
    - intros s H. exact H.
    - intros s H. exact H. }
  destruct H as [Hc Hr]. split; [exact Hc|].
  pose proof (has_renderer_reachable env body) as Hh. fold st in Hh.
  unfold has_renderer in Hh.
  destruct (renderer st) as [calls|]; [|contradiction].
  exists calls. split; [reflexivity | exact Hr].
Qed.

(** ** Camera wiring *)

Lemma camera_wiring_transfer st st' :
  s_camera st' = s_camera st ->
  pipCanvas_display st' = pipCanvas_display st ->
  listeners st' = listeners st ->
  camera_wiring st -> camera_wiring st'.
Proof.
  unfold camera_wiring, pip_subscriptions. intros -> -> ->. exact (fun H => H).
Qed.

Lemma update_camera_wiring st : camera_wiring st -> camera_wiring (update st).
Proof. destruct (update_renderer_only st) as [r ->]. exact (fun H => H). Qed.

Lemma filter_negb_empty {A} (f : A -> bool) l :
  filter f (filter (fun y => negb (f y)) l) = [].
Proof.
  induction l as [|x l IH]; [reflexivity|]. cbn [filter].
  destruct (f x) eqn:E; cbn [negb]; [exact IH|].
  cbn [filter]. rewrite E. exact IH.
Qed.

Lemma toggleCamera_camera_wiring st :
  camera_wiring st -> camera_wiring (toggleCamera st).
Proof.
  intros H. unfold toggleCamera. cbv zeta. apply update_camera_wiring.
  unfold camera_wiring, pip_subscriptions in *.
  destruct H as [(Hc & Hd & Hl)|(Hc & Hd & Hl)]; rewrite Hc; cbn.
  - right. repeat split. rewrite filter_app, Hl. reflexivity.
  - left. repeat split. apply filter_negb_empty.
Qed.

Lemma camera_wiring_reachable env body : camera_wiring (reachable env body).
Proof.
  apply (invariant_reachable camera_wiring).
  - apply update_camera_wiring.
  - intros s d H. exact H.
  - intros s payload H.
    destruct (changeMesh_cases payload s)
      as [[_ ->]|[(_ & _ & ->)|(_ & p & _ & ->)]]; cbn [snd].
    + exact H.
    + destruct (removeMeshIfPresent_display s) as (Hc & _ & Hd & Hl & _).
      apply (camera_wiring_transfer s); assumption.
    + apply update_camera_wiring.
      destruct (install_mesh_display p s) as (Hc & _ & Hd & Hl & _).
      apply (camera_wiring_transfer s); assumption.
  - intros s v H.
    destruct (pointUp_body_state v s) as [->|(n & a & g & ->)]; exact H.
  - apply toggleCamera_camera_wiring.
  - intros e. left. repeat split.
  - intros s e H. exact H.
  - intros s calls w h H _. exact H.
  - intros s b H. exact H.
  - intros s H. exact H.
  - intros s H. unfold camera_wiring, pip_subscriptions, listenTo in *.
    cbn. rewrite filter_app. cbn. rewrite app_nil_r. exact H.
Qed.

(** X8.  In every reachable state the active camera, the PIP decoration
    and the subscription to the camera controller agree: either the
    perspective camera is active, the decoration is hidden and nothing
    listens to [changePip], or the orthographic camera is active, the
    decoration is shown and [update] is subscribed to [changePip] exactly
    once, however often the camera was toggled. *)
Theorem reachable_camera_wiring (env : Environment) (body : list Action) :
  let st := reachable env body in
  (s_camera st = s_pCam_ref
   /\ pipCanvas_display st = DISPLAY_NONE
   /\ filter (listens e_cameraController CHANGE_PIP) (listeners st) = [])
  \/ (s_camera st = s_oCam_ref
      /\ pipCanvas_display st = None
      /\ filter (listens e_cameraController CHANGE_PIP) (listeners st)
         = [{| l_emitter := e_cameraController; l_event := CHANGE_PIP;
               l_handler := h_update |}]).
Proof. apply camera_wiring_reachable. Qed.

(** X9.  In every reachable state a [changePip] event from the camera
    controller runs [update] exactly once when the orthographic camera is
    active, and runs nothing when the perspective camera is: toggling back
    and forth neither stacks subscriptions nor leaves one behind. *)
Theorem changePip_updates_once (env : Environment) (body : list Action) :
  let st := reachable env body in
  trigger e_cameraController CHANGE_PIP st
  = if CameraRef_eqb (s_camera st) s_oCam_ref then update st else st.
Proof.
  intros st. unfold trigger. rewrite fold_listeners_filter.
  destruct (camera_wiring_reachable env body) as [(Hc & _ & Hl)|(Hc & _ & Hl)];
    fold st in Hc, Hl; unfold pip_subscriptions in Hl; rewrite Hl, Hc;
    reflexivity.
Qed.


(** ** The dirty box is tight *)

Lemma eqb_key a b :
  JS.isNaN a = false -> JS.isNaN b = false ->
  PrimFloat.eqb a b = (fkey0 a =? fkey0 b)%Z.
Proof.
  intros Ha Hb. rewrite eqb_spec. unfold SFeqb, fkey0.
  rewrite (SFcompare_key0 _ _ (isNaN_false a Ha) (isNaN_false b Hb)).
  rewrite Z.eqb_compare. destruct (_ ?= _)%Z; reflexivity.
Qed.

Lemma leb_true_numeric a b :
  PrimFloat.leb a b = true -> JS.isNaN a = false /\ JS.isNaN b = false.
Proof.
  rewrite leb_spec. unfold SFleb. intros H.
  destruct (JS.isNaN a) eqn:Ha.
  { apply isNaN_true in Ha. rewrite Ha in H. discriminate H. }
  destruct (JS.isNaN b) eqn:Hb.
  { apply isNaN_true in Hb. rewrite Hb in H.
    destruct (Prim2SF a); discriminate H. }
  split; reflexivity.
Qed.

Lemma on_canvas_keys p :
  on_canvas p = true ->
  numeric_point p
  /\ (0 <= fkey0 (px p) <= fkey0 999999%float)%Z
  /\ (0 <= fkey0 (py p) <= fkey0 999999%float)%Z.
Proof.
  unfold on_canvas. rewrite !andb_true_iff. intros [[[H1 H2] H3] H4].
  destruct (leb_true_numeric _ _ H1) as [N0 Nx].
  destruct (leb_true_numeric _ _ H2) as [_ N9].
  destruct (leb_true_numeric _ _ H3) as [_ Ny].
  rewrite leb_key in H1, H2, H3, H4 by assumption.
  apply Z.leb_le in H1, H2, H3, H4.
  change (fkey0 0%float) with 0%Z in H1, H3.
  split; [split; assumption|]. split; split; assumption.
Qed.

(** Each bound of the folded box is a bound of the box it started from or
    a coordinate of one of the points. *)
Lemma fold_points_attained points : forall box,
  numeric_box box -> Forall numeric_point points ->
  let final := fold_points box points in
  (fkey0 (minX final) = fkey0 (minX box)
   \/ exists p, In p points /\ fkey0 (minX final) = fkey0 (px p))
  /\ (fkey0 (minY final) = fkey0 (minY box)
      \/ exists p, In p points /\ fkey0 (minY final) = fkey0 (py p))
  /\ (fkey0 (maxX final) = fkey0 (maxX box)
      \/ exists p, In p points /\ fkey0 (maxX final) = fkey0 (px p))
  /\ (fkey0 (maxY final) = fkey0 (maxY box)
      \/ exists p, In p points /\ fkey0 (maxY final) = fkey0 (py p)).
Proof.
  induction points as [|q points IH]; intros box Hb Hp.
  - cbv zeta. unfold fold_points. cbn. auto.
  - inversion Hp as [|? ? Hq Hp']; subst.
    destruct (expandBox_numeric box q Hb Hq) as (Hb' & _ & _).
    specialize (IH (expandBox box q) Hb' Hp'). cbv zeta in IH.
    change (fold_points box (q :: points))
      with (fold_points (expandBox box q) points).
    destruct Hb as (B1 & B2 & B3 & B4). destruct Hq as (Q1 & Q2).
    destruct (Math_min_key0 _ _ B1 Q1) as [_ K1].
    destruct (Math_min_key0 _ _ B2 Q2) as [_ K2].
    destruct (Math_max_key0 _ _ B3 Q1) as [_ K3].
    destruct (Math_max_key0 _ _ B4 Q2) as [_ K4].
    cbv zeta. cbn [expandBox minX minY maxX maxY] in IH.
    destruct IH as (I1 & I2 & I3 & I4).
    assert (Hlift : forall (k : Z) (f : Point -> JS.number),
               (exists p, In p points /\ k = fkey0 (f p)) ->
               exists p, In p (q :: points) /\ k = fkey0 (f p)).
    { intros k f (p & Hin & E). exists p. split; [right; exact Hin | exact E]. }
    repeat split.
    + destruct I1 as [E|E]; [|right; apply Hlift, E].
      rewrite E, K1. destruct (Z.min_spec (fkey0 (minX box)) (fkey0 (px q)))
        as [[_ ->]|[_ ->]]; [left; reflexivity|].
      right. exists q. split; [left; reflexivity | reflexivity].
    + destruct I2 as [E|E]; [|right; apply Hlift, E].
      rewrite E, K2. destruct (Z.min_spec (fkey0 (minY box)) (fkey0 (py q)))
        as [[_ ->]|[_ ->]]; [left; reflexivity|].
      right. exists q. split; [left; reflexivity | reflexivity].
    + destruct I3 as [E|E]; [|right; apply Hlift, E].
      rewrite E, K3. destruct (Z.max_spec (fkey0 (maxX box)) (fkey0 (px q)))
        as [[_ ->]|[_ ->]]; [|left; reflexivity].
      right. exists q. split; [left; reflexivity | reflexivity].
    + destruct I4 as [E|E]; [|right; apply Hlift, E].
      rewrite E, K4. destruct (Z.max_spec (fkey0 (maxY box)) (fkey0 (py q)))
        as [[_ ->]|[_ ->]]; [|left; reflexivity].
      right. exists q. split; [left; reflexivity | reflexivity].
Qed.

Lemma numeric_EMPTY_BOX : numeric_box EMPTY_BOX.
Proof. repeat split; vm_compute; reflexivity. Qed.

Lemma key_strict_eq a b :
  JS.isNaN a = false -> JS.isNaN b = false -> fkey0 a = fkey0 b ->
  JS.strict_eq a b = true.
Proof.
  intros Ha Hb E. unfold JS.strict_eq. rewrite eqb_key by assumption.
  apply Z.eqb_eq, E.
Qed.

(** X10.  After [clearCanvas], calls of [updateCanvasBoundingBox] for one
    or more points whose coordinates lie between 0 and 999999 leave exactly
    the bounding box of the points: it contains each of them, and each of
    its four bounds is [===] to the coordinate of one of the points. *)
Theorem dirty_box_is_tight (st : Viewport) (points : list Point) :
  points <> [] ->
  forallb on_canvas points = true ->
  let box := ctxBox (draw_points points (clearCanvas st)) in
  (forall p, In p points -> contains box p = true)
  /\ (exists p, In p points /\ JS.strict_eq (minX box) (px p) = true)
  /\ (exists p, In p points /\ JS.strict_eq (minY box) (py p) = true)
  /\ (exists p, In p points /\ JS.strict_eq (maxX box) (px p) = true)
  /\ (exists p, In p points /\ JS.strict_eq (maxY box) (py p) = true).
Proof.
  intros Hne Hall box. subst box. rewrite draw_points_ctxBox.
  change (ctxBox (clearCanvas st)) with EMPTY_BOX.
  rewrite forallb_forall in Hall.
  assert (Hnum : Forall numeric_point points).
  { apply Forall_forall. intros p Hin. apply on_canvas_keys, Hall, Hin. }
  destruct (fold_points_numeric points EMPTY_BOX numeric_EMPTY_BOX Hnum)
    as (Hf & _ & Hin).
  destruct (fold_points_attained points EMPTY_BOX numeric_EMPTY_BOX Hnum)
    as (A1 & A2 & A3 & A4).
  set (final := fold_points EMPTY_BOX points) in *.
  destruct points as [|p0 points]; [contradiction Hne; reflexivity|].
  assert (H0 : In p0 (p0 :: points)) by (left; reflexivity).
  destruct (on_canvas_keys p0 (Hall p0 H0)) as ((N0x & N0y) & Kx & Ky).
  destruct (Hin p0 H0) as [Ix Iy].
  destruct Hf as (F1 & F2 & F3 & F4).
  cbn [EMPTY_BOX minX minY maxX maxY] in A1, A2, A3, A4.
  change (fkey0 0%float) with 0%Z in A3, A4.
  split; [|split; [|split; [|split]]].
  - intros p Hp. apply contains_key; [repeat split; assumption | | apply Hin, Hp].
    apply on_canvas_keys, Hall, Hp.
  - destruct A1 as [E|(p & Hp & E)].
    + exists p0. split; [exact H0|]. apply key_strict_eq; try assumption. lia.
    + exists p. split; [exact Hp|]. apply key_strict_eq; try assumption.
      apply on_canvas_keys, Hall, Hp.
  - destruct A2 as [E|(p & Hp & E)].
    + exists p0. split; [exact H0|]. apply key_strict_eq; try assumption. lia.
    + exists p. split; [exact Hp|]. apply key_strict_eq; try assumption.
      apply on_canvas_keys, Hall, Hp.
  - destruct A3 as [E|(p & Hp & E)].
    + exists p0. split; [exact H0|]. apply key_strict_eq; try assumption. lia.
    + exists p. split; [exact Hp|]. apply key_strict_eq; try assumption.
      apply on_canvas_keys, Hall, Hp.
  - destruct A4 as [E|(p & Hp & E)].
    + exists p0. split; [exact H0|]. apply key_strict_eq; try assumption. lia.
    + exists p. split; [exact Hp|]. apply key_strict_eq; try assumption.
      apply on_canvas_keys, Hall, Hp.
Qed.

Lemma dirty_box_is_tight_witness :
  let box := ctxBox (draw_points [UNIT_POINT; {| px := 5; py := 0 |}]
                                 (clearCanvas sample_viewport)) in
  exists p, In p [UNIT_POINT; {| px := 5; py := 0 |}]
            /\ JS.strict_eq (maxX box) (px p) = true.
Proof.
  assert (H1 : [UNIT_POINT; {| px := 5; py := 0 |}] <> []) by discriminate.
  assert (H2 : forallb on_canvas [UNIT_POINT; {| px := 5; py := 0 |}] = true)
    by (vm_compute; reflexivity).
  exact (proj1 (proj2 (proj2 (proj2
           (dirty_box_is_tight sample_viewport _ H1 H2))))).
Defined.

(** ** Drawing on the overlay *)




Section OverlayProperties.

Variable project : Vector3.t -> Camera -> Vector3.t.
Variable localToWorld : Viewport -> Vector3.t -> Vector3.t.





End OverlayProperties.

Section TargetingLines.

Variable project : Vector3.t -> Camera -> Vector3.t.
Variable localToWorld : Viewport -> Vector3.t -> Vector3.t.


End TargetingLines.




(** ** Selecting landmarks with a box *)

Lemma fold_push_filter {A} (f : A -> bool) l : forall acc,
  fold_left (fun acc x => if f x then acc ++ [x] else acc) l acc
  = acc ++ filter f l.
Proof.
  induction l as [|x l IH]; intros acc; cbn [fold_left filter].
  - rewrite app_nil_r. reflexivity.
  - rewrite IH. destruct (f x); [rewrite <- app_assoc|]; reflexivity.
Qed.

Section SelectionBox.

Variable project : Vector3.t -> Camera -> Vector3.t.
Variable localToWorld : Viewport -> Vector3.t -> Vector3.t.

Let selected := lmViewsInSelectionBox project localToWorld.
Let inside := in_selection_box project localToWorld.

Lemma lmViewsInSelectionBox_filter landmarkViews x1 y1 x2 y2 st :
  selected landmarkViews x1 y1 x2 y2 st
  = filter (inside st x1 y1 x2 y2) landmarkViews.
Proof.
  unfold selected, lmViewsInSelectionBox, inside.
  apply (fold_push_filter (in_selection_box project localToWorld st
                             x1 y1 x2 y2) landmarkViews []).
Qed.

(** X13.  [lmViewsInSelectionBox] returns, in their order, the landmark
    views that have a symbol whose screen position lies strictly inside the
    box.  A view is selected only if [x1 < x2] and [y1 < y2]: a box given
    with its corners the other way round, a box without area, or a box with
    a NaN bound selects nothing, and a symbol exactly on the border is not
    selected. *)
Theorem lmViewsInSelectionBox_strictly_inside (landmarkViews : list LmView)
    (x1 y1 x2 y2 : JS.number) (st : Viewport) (lmView : LmView) :
  In lmView (lmViewsInSelectionBox project localToWorld landmarkViews
                                   x1 y1 x2 y2 st) ->
  In lmView landmarkViews
  /\ PrimFloat.ltb x1 x2 = true
  /\ PrimFloat.ltb y1 y2 = true
  /\ exists sym,
       symbol lmView = Some sym
       /\ let c := lmToScreen project localToWorld st sym in
          JS.strict_eq (Vector3.x c) x1 = false
          /\ JS.strict_eq (Vector3.x c) x2 = false
          /\ JS.strict_eq (Vector3.y c) y1 = false
          /\ JS.strict_eq (Vector3.y c) y2 = false
          /\ PrimFloat.ltb x1 (Vector3.x c) = true
          /\ PrimFloat.ltb (Vector3.x c) x2 = true
          /\ PrimFloat.ltb y1 (Vector3.y c) = true
          /\ PrimFloat.ltb (Vector3.y c) y2 = true.
Proof.
  fold selected. rewrite lmViewsInSelectionBox_filter. intros H.
  apply filter_In in H. destruct H as [Hin H]. split; [exact Hin|].
  unfold inside, in_selection_box in H.
  destruct (symbol lmView) as [sym|]; [|discriminate H].
  cbv zeta in H. rewrite !andb_true_iff in H.
  destruct H as [[[Hx1 Hx2] Hy1] Hy2].
  split; [apply (ltb_trans _ _ _ Hx1 Hx2)|].
  split; [apply (ltb_trans _ _ _ Hy1 Hy2)|].
  exists sym. split; [reflexivity|]. cbv zeta.
  assert (Hne : forall a b, PrimFloat.ltb a b = true ->
                            JS.strict_eq a b = false
                            /\ JS.strict_eq b a = false).
  { intros a b Hlt. destruct (ltb_true_numeric _ _ Hlt) as [Na Nb].
    unfold JS.strict_eq. rewrite !eqb_key by assumption.
    rewrite ltb_key in Hlt by assumption. apply Z.ltb_lt in Hlt.
    split; apply Z.eqb_neq; lia. }
  repeat split; try assumption;
    try (apply (Hne _ _ Hx1)); try (apply (Hne _ _ Hx2));
    try (apply (Hne _ _ Hy1)); try (apply (Hne _ _ Hy2)).
Qed.

(** X14.  Widening the selection box never loses a landmark: a view
    selected by a box is selected by every box that reaches at least as
    far on each side, and the selection of the smaller box is the larger
    one's, filtered. *)
Theorem lmViewsInSelectionBox_monotone (landmarkViews : list LmView)
    (x1 y1 x2 y2 x1' y1' x2' y2' : JS.number) (st : Viewport) :
  PrimFloat.leb x1' x1 = true -> PrimFloat.leb x2 x2' = true ->
  PrimFloat.leb y1' y1 = true -> PrimFloat.leb y2 y2' = true ->
  lmViewsInSelectionBox project localToWorld landmarkViews x1 y1 x2 y2 st
  = filter (in_selection_box project localToWorld st x1 y1 x2 y2)
      (lmViewsInSelectionBox project localToWorld landmarkViews
                             x1' y1' x2' y2' st).
Proof.
  intros Hx1 Hx2 Hy1 Hy2. fold selected.
  rewrite !lmViewsInSelectionBox_filter.
  assert (Hle_lt : forall a b c, PrimFloat.leb a b = true ->
                                 PrimFloat.ltb b c = true ->
                                 PrimFloat.ltb a c = true).
  { intros a b c Hab Hbc. destruct (leb_true_numeric _ _ Hab) as [Na Nb].
    destruct (ltb_true_numeric _ _ Hbc) as [_ Nc].
    rewrite leb_key in Hab by assumption. rewrite ltb_key in * by assumption.
    apply Z.leb_le in Hab. apply Z.ltb_lt in Hbc. apply Z.ltb_lt. lia. }
  assert (Hlt_le : forall a b c, PrimFloat.ltb a b = true ->
                                 PrimFloat.leb b c = true ->
                                 PrimFloat.ltb a c = true).
  { intros a b c Hab Hbc. destruct (ltb_true_numeric _ _ Hab) as [Na Nb].
    destruct (leb_true_numeric _ _ Hbc) as [_ Nc].
    rewrite leb_key in Hbc by assumption. rewrite ltb_key in * by assumption.
    apply Z.leb_le in Hbc. apply Z.ltb_lt in Hab. apply Z.ltb_lt. lia. }
  induction landmarkViews as [|v vs IH]; [reflexivity|].
  cbn [filter]. fold inside.
  destruct (inside st x1 y1 x2 y2 v) eqn:E.
  - assert (E' : inside st x1' y1' x2' y2' v = true).
    { unfold inside, in_selection_box in *.
      destruct (symbol v) as [sym|]; [|discriminate E].
      cbv zeta in *. rewrite !andb_true_iff in *.
      destruct E as [[[A B] C] D].
      repeat split; eauto. }
    rewrite E'. cbn [filter]. fold inside. rewrite E. f_equal. exact IH.
  - destruct (inside st x1' y1' x2' y2' v); [|exact IH].
    cbn [filter]. fold inside. rewrite E. exact IH.
Qed.

End SelectionBox.

Lemma lmViewsInSelectionBox_strictly_inside_witness :
  In sample_lmView
     (lmViewsInSelectionBox sample_project sample_localToWorld
        [sample_lmView; {| symbol := None |}] 0 0 800 600 sample_viewport)
  /\ PrimFloat.ltb 0 800 = true.
Proof.
  assert (H : In sample_lmView
                (lmViewsInSelectionBox sample_project sample_localToWorld
                   [sample_lmView; {| symbol := None |}] 0 0 800 600
                   sample_viewport))
    by (vm_compute; left; reflexivity).
  split; [exact H|].
  exact (proj1 (proj2 (lmViewsInSelectionBox_strictly_inside
                         sample_project sample_localToWorld _ _ _ _ _ _ _ H))).
Defined.

Lemma lmViewsInSelectionBox_monotone_witness :
  lmViewsInSelectionBox sample_project sample_localToWorld
    [sample_lmView; {| symbol := None |}] 100 100 500 500 sample_viewport
  = filter (in_selection_box sample_project sample_localToWorld
              sample_viewport 100 100 500 500)
      (lmViewsInSelectionBox sample_project sample_localToWorld
         [sample_lmView; {| symbol := None |}] 0 0 800 600 sample_viewport).
Proof.
  apply (lmViewsInSelectionBox_monotone sample_project sample_localToWorld
           [sample_lmView; {| symbol := None |}]
           100 100 500 500 0 0 800 600 sample_viewport);
    vm_compute; reflexivity.
Defined.

(** ** Casting rays *)

Section Casts.

Variable unproject : Vector3.t -> Camera -> Vector3.t.
Variable project : Vector3.t -> Camera -> Vector3.t.
Variable transformDirection : Vector3.t -> Matrix4 -> Vector3.t.
Variable localToWorld : Viewport -> Vector3.t -> Vector3.t.
Variable intersetMesh : Ray -> Mesh -> Octree -> list Intersection.
Variable intersectObjects : Ray -> list nat -> list Intersection.
Variable intersectObject : Ray -> nat -> list Intersection.

Let pick := getIntersects unproject transformDirection intersetMesh
                          intersectObjects intersectObject.
Let pick_ray := picking_ray unproject transformDirection.
Let hits := hits_at unproject transformDirection intersetMesh
                    intersectObjects intersectObject.
Let visible := lmViewVisible unproject project transformDirection localToWorld
                             intersetMesh intersectObjects intersectObject.

Lemma getIntersects_hits x y object st :
  pick x y object st
  = (Normal (hits st x y object),
     if is_empty_target object then st else set_ray (pick_ray st x y) st).
Proof.
  unfold pick, getIntersects, hits, hits_at, cast, pick_ray.
  destruct (is_empty_target object) eqn:He; [reflexivity|].
  unfold bind, modify, get, ret. cbv beta iota.
  change (ray (set_ray ?r st)) with r.
  change (octree (set_ray ?r st)) with (octree st).
  change (is_active_mesh (set_ray ?r st) object)
    with (is_active_mesh st object).
  destruct (is_active_mesh st object) as [m|];
    [destruct (octree st) as [o|]|];
    try reflexivity; destruct object; try discriminate He; reflexivity.
Qed.

(** The ray a cast leaves behind plays no part in the next cast. *)
Lemma hits_set_ray r st x y object :
  hits (set_ray r st) x y object = hits st x y object.
Proof. reflexivity. Qed.

Lemma pick_ray_set_ray r st x y :
  pick_ray (set_ray r st) x y = pick_ray st x y.
Proof. reflexivity. Qed.

Lemma set_ray_twice r r' st : set_ray r (set_ray r' st) = set_ray r st.
Proof. reflexivity. Qed.

Lemma set_ray_same st : set_ray (ray st) st = st.
Proof. destruct st; reflexivity. Qed.

(** [lmViewVisible] for a view with a symbol: two casts from the symbol's
    screen position, neither depending on the other. *)
Lemma lmViewVisible_two_casts sym st :
  let c := lmToScreen project localToWorld st sym in
  let iMesh := hits st (Vector3.x c) (Vector3.y c) (mesh_target st) in
  let iLm := hits st (Vector3.x c) (Vector3.y c)
                  (target_object (symbol_addr sym)) in
  visible {| symbol := Some sym |} st
  = (match iMesh, iLm with
     | [], _ => Normal true
     | _ :: _, [] => Throw TypeError
     | hitMesh :: _, hitLm :: _ =>
         Normal (PrimFloat.ltb (distance hitLm) (distance hitMesh))
     end,
     set_ray (pick_ray st (Vector3.x c) (Vector3.y c)) st).
Proof.
  cbv zeta. unfold visible, lmViewVisible. cbn [symbol].
  unfold bind at 1. unfold get at 1. unfold bind at 1. unfold get at 1.
  unfold bind at 1. fold pick. rewrite getIntersects_hits.
  unfold bind at 1. rewrite getIntersects_hits.
  cbn [is_empty_target].
  set (c := lmToScreen project localToWorld st sym).
  assert (Hs : set_ray
                 (pick_ray (if is_empty_target (mesh_target st) then st
                            else set_ray (pick_ray st (Vector3.x c)
                                                   (Vector3.y c)) st)
                           (Vector3.x c) (Vector3.y c))
                 (if is_empty_target (mesh_target st) then st
                  else set_ray (pick_ray st (Vector3.x c) (Vector3.y c)) st)
               = set_ray (pick_ray st (Vector3.x c) (Vector3.y c)) st).
  { destruct (is_empty_target (mesh_target st)); reflexivity. }
  assert (Hh : hits (if is_empty_target (mesh_target st) then st
                     else set_ray (pick_ray st (Vector3.x c) (Vector3.y c)) st)
                    (Vector3.x c) (Vector3.y c)
                    (target_object (symbol_addr sym))
               = hits st (Vector3.x c) (Vector3.y c)
                      (target_object (symbol_addr sym))).
  { destruct (is_empty_target (mesh_target st)); reflexivity. }
  rewrite Hs, Hh.
  destruct (hits st (Vector3.x c) (Vector3.y c) (mesh_target st))
    as [|hitMesh ?]; [reflexivity|].
  destruct (hits st (Vector3.x c) (Vector3.y c)
                 (target_object (symbol_addr sym))); reflexivity.
Qed.

(** X15.  While no mesh is loaded, [lmViewVisible] finds every landmark
    view that has a symbol visible, whatever the ray casters return: the
    cast against the [null] mesh is empty, so the landmark's hits are never
    read and nothing is thrown.  The call changes nothing but [this.ray],
    which it leaves at the ray through the symbol's screen position. *)
Theorem lmViewVisible_without_mesh (sym : Symbol) (st : Viewport) :
  mesh st = None ->
  let c := lmToScreen project localToWorld st sym in
  lmViewVisible unproject project transformDirection localToWorld
                intersetMesh intersectObjects intersectObject
                {| symbol := Some sym |} st
  = (Normal true,
     set_ray (picking_ray unproject transformDirection st
                          (Vector3.x c) (Vector3.y c)) st).
Proof.
  intros Hm. cbv zeta. fold visible. rewrite lmViewVisible_two_casts.
  unfold hits at 1, hits_at, mesh_target. rewrite Hm. reflexivity.
Qed.

(** X16.  [lmViewVisible] throws exactly when the cast against the mesh
    hits something and the cast against the landmark's symbol hits nothing:
    it then reads [distance] of the missing first hit.  Otherwise it
    returns, with [true] when the mesh is not hit and with the strict
    comparison of the two first distances when both are.  Either way the
    viewport afterwards differs from before in [this.ray] only. *)
Theorem lmViewVisible_throws_iff (sym : Symbol) (st : Viewport) :
  let c := lmToScreen project localToWorld st sym in
  let cast_at :=
    hits_at unproject transformDirection intersetMesh intersectObjects
            intersectObject st (Vector3.x c) (Vector3.y c) in
  let run :=
    lmViewVisible unproject project transformDirection localToWorld
                  intersetMesh intersectObjects intersectObject
                  {| symbol := Some sym |} st in
  ((exists e, fst run = Throw e)
   <-> cast_at (mesh_target st) <> []
       /\ cast_at (target_object (symbol_addr sym)) = [])
  /\ (cast_at (mesh_target st) = [] -> fst run = Normal true)
  /\ (forall hitMesh hitLm restMesh restLm,
        cast_at (mesh_target st) = hitMesh :: restMesh ->
        cast_at (target_object (symbol_addr sym)) = hitLm :: restLm ->
        fst run
        = Normal (PrimFloat.ltb (distance hitLm) (distance hitMesh)))
  /\ snd run = set_ray (ray (snd run)) st.
Proof.
  cbv zeta. fold visible hits. rewrite lmViewVisible_two_casts. cbv zeta.
  cbn [fst snd].
  destruct (hits st _ _ (mesh_target st)) as [|hitMesh restMesh];
    [|destruct (hits st _ _ (target_object (symbol_addr sym)))
        as [|hitLm restLm]];
    (split; [split|split; [|split]]).
  - intros [e He]. discriminate He.
  - intros [H _]. contradiction H. reflexivity.
  - reflexivity.
  - intros ? ? ? ? H. discriminate H.
  - reflexivity.
  - intros _. split; [discriminate | reflexivity].
  - intros _. exists TypeError. reflexivity.
  - intros H. discriminate H.
  - intros ? ? ? ? _ H. discriminate H.
  - reflexivity.
  - intros [e He]. discriminate He.
  - intros [_ H]. discriminate H.
  - intros H. discriminate H.
  - intros ? ? ? ? H1 H2. injection H1 as <- _. injection H2 as <- _.
    reflexivity.
  - reflexivity.
Qed.

(** X17.  In every reachable state with an active mesh, a cast against
    that mesh goes to the octree built from the mesh's own geometry when
    the geometry is a buffer geometry, and to [intersectObject] on the mesh
    otherwise: the octree consulted is never that of an earlier mesh. *)
Theorem getIntersects_uses_octree_of_active_mesh (env : Environment)
    (body : list Action) (x y : JS.number) (m : Mesh) :
  let st := reachable env body in
  mesh st = Some m ->
  let r := picking_ray unproject transformDirection st x y in
  getIntersects unproject transformDirection intersetMesh intersectObjects
                intersectObject x y (target_object (mesh_addr m)) st
  = (Normal (if isBufferGeometry (geometry m)
             then intersetMesh r m {| octree_of := geometry m |}
             else intersectObject r (mesh_addr m)),
     set_ray r st).
Proof.
  intros st Hm r. fold pick. rewrite getIntersects_hits.
  cbn [is_empty_target]. fold r. f_equal. f_equal.
  pose proof (mesh_bookkeeping_reachable env body) as Hb. fold st in Hb.
  unfold mesh_bookkeeping in Hb. rewrite Hm in Hb. destruct Hb as [_ Ho].
  unfold hits, hits_at, cast, is_active_mesh. cbn [is_empty_target].
  rewrite Hm, Nat.eqb_refl, Ho. fold r.
  destruct (isBufferGeometry (geometry m)); reflexivity.
Qed.

End Casts.

Lemma lmViewVisible_without_mesh_witness :
  fst (lmViewVisible sample_unproject sample_project
         sample_transformDirection sample_localToWorld sample_intersetMesh
         sample_intersectObjects sample_intersectObject
         sample_lmView sample_viewport)
  = Normal true.
Proof.
  assert (H : mesh sample_viewport = None) by (vm_compute; reflexivity).
  exact (f_equal fst
           (lmViewVisible_without_mesh sample_unproject sample_project
              sample_transformDirection sample_localToWorld
              sample_intersetMesh sample_intersectObjects
              sample_intersectObject
              {| symbol_addr := 7; symbol_position := vec3 0 0 0 |}
              sample_viewport H)).
Defined.

Lemma getIntersects_uses_octree_of_active_mesh_witness :
  mesh (reachable sample_mesh_environment sample_session)
  = Some (payload_mesh sample_payload)
  /\ fst (getIntersects sample_unproject sample_transformDirection
            sample_intersetMesh sample_intersectObjects
            sample_intersectObject 10 10
            (target_object (mesh_addr (payload_mesh sample_payload)))
            (reachable sample_mesh_environment sample_session))
     = Normal [].
Proof.
  assert (Hm : mesh (reachable sample_mesh_environment sample_session)
               = Some (payload_mesh sample_payload))
    by (vm_compute; reflexivity).
  split; [exact Hm|].
  exact (f_equal fst
           (getIntersects_uses_octree_of_active_mesh sample_unproject
              sample_transformDirection sample_intersetMesh
              sample_intersectObjects sample_intersectObject
              sample_mesh_environment sample_session 10 10 _ Hm)).
Defined.

(** * The mesh model *)

Section MeshModelProperties.
Import MeshModel.

Ltac run_ops :=
  unfold textureToggle, textureOn, textureOff, wireframeToggle, wireframeOn,
    wireframeOff, changeAlpha, set_wireframe, assign_material, isWireframeOn,
    material, andThen, on_model, on_heap, done, write in *;
  cbn in *; rewrite ?Nat.eqb_refl in *; cbn in *.

Lemma wireframeToggle_run m h r :
  get_t_mesh m = Some r ->
  let flag := wireframe (cell h r) in
  exists h',
    wireframeToggle {| model := m; heap := h |}
    = (Normal tt, {| model := set_wireframeOn (negb flag) m; heap := h' |})
    /\ next h' = next h
    /\ forall r', cell h' r'
                  = if Nat.eqb r' r
                    then {| wireframe := negb flag; opacity := get_alpha m |}
                    else cell h r'.
Proof.
  intros Hr. destruct m as [a tex ton won tm]. cbn in Hr. subst tm.
  cbv zeta. run_ops.
  destruct (wireframe (cell h r)) eqn:E; run_ops; rewrite ?E; run_ops;
    (eexists; split; [reflexivity|]; split; [reflexivity|]);
    intros r'; cbn; destruct (Nat.eqb r' r); reflexivity.
Qed.

(** The texture switches, on a model whose material slot is filled. *)
Lemma textureOff_run m h tex r :
  get_texture m = Some tex -> get_textureOn m = Some true ->
  get_t_mesh m = Some r ->
  let flag := wireframe (cell h r) in
  exists h',
    textureOff {| model := m; heap := h |}
    = (Normal tt,
       {| model := {| get_alpha := get_alpha m; get_texture := Some tex;
                      get_textureOn := Some false;
                      get_wireframeOn :=
                        if Bool.eqb (wireframe (cell h basicMaterial)) flag
                        then get_wireframeOn m else Some flag;
                      get_t_mesh := Some basicMaterial |};
          heap := h' |})
    /\ next h' = next h
    /\ forall r', cell h' r'
                  = if Nat.eqb r' basicMaterial
                    then {| wireframe := flag; opacity := get_alpha m |}
                    else cell h r'.
Proof.
  intros Ht Hon Hr. destruct m as [a t ton won tm]. cbn in Ht, Hon, Hr.
  subst t ton tm. cbv zeta. unfold textureOff, isTextureOn, hasTexture.
  cbn [model get_texture get_textureOn andb negb].
  run_ops.
  destruct (wireframe (cell h r)) eqn:E;
    destruct (wireframe (cell h basicMaterial)) eqn:B;
    run_ops; rewrite ?E, ?B; run_ops; rewrite ?E, ?B; run_ops;
    (eexists; split; [reflexivity|]; split; [reflexivity|]);
    intros r'; cbn; destruct r'; cbn; rewrite <- ?B; reflexivity.
Qed.

Lemma textureOn_run m h tex r :
  get_texture m = Some tex -> isTextureOn m = false ->
  get_t_mesh m = Some r ->
  let flag := wireframe (cell h r) in
  exists h',
    textureOn {| model := m; heap := h |}
    = (Normal tt,
       {| model := {| get_alpha := get_alpha m; get_texture := Some tex;
                      get_textureOn := Some true;
                      get_wireframeOn :=
                        if Bool.eqb (wireframe (cell h tex)) flag
                        then get_wireframeOn m else Some flag;
                      get_t_mesh := Some tex |};
          heap := h' |})
    /\ next h' = next h
    /\ forall r', cell h' r'
                  = if Nat.eqb r' tex
                    then {| wireframe := flag; opacity := get_alpha m |}
                    else cell h r'.
Proof.
  intros Ht Hon Hr. destruct m as [a t ton won tm]. cbn in Ht, Hr.
  subst t tm. cbv zeta. unfold textureOn. cbn [model]. rewrite Hon.
  unfold hasTexture. cbn [get_texture negb orb].
  run_ops.
  destruct (wireframe (cell h r)) eqn:E;
    destruct (wireframe (cell h tex)) eqn:B;
    run_ops; rewrite ?E, ?B; run_ops; rewrite ?E, ?B; run_ops;
    (eexists; split; [reflexivity|]; split; [reflexivity|]);
    intros r'; cbn; destruct (Nat.eqb r' tex) eqn:N; cbn;
    try reflexivity; apply Nat.eqb_eq in N; subst r'; rewrite B; reflexivity.
Qed.

Lemma textureOn_skip m h :
  isTextureOn m = true \/ hasTexture m = false ->
  textureOn {| model := m; heap := h |} = (Normal tt, {| model := m; heap := h |}).
Proof.
  intros H. unfold textureOn. cbn [model].
  destruct H as [-> | ->]; [reflexivity|].
  rewrite orb_true_r. reflexivity.
Qed.

Lemma textureOff_skip m h :
  isTextureOn m = false ->
  textureOff {| model := m; heap := h |} = (Normal tt, {| model := m; heap := h |}).
Proof. intros H. unfold textureOff. cbn [model]. rewrite H. reflexivity. Qed.

Lemma isTextureOn_true m :
  isTextureOn m = true ->
  exists tex, get_texture m = Some tex /\ get_textureOn m = Some true.
Proof.
  unfold isTextureOn, hasTexture.
  destruct (get_texture m) as [tex|]; [|discriminate].
  destruct (get_textureOn m) as [[|]|]; try discriminate.
  intros _. exists tex. split; reflexivity.
Qed.

Lemma coherent_material m :
  coherent m -> exists r, get_t_mesh m = Some r.
Proof. unfold coherent. intros ->. eexists. reflexivity. Qed.

(** What a texture switch does to a coherent model. *)
Lemma texture_switch_effect s c :
  coherent (model s) ->
  c = do_textureOn \/ c = do_textureOff \/ c = do_textureToggle ->
  let s' := snd (run_switch c s) in
  fst (run_switch c s) = Normal tt
  /\ coherent (model s')
  /\ get_texture (model s') = get_texture (model s)
  /\ get_alpha (model s') = get_alpha (model s)
  /\ fst (isWireframeOn s') = fst (isWireframeOn s)
  /\ (isTextureOn (model s') = isTextureOn (model s) -> s' = s)
  /\ (isTextureOn (model s') <> isTextureOn (model s) ->
      option_map opacity (shown s') = Some (get_alpha (model s)))
  /\ (c = do_textureToggle -> hasTexture (model s) = true ->
      isTextureOn (model s') = negb (isTextureOn (model s))).
Proof.
  intros Hc Hop. destruct s as [m h]. cbn [model] in Hc.
  assert (Hskip : forall op : Op unit,
             op {| model := m; heap := h |}
             = (Normal tt, {| model := m; heap := h |}) ->
             fst (op {| model := m; heap := h |}) = Normal tt
             /\ coherent (model (snd (op {| model := m; heap := h |})))
             /\ get_texture (model (snd (op {| model := m; heap := h |})))
                = get_texture m
             /\ get_alpha (model (snd (op {| model := m; heap := h |})))
                = get_alpha m
             /\ fst (isWireframeOn (snd (op {| model := m; heap := h |})))
                = fst (isWireframeOn {| model := m; heap := h |})
             /\ (isTextureOn (model (snd (op {| model := m; heap := h |})))
                 = isTextureOn m ->
                 snd (op {| model := m; heap := h |})
                 = {| model := m; heap := h |})
             /\ (isTextureOn (model (snd (op {| model := m; heap := h |})))
                 <> isTextureOn m ->
                 option_map opacity
                   (shown (snd (op {| model := m; heap := h |})))
                 = Some (get_alpha m))).
  { intros op ->. cbn [fst snd model]. repeat split; try assumption.
    intros H. contradiction H. reflexivity. }
  assert (Hon : isTextureOn m = false -> hasTexture m = true ->
                let s' := snd (textureOn {| model := m; heap := h |}) in
                fst (textureOn {| model := m; heap := h |}) = Normal tt
                /\ coherent (model s')
                /\ get_texture (model s') = get_texture m
                /\ get_alpha (model s') = get_alpha m
                /\ fst (isWireframeOn s')
                   = fst (isWireframeOn {| model := m; heap := h |})
                /\ (isTextureOn (model s') = isTextureOn m ->
                    s' = {| model := m; heap := h |})
                /\ (isTextureOn (model s') <> isTextureOn m ->
                    option_map opacity (shown s') = Some (get_alpha m))
                /\ isTextureOn (model s') = true).
  { intros Hoff Hhas. unfold hasTexture in Hhas.
    destruct (get_texture m) as [tex|] eqn:Ht; [|discriminate Hhas].
    destruct (coherent_material m Hc) as [r Hr].
    destruct (textureOn_run m h tex r Ht Hoff Hr) as (h' & -> & _ & Hcell).
    cbv zeta. cbn [fst snd model]. rewrite Hoff.
    assert (Hnow : isTextureOn
                     {| get_alpha := get_alpha m; get_texture := Some tex;
                        get_textureOn := Some true;
                        get_wireframeOn :=
                          if Bool.eqb (wireframe (cell h tex))
                                      (wireframe (cell h r))
                          then get_wireframeOn m
                          else Some (wireframe (cell h r));
                        get_t_mesh := Some tex |} = true) by reflexivity.
    rewrite Hnow.
    split; [reflexivity|]. split; [unfold coherent; rewrite Hnow; reflexivity|].
    split; [reflexivity|]. split; [reflexivity|]. split.
    { unfold isWireframeOn, andThen, material. cbn. rewrite Hr, Hcell.
      rewrite Nat.eqb_refl. reflexivity. }
    split; [intros H; discriminate H|]. split; [|reflexivity].
    intros _. unfold shown. cbn. rewrite Hcell, Nat.eqb_refl. reflexivity. }
  assert (Hoff : isTextureOn m = true ->
                 let s' := snd (textureOff {| model := m; heap := h |}) in
                 fst (textureOff {| model := m; heap := h |}) = Normal tt
                 /\ coherent (model s')
                 /\ get_texture (model s') = get_texture m
                 /\ get_alpha (model s') = get_alpha m
                 /\ fst (isWireframeOn s')
                    = fst (isWireframeOn {| model := m; heap := h |})
                 /\ (isTextureOn (model s') = isTextureOn m ->
                     s' = {| model := m; heap := h |})
                 /\ (isTextureOn (model s') <> isTextureOn m ->
                     option_map opacity (shown s') = Some (get_alpha m))
                 /\ isTextureOn (model s') = false).
  { intros Hison. destruct (isTextureOn_true m Hison) as (tex & Ht & Hton).
    destruct (coherent_material m Hc) as [r Hr].
    destruct (textureOff_run m h tex r Ht Hton Hr) as (h' & -> & _ & Hcell).
    cbv zeta. cbn [fst snd model]. rewrite Hison.
    assert (Hnow : isTextureOn
                     {| get_alpha := get_alpha m; get_texture := Some tex;
                        get_textureOn := Some false;
                        get_wireframeOn :=
                          if Bool.eqb (wireframe (cell h basicMaterial))
                                      (wireframe (cell h r))
                          then get_wireframeOn m
                          else Some (wireframe (cell h r));
                        get_t_mesh := Some basicMaterial |} = false)
      by reflexivity.
    rewrite Hnow.
    split; [reflexivity|]. split; [unfold coherent; rewrite Hnow; reflexivity|].
    split; [symmetry; exact Ht|]. split; [reflexivity|]. split.
    { unfold isWireframeOn, andThen, material. cbn. rewrite Hr, Hcell.
      reflexivity. }
    split; [intros H; discriminate H|]. split; [|reflexivity].
    intros _. unfold shown. cbn. rewrite Hcell. reflexivity. }
  cbv zeta.
  destruct Hop as [-> | [-> | ->]]; cbn [run_switch].
  - destruct (isTextureOn m) eqn:E1.
    + destruct (Hskip textureOn (textureOn_skip m h (or_introl E1)))
        as (A & B & C & D & E & F & G).
      cbn [model]; rewrite ?E1; do 7 (split; [assumption|]). intros H; discriminate H.
    + destruct (hasTexture m) eqn:E2.
      * destruct (Hon eq_refl eq_refl) as (A & B & C & D & E & F & G & _).
        cbn [model]; rewrite ?E1; do 7 (split; [assumption|]). intros H; discriminate H.
      * destruct (Hskip textureOn (textureOn_skip m h (or_intror E2)))
          as (A & B & C & D & E & F & G).
        cbn [model]; rewrite ?E1; do 7 (split; [assumption|]). intros H; discriminate H.
  - destruct (isTextureOn m) eqn:E1.
    + destruct (Hoff eq_refl) as (A & B & C & D & E & F & G & _).
      cbn [model]; rewrite ?E1; do 7 (split; [assumption|]). intros H; discriminate H.
    + destruct (Hskip textureOff (textureOff_skip m h E1))
        as (A & B & C & D & E & F & G).
      cbn [model]; rewrite ?E1; do 7 (split; [assumption|]). intros H; discriminate H.
  - unfold textureToggle. cbn [model].
    destruct (isTextureOn m) eqn:E1.
    + destruct (Hoff eq_refl) as (A & B & C & D & E & F & G & I).
      cbn [model]; rewrite ?E1; do 7 (split; [assumption|]). intros _ _. exact I.
    + destruct (hasTexture m) eqn:E2.
      * destruct (Hon eq_refl eq_refl) as (A & B & C & D & E & F & G & I).
        cbn [model]; rewrite ?E1; do 7 (split; [assumption|]). intros _ _. exact I.
      * destruct (Hskip textureOn (textureOn_skip m h (or_intror E2)))
          as (A & B & C & D & E & F & G).
        cbn [model]; rewrite ?E1; do 7 (split; [assumption|]). intros _ H; discriminate H.
Qed.

(** The wireframe switches and [changeAlpha] leave the texture attributes
    and the material slot alone. *)
Lemma wireframe_switch_effect s c r :
  get_t_mesh (model s) = Some r ->
  c = do_wireframeOn \/ c = do_wireframeOff \/ c = do_wireframeToggle
  \/ c = do_changeAlpha ->
  let s' := snd (run_switch c s) in
  fst (run_switch c s) = Normal tt
  /\ get_texture (model s') = get_texture (model s)
  /\ get_textureOn (model s') = get_textureOn (model s)
  /\ get_t_mesh (model s') = get_t_mesh (model s)
  /\ get_alpha (model s') = get_alpha (model s).
Proof.
  intros Hr Hop. destruct s as [[a tex ton won tm] h]. cbn in Hr. subst tm.
  cbv zeta.
  destruct Hop as [-> | [-> | [-> | ->]]]; cbn [run_switch]; run_ops;
    destruct (wireframe (cell h r)) eqn:E; run_ops; rewrite ?E; run_ops;
    repeat split.
Qed.

Lemma switch_coherent s c :
  coherent (model s) ->
  fst (run_switch c s) = Normal tt
  /\ coherent (model (snd (run_switch c s)))
  /\ get_texture (model (snd (run_switch c s))) = get_texture (model s).
Proof.
  intros Hc.
  assert (Hw : c = do_wireframeOn \/ c = do_wireframeOff
               \/ c = do_wireframeToggle \/ c = do_changeAlpha ->
               fst (run_switch c s) = Normal tt
               /\ coherent (model (snd (run_switch c s)))
               /\ get_texture (model (snd (run_switch c s)))
                  = get_texture (model s)).
  { intros Hop. destruct (coherent_material _ Hc) as [r Hr].
    destruct (wireframe_switch_effect s c r Hr Hop) as (A & B & C & D & _).
    split; [exact A|]. split; [|exact B].
    unfold coherent, isTextureOn, hasTexture in *.
    rewrite B, C, D. exact Hc. }
  assert (Ht : c = do_textureOn \/ c = do_textureOff \/ c = do_textureToggle ->
               fst (run_switch c s) = Normal tt
               /\ coherent (model (snd (run_switch c s)))
               /\ get_texture (model (snd (run_switch c s)))
                  = get_texture (model s)).
  { intros Hop. destruct (texture_switch_effect s c Hc Hop) as (A & B & C & _).
    split; [|split]; assumption. }
  destruct c; auto 6.
Qed.

Lemma run_switches_coherent cs : forall s,
  coherent (model s) ->
  coherent (model (run_switches cs s))
  /\ get_texture (model (run_switches cs s)) = get_texture (model s).
Proof.
  induction cs as [|c cs IH]; intros s Hc; [split; [exact Hc | reflexivity]|].
  destruct (switch_coherent s c Hc) as (_ & Hc' & Ht).
  destruct (IH _ Hc') as [H1 H2]. cbn [run_switches fold_left].
  split; [exact H1|]. rewrite <- Ht. exact H2.
Qed.

Lemma loaded_coherent h : coherent (model (loaded false h)).
Proof. reflexivity. Qed.

(** Before anything has been parsed the texture switches find no texture
    and return, the others find no mesh and throw; nothing changes. *)
Lemma unparsed_switch s c :
  get_t_mesh (model s) = None -> get_texture (model s) = None ->
  run_switch c s
  = (match c with
     | do_textureOn | do_textureOff | do_textureToggle => Normal tt
     | _ => Throw TypeError
     end, s).
Proof.
  destruct s as [[a tex ton won tm] h]. cbn [model get_t_mesh get_texture].
  intros -> ->. destruct c; reflexivity.
Qed.

Lemma unparsed_switches cs : forall s,
  get_t_mesh (model s) = None -> get_texture (model s) = None ->
  run_switches cs s = s.
Proof.
  induction cs as [|c cs IH]; intros s Hm Ht; [reflexivity|].
  cbn [run_switches fold_left]. rewrite (unparsed_switch s c Hm Ht).
  cbn [snd]. apply IH; assumption.
Qed.

End MeshModelProperties.

(** X18.  On a mesh model whose material is the texture when the texture is
    on and [basicMaterial] otherwise, [textureOn], [textureOff] and
    [textureToggle] return, keep that correspondence, and carry the
    wireframe flag over to the material they switch to: [isWireframeOn]
    answers as before.  When the texture state does not change nothing
    changes at all; when it does, the material now shown has the model's
    alpha as opacity. *)
Theorem texture_switch_keeps_wireframe (s : MeshModel.State)
    (c : MeshModel.Switch) :
  MeshModel.coherent (MeshModel.model s) ->
  c = MeshModel.do_textureOn \/ c = MeshModel.do_textureOff
  \/ c = MeshModel.do_textureToggle ->
  let s' := snd (MeshModel.run_switch c s) in
  fst (MeshModel.run_switch c s) = Normal tt
  /\ MeshModel.coherent (MeshModel.model s')
  /\ fst (MeshModel.isWireframeOn s') = fst (MeshModel.isWireframeOn s)
  /\ (MeshModel.isTextureOn (MeshModel.model s')
      = MeshModel.isTextureOn (MeshModel.model s) -> s' = s)
  /\ (MeshModel.isTextureOn (MeshModel.model s')
      <> MeshModel.isTextureOn (MeshModel.model s) ->
      option_map MeshModel.opacity (MeshModel.shown s')
      = Some (MeshModel.get_alpha (MeshModel.model s))).
Proof.
  intros Hc Hop.
  destruct (texture_switch_effect s c Hc Hop) as (A & B & _ & _ & E & F & G & _).
  cbv zeta. auto.
Qed.

(** X19.  [textureToggle] on a model without a texture does nothing and
    never throws, even before the mesh has been parsed.  On a coherent
    model, toggling twice brings back the material shown, the texture state
    and the wireframe flag. *)
Theorem textureToggle_twice (s : MeshModel.State) :
  (MeshModel.hasTexture (MeshModel.model s) = false ->
   MeshModel.textureToggle s = (Normal tt, s))
  /\ (MeshModel.coherent (MeshModel.model s) ->
      let s1 := snd (MeshModel.textureToggle s) in
      let s2 := snd (MeshModel.textureToggle s1) in
      fst (MeshModel.textureToggle s1) = Normal tt
      /\ MeshModel.get_t_mesh (MeshModel.model s2)
         = MeshModel.get_t_mesh (MeshModel.model s)
      /\ MeshModel.isTextureOn (MeshModel.model s2)
         = MeshModel.isTextureOn (MeshModel.model s)
      /\ fst (MeshModel.isWireframeOn s2) = fst (MeshModel.isWireframeOn s)
      /\ (MeshModel.hasTexture (MeshModel.model s) = true ->
          MeshModel.isTextureOn (MeshModel.model s1)
          = negb (MeshModel.isTextureOn (MeshModel.model s)))).
Proof.
  split.
  - intros Hno. destruct s as [m h]. unfold MeshModel.textureToggle.
    cbn [MeshModel.model] in *. unfold MeshModel.isTextureOn. rewrite Hno.
    cbn [andb]. apply textureOn_skip. right. exact Hno.
  - intros Hc s1 s2.
    destruct (texture_switch_effect s MeshModel.do_textureToggle Hc)
      as (_ & B1 & C1 & _ & E1 & F1 & _ & I1); [auto|].
    cbn [MeshModel.run_switch] in *. fold s1 in B1, C1, E1, F1, I1.
    destruct (texture_switch_effect s1 MeshModel.do_textureToggle B1)
      as (A2 & B2 & C2 & _ & E2 & F2 & _ & I2); [auto|].
    cbn [MeshModel.run_switch] in *. fold s2 in B2, C2, E2, F2, I2.
    assert (Hhas : MeshModel.hasTexture (MeshModel.model s1)
                   = MeshModel.hasTexture (MeshModel.model s))
      by (unfold MeshModel.hasTexture; rewrite C1; reflexivity).
    assert (Hon : MeshModel.isTextureOn (MeshModel.model s2)
                  = MeshModel.isTextureOn (MeshModel.model s)).
    { destruct (MeshModel.hasTexture (MeshModel.model s)) eqn:E.
      - rewrite (I2 eq_refl Hhas), (I1 eq_refl eq_refl).
        apply negb_involutive.
      - unfold MeshModel.isTextureOn.
        replace (MeshModel.hasTexture (MeshModel.model s2)) with false.
        + rewrite E. reflexivity.
        + unfold MeshModel.hasTexture in *. rewrite C2, C1. symmetry.
          exact E. }
    split; [exact A2|]. split.
    { unfold MeshModel.coherent in B2, Hc. rewrite B2, Hc, Hon, C2, C1.
      reflexivity. }
    split; [exact Hon|]. split; [rewrite E2; exact E1|].
    intros H. apply I1; [reflexivity | exact H].
Qed.

(** X20.  Before the mesh has been parsed the wireframe switches and
    [changeAlpha] throw a TypeError and change nothing.  Afterwards
    [wireframeToggle] returns, inverts the wireframe flag of the material
    shown, records the new flag in the [wireframeOn] attribute, sets the
    material's opacity to the model's alpha and touches no other material;
    a second toggle brings the flag back. *)
Theorem wireframeToggle_flips (s : MeshModel.State) :
  (MeshModel.get_t_mesh (MeshModel.model s) = None ->
   forall c, c = MeshModel.do_wireframeOn \/ c = MeshModel.do_wireframeOff
             \/ c = MeshModel.do_wireframeToggle
             \/ c = MeshModel.do_changeAlpha ->
             MeshModel.run_switch c s = (Throw TypeError, s))
  /\ (forall r,
        MeshModel.get_t_mesh (MeshModel.model s) = Some r ->
        let flag := MeshModel.wireframe (MeshModel.cell (MeshModel.heap s) r) in
        let s1 := snd (MeshModel.wireframeToggle s) in
        let s2 := snd (MeshModel.wireframeToggle s1) in
        fst (MeshModel.wireframeToggle s) = Normal tt
        /\ fst (MeshModel.isWireframeOn s) = Normal flag
        /\ fst (MeshModel.isWireframeOn s1) = Normal (negb flag)
        /\ fst (MeshModel.isWireframeOn s2) = Normal flag
        /\ MeshModel.get_wireframeOn (MeshModel.model s1) = Some (negb flag)
        /\ MeshModel.opacity (MeshModel.cell (MeshModel.heap s1) r)
           = MeshModel.get_alpha (MeshModel.model s)
        /\ forall r', r' <> r ->
                      MeshModel.cell (MeshModel.heap s1) r'
                      = MeshModel.cell (MeshModel.heap s) r').
Proof.
  split.
  - intros Hn c Hop. destruct s as [m h]. cbn [MeshModel.model] in Hn.
    destruct Hop as [-> | [-> | [-> | ->]]]; cbn [MeshModel.run_switch];
      unfold MeshModel.wireframeOn, MeshModel.wireframeOff,
        MeshModel.wireframeToggle, MeshModel.changeAlpha,
        MeshModel.isWireframeOn, MeshModel.material, MeshModel.andThen;
      cbn [MeshModel.model]; rewrite Hn; reflexivity.
  - intros r Hr flag s1 s2. destruct s as [m h].
    cbn [MeshModel.model MeshModel.heap] in *.
    destruct (wireframeToggle_run m h r Hr) as (h1 & H1 & _ & Hcell1).
    cbv zeta in H1. fold flag in H1, Hcell1.
    assert (Hs1 : s1 = {| MeshModel.model := MeshModel.set_wireframeOn
                                               (negb flag) m;
                          MeshModel.heap := h1 |})
      by (subst s1; rewrite H1; reflexivity).
    assert (Hr1 : MeshModel.get_t_mesh (MeshModel.set_wireframeOn (negb flag) m)
                  = Some r) by exact Hr.
    destruct (wireframeToggle_run _ h1 r Hr1) as (h2 & H2 & _ & Hcell2).
    cbv zeta in H2.
    assert (Hs2 : MeshModel.heap s2 = h2
                  /\ MeshModel.get_t_mesh (MeshModel.model s2) = Some r).
    { subst s2. rewrite Hs1, H2. split; [reflexivity | exact Hr]. }
    destruct Hs2 as [Hh2 Hm2].
    assert (Hread : forall st x,
               MeshModel.get_t_mesh (MeshModel.model st) = Some x ->
               fst (MeshModel.isWireframeOn st)
               = Normal (MeshModel.wireframe
                           (MeshModel.cell (MeshModel.heap st) x))).
    { intros st x Hx. unfold MeshModel.isWireframeOn, MeshModel.andThen,
        MeshModel.material. rewrite Hx. reflexivity. }
    split; [rewrite H1; reflexivity|].
    split; [apply (Hread {| MeshModel.model := m; MeshModel.heap := h |} r Hr)|].
    split.
    { rewrite (Hread s1 r) by (rewrite Hs1; exact Hr).
      rewrite Hs1. cbn [MeshModel.heap]. rewrite Hcell1, Nat.eqb_refl.
      reflexivity. }
    split.
    { rewrite (Hread s2 r Hm2), Hh2, Hcell2, Nat.eqb_refl.
      cbn [MeshModel.wireframe]. rewrite Hcell1, Nat.eqb_refl.
      cbn [MeshModel.wireframe]. rewrite negb_involutive. reflexivity. }
    rewrite Hs1. cbn [MeshModel.model MeshModel.heap].
    split; [reflexivity|]. split.
    { rewrite Hcell1, Nat.eqb_refl. reflexivity. }
    intros r' Hne. rewrite Hcell1.
    destruct (Nat.eqb r' r) eqn:E; [|reflexivity].
    apply Nat.eqb_eq in E. contradiction.
Qed.

(** X21.  [basicMaterial] is one object for all mesh models, so two models
    that show it share its wireframe flag and its opacity: toggling the
    wireframe on one inverts what [isWireframeOn] answers on the other,
    whose own attributes were not touched, and [changeAlpha] on one sets
    the opacity the other is rendered with.  A mesh parsed without texture
    coordinates shows [basicMaterial]. *)
Theorem basicMaterial_is_shared (a b : MeshModel.t) (h : MeshModel.Heap) :
  MeshModel.get_t_mesh a = Some MeshModel.basicMaterial ->
  MeshModel.get_t_mesh b = Some MeshModel.basicMaterial ->
  let flag := MeshModel.wireframe (MeshModel.cell h MeshModel.basicMaterial) in
  let toggled :=
    MeshModel.heap (snd (MeshModel.wireframeToggle
                           {| MeshModel.model := a; MeshModel.heap := h |})) in
  let faded :=
    MeshModel.heap (snd (MeshModel.changeAlpha
                           {| MeshModel.model := a; MeshModel.heap := h |})) in
  fst (MeshModel.isWireframeOn {| MeshModel.model := b; MeshModel.heap := h |})
  = Normal flag
  /\ fst (MeshModel.isWireframeOn
            {| MeshModel.model := b; MeshModel.heap := toggled |})
     = Normal (negb flag)
  /\ option_map MeshModel.opacity
       (MeshModel.shown {| MeshModel.model := b; MeshModel.heap := faded |})
     = Some (MeshModel.get_alpha a)
  /\ (forall h0,
        MeshModel.get_t_mesh (MeshModel.model (MeshModel.loaded false h0))
        = Some MeshModel.basicMaterial).
Proof.
  intros Ha Hb flag toggled faded.
  destruct (wireframeToggle_run a h _ Ha) as (h1 & H1 & _ & Hcell1).
  cbv zeta in H1. subst toggled faded. rewrite H1. cbn [snd MeshModel.heap].
  assert (Hread : forall h',
             fst (MeshModel.isWireframeOn
                    {| MeshModel.model := b; MeshModel.heap := h' |})
             = Normal (MeshModel.wireframe
                         (MeshModel.cell h' MeshModel.basicMaterial))).
  { intros h'. unfold MeshModel.isWireframeOn, MeshModel.andThen,
      MeshModel.material. cbn [MeshModel.model]. rewrite Hb. reflexivity. }
  split; [apply Hread|]. split; [rewrite Hread, Hcell1; reflexivity|].
  split; [|intros h0; reflexivity].
  unfold MeshModel.changeAlpha, MeshModel.andThen, MeshModel.material.
  cbn [MeshModel.model]. rewrite Ha.
  unfold MeshModel.shown. cbn [MeshModel.model]. rewrite Hb. reflexivity.
Qed.

(** X22.  [parse] of a response with texture coordinates throws a
    TypeError at [new THREE.UVMapping()] and sets nothing, so after such a
    fetch the model is as it was created, whatever is switched: the texture
    switches return and do nothing, the wireframe switches and
    [changeAlpha] throw for want of a mesh.  A mesh fetched without
    texture coordinates and then switched any number of times (texture,
    wireframe, alpha) never throws, never has a texture and never leaves
    [basicMaterial]. *)
Theorem fetched_model_switches (h : MeshModel.Heap)
    (cs : list MeshModel.Switch) (c : MeshModel.Switch) :
  (forall s, MeshModel.parse true s = (Throw TypeError, s))
  /\ (let s := MeshModel.run_switches cs (MeshModel.loaded true h) in
      s = {| MeshModel.model := MeshModel.defaults; MeshModel.heap := h |}
      /\ MeshModel.run_switch c s
         = (match c with
            | MeshModel.do_textureOn | MeshModel.do_textureOff
            | MeshModel.do_textureToggle => Normal tt
            | _ => Throw TypeError
            end, s))
  /\ (let s := MeshModel.run_switches cs (MeshModel.loaded false h) in
      fst (MeshModel.run_switch c s) = Normal tt
      /\ MeshModel.get_texture (MeshModel.model s) = None
      /\ MeshModel.isTextureOn (MeshModel.model s) = false
      /\ MeshModel.get_t_mesh (MeshModel.model s)
         = Some MeshModel.basicMaterial).
Proof.
  split; [intros s; reflexivity|]. split.
  - intros s.
    assert (Hs : s = {| MeshModel.model := MeshModel.defaults;
                        MeshModel.heap := h |})
      by (apply unparsed_switches; reflexivity).
    split; [exact Hs|]. rewrite Hs. apply unparsed_switch; reflexivity.
  - intros s.
    destruct (run_switches_coherent cs (MeshModel.loaded false h)
                (loaded_coherent h)) as [Hc Ht].
    fold s in Hc, Ht.
    assert (Hoff : MeshModel.isTextureOn (MeshModel.model s) = false)
      by (unfold MeshModel.isTextureOn, MeshModel.hasTexture;
          rewrite Ht; reflexivity).
    split; [apply (switch_coherent s c Hc)|].
    split; [exact Ht|]. split; [exact Hoff|].
    unfold MeshModel.coherent in Hc. rewrite Hc, Hoff. reflexivity.
Qed.

Lemma texture_switch_keeps_wireframe_witness :
  let s := MeshModel.sample_textured in
  let s' := snd (MeshModel.run_switch MeshModel.do_textureOff s) in
  MeshModel.coherent (MeshModel.model s)
  /\ MeshModel.isTextureOn (MeshModel.model s') = false
  /\ MeshModel.get_t_mesh (MeshModel.model s')
     = Some MeshModel.basicMaterial
  /\ fst (MeshModel.isWireframeOn s') = fst (MeshModel.isWireframeOn s).
Proof.
  assert (Hc : MeshModel.coherent (MeshModel.model MeshModel.sample_textured))
    by reflexivity.
  split; [exact Hc|]. split; [reflexivity|]. split; [reflexivity|].
  exact (proj1 (proj2 (proj2
           (texture_switch_keeps_wireframe
              MeshModel.sample_textured
              MeshModel.do_textureOff Hc (or_intror (or_introl eq_refl)))))).
Defined.

Lemma basicMaterial_is_shared_witness :
  let a := MeshModel.model (MeshModel.loaded false MeshModel.initial_heap) in
  let b := MeshModel.sample_faded in
  fst (MeshModel.isWireframeOn
         {| MeshModel.model := b;
            MeshModel.heap :=
              MeshModel.heap
                (snd (MeshModel.wireframeToggle
                        {| MeshModel.model := a;
                           MeshModel.heap := MeshModel.initial_heap |})) |})
  = Normal true.
Proof.
  exact (proj1 (proj2
           (basicMaterial_is_shared
              (MeshModel.model (MeshModel.loaded false MeshModel.initial_heap))
              MeshModel.sample_faded
              MeshModel.initial_heap eq_refl eq_refl))).
Defined.

(** * The mesh source *)

Section MeshSourceProperties.
Import MeshSource.

Lemma abort_each_spec p : forall a x,
  abort_each p a x = existsb (fun kv => Nat.eqb x (snd kv)) p || a x.
Proof.
  unfold abort_each.
  induction p as [|kv p IH]; intros a x; cbn [fold_left existsb].
  - reflexivity.
  - rewrite IH. destruct (Nat.eqb x (snd kv)); cbn.
    + rewrite orb_true_r. reflexivity.
    + reflexivity.
Qed.

(** Which requests end up aborted does not depend on the order in which
    the table is enumerated. *)
Lemma abort_each_any_order p q a x :
  (forall kv, In kv p <-> In kv q) ->
  abort_each p a x = abort_each q a x.
Proof.
  intros H. rewrite !abort_each_spec. f_equal.
  apply eq_true_iff_eq. rewrite !existsb_exists.
  split; intros (kv & Hin & Hx); exists kv; (split; [apply H, Hin | exact Hx]).
Qed.

Lemma filter_assign (f : string * nat -> bool) id x p :
  (forall kv, In kv p -> f kv = false) -> f (id, x) = true ->
  filter f (assign id x p) = [(id, x)].
Proof.
  intros Hp Hx. induction p as [|[k v] p IH]; cbn [assign filter].
  - rewrite Hx. reflexivity.
  - destruct (String.eqb k id).
    + cbn [filter]. rewrite Hx. f_equal.
      assert (Hnone : forall q, (forall kv, In kv q -> f kv = false) ->
                                filter f q = []).
      { induction q as [|kv q IHq]; intros Hq; [reflexivity|].
        cbn [filter]. rewrite (Hq kv (or_introl eq_refl)).
        apply IHq. intros kv' Hin. apply Hq. right. exact Hin. }
      apply Hnone. intros kv Hin. apply Hp. right. exact Hin.
    + cbn [filter]. rewrite (Hp (k, v) (or_introl eq_refl)).
      apply IH. intros kv Hin. apply Hp. right. exact Hin.
Qed.

Lemma length_assign id x p :
  (List.length p <= List.length (assign id x p))%nat.
Proof.
  induction p as [|[k v] p IH]; cbn [assign List.length]; [lia|].
  destruct (String.eqb k id); cbn [List.length]; lia.
Qed.

Lemma In_assign id x p kv :
  In kv (assign id x p) -> kv = (id, x) \/ In kv p.
Proof.
  induction p as [|[k v] p IH]; cbn [assign].
  - intros [<-|[]]. left. reflexivity.
  - destruct (String.eqb k id).
    + intros [<-|H]; [left; reflexivity | right; right; exact H].
    + intros [<-|H]; [right; left; reflexivity|].
      destruct (IH H) as [->|H']; [left; reflexivity | right; right; exact H'].
Qed.

Lemma run_event_issued s e : issued s -> issued (run_event s e).
Proof.
  intros [Hp Ha]. destruct e as [id|id]; cbn [run_event].
  - split; cbn [setAsset pending aborted next_request].
    + intros kv Hin. apply In_assign in Hin.
      destruct Hin as [->|Hin]; [cbn; lia|].
      specialize (Hp kv Hin). lia.
    + intros x Hx. rewrite abort_each_spec in Hx.
      apply orb_true_iff in Hx. destruct Hx as [Hx|Hx].
      * apply existsb_exists in Hx. destruct Hx as (kv & Hin & E).
        apply Nat.eqb_eq in E. subst x. specialize (Hp kv Hin). lia.
      * specialize (Ha x Hx). lia.
  - split; cbn [fetch_success pending aborted next_request].
    + intros kv Hin. apply filter_In in Hin. apply Hp, Hin.
    + exact Ha.
Qed.

Lemma run_events_issued es : forall s, issued s -> issued (run_events es s).
Proof.
  induction es as [|e es IH]; intros s H; [exact H|].
  apply IH, run_event_issued, H.
Qed.

Lemma setAsset_live id s :
  issued s -> live (setAsset id s) = [(id, next_request s)].
Proof.
  intros [Hp Ha]. unfold live. cbn [setAsset pending aborted].
  apply filter_assign.
  - intros kv Hin. cbn. rewrite abort_each_spec.
    assert (E : existsb (fun kv' => Nat.eqb (snd kv) (snd kv')) (pending s)
                = true).
    { apply existsb_exists. exists kv. split; [exact Hin|].
      apply Nat.eqb_refl. }
    rewrite E. reflexivity.
  - cbn. rewrite abort_each_spec.
    assert (E : existsb (fun kv' => Nat.eqb (next_request s) (snd kv'))
                        (pending s) = false).
    { destruct (existsb _ (pending s)) eqn:X; [|reflexivity].
      apply existsb_exists in X. destruct X as (kv & Hin & E).
      apply Nat.eqb_eq in E. specialize (Hp kv Hin). lia. }
    rewrite E. destruct (aborted s (next_request s)) eqn:A; [|reflexivity].
    specialize (Ha _ A). lia.
Qed.

Lemma fetch_success_live id s :
  live (fetch_success id s)
  = filter (fun kv => negb (String.eqb (fst kv) id)) (live s).
Proof.
  unfold live, fetch_success, delete. cbn [pending aborted].
  induction (pending s) as [|kv p IH]; [reflexivity|].
  cbn [filter].
  destruct (negb (String.eqb (fst kv) id)) eqn:E1;
    destruct (negb (aborted s (snd kv))) eqn:E2;
    cbn [filter]; rewrite ?E1, ?E2, IH; reflexivity.
Qed.

Lemma run_events_live es : forall s,
  issued s -> (List.length (live s) <= 1)%nat ->
  (List.length (live (run_events es s)) <= 1)%nat.
Proof.
  induction es as [|e es IH]; intros s Hi Hl; [exact Hl|].
  cbn [run_events fold_left]. apply IH; [apply run_event_issued, Hi|].
  destruct e as [id|id]; cbn [run_event].
  - rewrite (setAsset_live id s Hi). cbn. lia.
  - rewrite fetch_success_live.
    pose proof (filter_length_le
                  (fun kv : string * nat => negb (String.eqb (fst kv) id))
                  (live s)). lia.
Qed.

Lemma issued_idle : issued idle.
Proof. split; [intros kv [] | intros x H; discriminate H]. Qed.

End MeshSourceProperties.

(** X23.  From a source where at most one pending request is live,
    however [setAsset] calls and success callbacks interleave, at most one
    request in the table of pending requests has not been aborted.  Right
    after [setAsset] that one is the request just started for the new mesh.
    [setAsset] itself never takes an entry out of the table: an aborted
    request stays until a fetch for its id succeeds, whose callback makes
    the mesh the current asset and removes the entry. *)
Theorem at_most_one_live_request (s0 : MeshSource.t)
    (events : list MeshSource.Event) :
  MeshSource.issued s0 ->
  (List.length (MeshSource.live s0) <= 1)%nat ->
  let s := MeshSource.run_events events s0 in
  (List.length (MeshSource.live s) <= 1)%nat
  /\ (forall id,
        MeshSource.live (MeshSource.setAsset id s)
        = [(id, MeshSource.next_request s)]
        /\ (List.length (MeshSource.pending s)
            <= List.length (MeshSource.pending (MeshSource.setAsset id s)))%nat)
  /\ (forall id,
        let s' := MeshSource.fetch_success id s in
        MeshSource.get_asset s' = Some id
        /\ MeshSource.get_mesh s' = Some id
        /\ (forall xhr, ~ In (id, xhr) (MeshSource.pending s'))
        /\ (forall k xhr, k <> id -> In (k, xhr) (MeshSource.pending s) ->
                          In (k, xhr) (MeshSource.pending s'))).
Proof.
  intros Hi0 Hl0 s.
  assert (Hi : MeshSource.issued s) by apply run_events_issued, Hi0.
  split; [apply run_events_live; assumption|].
  split.
  - intros id. split; [apply setAsset_live, Hi | apply length_assign].
  - intros id. cbv zeta. split; [reflexivity|]. split; [reflexivity|].
    split.
    + intros xhr Hin. cbn in Hin. apply filter_In in Hin.
      destruct Hin as [_ H]. cbn in H. rewrite String.eqb_refl in H.
      discriminate H.
    + intros k xhr Hne Hin. cbn. apply filter_In. split; [exact Hin|].
      cbn. apply negb_true_iff, String.eqb_neq, Hne.
Qed.

Lemma at_most_one_live_request_witness :
  let s := MeshSource.run_events
             [MeshSource.ev_setAsset "a"; MeshSource.ev_setAsset "b"]
             MeshSource.idle in
  List.length (MeshSource.pending s) = 2%nat
  /\ (List.length (MeshSource.live s) <= 1)%nat.
Proof.
  split; [reflexivity|].
  assert (H1 : MeshSource.issued MeshSource.idle) by apply issued_idle.
  assert (H2 : (List.length (MeshSource.live MeshSource.idle) <= 1)%nat)
    by (cbn; lia).
  exact (proj1 (at_most_one_live_request MeshSource.idle
                  [MeshSource.ev_setAsset "a"; MeshSource.ev_setAsset "b"]
                  H1 H2)).
Defined.

(** ** Flipping the up vector *)

(** X24.  When the new up vector is the opposite of a canonical up vector,
    their sum vanishes, the loop of [pointUp] stops at its first axis, and
    the rotation is by minus pi about (1,0,0), whichever axis is being
    flipped: also when the up vector is (1,0,0) or (-1,0,0) itself, where
    the rotation axis is the line of the up vector. *)
Theorem pointUp_flip_rotates_about_X (v : Vector3.t) (st : Viewport)
    (n : VectorObj) :
  In (_upVector st) COORDS ->
  mainDirection (Vector3.normalize v) = Some n ->
  same_object n (_upVector st) = false ->
  JS.strict_eq
    (Vector3.length (Vector3.addVectors (vec n) (vec (_upVector st)))) 0
  = true ->
  let st1 := snd (pointUp v st) in
  fst (pointUp v st) = Normal tt
  /\ _upVector st1 = n
  /\ s_scaleRotate st1
     = Object3D.rotateOnAxis (s_scaleRotate st) (vec3 1 0 0)
                             (-1 * JS.Math_PI)
  /\ s_h_scaleRotate st1
     = Object3D.rotateOnAxis (s_h_scaleRotate st) (vec3 1 0 0)
                             (-1 * JS.Math_PI)
  /\ Vector3.equals (vec n) (Vector3.multiplyScalar (vec (_upVector st)) (-1))
     = true.
Proof.
  intros Hup Hn Hdiff Hzero.
  assert (Hin : In n COORDS).
  { destruct (mainDirection_canonical (Vector3.normalize v)) as (c & Hc & Hin).
    rewrite Hn in Hc. injection Hc as <-. exact Hin. }
  destruct (pointUp_rotation v st n Hup Hn Hdiff)
    as (axis & Hax & _ & s1 & Hrun & Hup1 & Hsr1 & Hhsr1).
  rewrite Hzero in Hsr1, Hhsr1.
  cbv zeta. rewrite Hrun. cbn [fst snd].
  assert (Haxis : vec axis = vec3 1 0 0
                  /\ Vector3.equals (vec n)
                       (Vector3.multiplyScalar (vec (_upVector st)) (-1))
                     = true).
  { clear - Hup Hin Hax Hzero.
    destruct (_upVector st) as [ua uv]. unfold COORDS in Hup, Hin.
    cbn [In] in Hup, Hin.
    repeat match goal with
           | H : _ \/ _ |- _ => destruct H
           | H : False |- _ => destruct H
           end;
      repeat match goal with
             | H : {| addr := _; vec := _ |} = _ |- _ =>
                 first [injection H as <- <- | subst n]
             end;
      vm_compute in Hzero; try discriminate Hzero;
      vm_compute in Hax; injection Hax as <-; split; vm_compute; reflexivity. }
  destruct Haxis as [Ha He]. rewrite Ha in Hsr1, Hhsr1.
  repeat split; assumption.
Qed.

Lemma pointUp_flip_rotates_about_X_witness :
  let st := snd (pointUp (vec3 1 0 0) sample_viewport) in
  vec (_upVector st) = vec3 1 0 0
  /\ s_scaleRotate (snd (pointUp (vec3 (-1) 0 0) st))
     = Object3D.rotateOnAxis (s_scaleRotate st) (vec3 1 0 0)
                             (-1 * JS.Math_PI).
Proof.
  set (st := snd (pointUp (vec3 1 0 0) sample_viewport)).
  assert (H0 : vec (_upVector st) = vec3 1 0 0) by (vm_compute; reflexivity).
  assert (H1 : In (_upVector st) COORDS)
    by (vm_compute; left; reflexivity).
  assert (H2 : mainDirection (Vector3.normalize (vec3 (-1) 0 0))
               = Some {| addr := 1; vec := vec3 (-1) 0 0 |})
    by (vm_compute; reflexivity).
  assert (H3 : same_object {| addr := 1; vec := vec3 (-1) 0 0 |}
                           (_upVector st) = false)
    by (vm_compute; reflexivity).
  assert (H4 : JS.strict_eq
                 (Vector3.length
                    (Vector3.addVectors
                       (vec {| addr := 1; vec := vec3 (-1) 0 0 |})
                       (vec (_upVector st)))) 0 = true)
    by (vm_compute; reflexivity).
  split; [exact H0|].
  exact (proj1 (proj2 (proj2
           (pointUp_flip_rotates_about_X (vec3 (-1) 0 0) st _ H1 H2 H3 H4)))).
Defined.

(** ** What construction renders *)

Lemma trigger_unsubscribed em ev st :
  filter (listens em ev) (listeners st) = [] -> trigger em ev st = st.
Proof. intros H. unfold trigger. rewrite fold_listeners_filter, H. reflexivity. Qed.

Lemma frame_ext a b :
  container_width a = container_width b ->
  container_height a = container_height b ->
  s_camera a = s_camera b ->
  showConnectivity a = showConnectivity b ->
  frame a = frame b.
Proof.
  intros Hw Hh Hc Hs.
  unfold frame, main_pass, pip_pass, pipBounds, width, height.
  rewrite Hw, Hh, Hc, Hs. reflexivity.
Qed.

(** An atomic operation on a viewport that has not subscribed to the
    counter runs its body and nothing else. *)
Lemma atomicOperation_unsubscribed f st :
  filter (listens e_atomic CHANGE_ATOMIC_OPERATION) (listeners st) = [] ->
  (forall s, listeners (f s) = listeners s) ->
  (forall s d, f (set_ATOMIC_OPERATION d s) = set_ATOMIC_OPERATION d (f s)) ->
  atomicOperation (modify f) st = (Normal tt, f st).
Proof.
  intros Hl Hf Hd.
  assert (Hkeep : ATOMIC_OPERATION (f st) = ATOMIC_OPERATION st).
  { rewrite <- (set_ATOMIC_OPERATION_same st) at 1. rewrite Hd. reflexivity. }
  unfold atomicOperation, modify, startAtomicOperation,
    endAtomicOperation, set_depth.
  rewrite (trigger_unsubscribed _ _ (set_ATOMIC_OPERATION _ st)) by exact Hl.
  rewrite trigger_unsubscribed
    by (cbn [listeners set_ATOMIC_OPERATION]; rewrite Hf; exact Hl).
  f_equal. rewrite Hd. cbn [ATOMIC_OPERATION set_ATOMIC_OPERATION].
  replace (ATOMIC_OPERATION st + 1 - 1)%Z with (ATOMIC_OPERATION (f st))
    by (rewrite Hkeep; lia).
  destruct (f st); reflexivity.
Qed.

(** Without a renderer nothing of [resize] happens after the failed call;
    with one, the size is set and a frame rendered. *)
Lemma resize_renders st calls :
  renderer st = Some calls ->
  resize st
  = (Normal tt,
     update (set_renderer (Some (calls ++ [setSize (width st) (height st)]))
                          st)).
Proof.
  intros Hr. destruct (resize_cases st) as [[E _]|(calls' & E & ->)];
    congruence.
Qed.

(** X25.  Construction at depth zero returns, and these are all the calls
    it makes on the renderer, in order: [setPixelRatio] with the window's
    ratio (1 when it has none or a falsy one) and [setClearColor] with the
    main colour when the renderer is created; one frame from [changeMesh]
    when the model already has a mesh; [setSize] with the container's size
    and one frame from [resize].  The two display updates run as atomic
    operations before the viewport has subscribed to the counter, so they
    render nothing.  A frame is: viewport and scissor on the whole canvas,
    [clear], [render] of the scene with the camera of the model's mode and,
    with connectivity shown, [clearDepth] and [render] of the helper scene;
    in orthographic mode the same follows for the zoom camera on the PIP
    rectangle, between the two [setClearColor].  The frame from
    [changeMesh] never includes the helper scene, because
    [showConnectivity] is assigned only afterwards; the last frame has the
    model's connectivity setting. *)
Theorem initialize_renders (env : Environment) :
  env_depth env = 0%Z ->
  let st := snd (initialize env) in
  let w := env_width env in
  let h := env_height env in
  let camera := if env_meshMode env then s_pCam_ref else s_oCam_ref in
  let shown (helpers : bool) (c : CameraRef) :=
    [clear; render scene_ref c]
    ++ (if helpers then [clearDepth; render sceneHelpers_ref c] else []) in
  let drawn (helpers : bool) :=
    [setViewport 0 0 w h; setScissor 0 0 w h; enableScissorTest true]
    ++ shown helpers camera
    ++ (if env_meshMode env then []
        else [setClearColor CLEAR_COLOUR_PIP 1;
              setViewport (w - PIP_WIDTH) (h - PIP_HEIGHT)
                          PIP_WIDTH PIP_HEIGHT;
              setScissor (w - PIP_WIDTH) (h - PIP_HEIGHT)
                         PIP_WIDTH PIP_HEIGHT;
              enableScissorTest true]
             ++ shown helpers s_oCamZoom_ref
             ++ [setClearColor CLEAR_COLOUR 1]) in
  fst (initialize env) = Normal tt
  /\ showConnectivity st = env_connectivityOn env
  /\ s_camera st = camera
  /\ ctxBox st = EMPTY_BOX
  /\ ATOMIC_OPERATION st = 0%Z
  /\ renderer st
     = Some ([setPixelRatio
                match env_devicePixelRatio env with
                | Some ratio => JS.logical_or ratio 1
                | None => 1
                end;
              setClearColor CLEAR_COLOUR 1]
             ++ match env_mesh env with
                | Some _ => drawn false
                | None => []
                end
             ++ [setSize w h]
             ++ drawn (env_connectivityOn env)).
Proof.
  intros Hd st w h camera shown drawn.
  assert (Hframe : forall s,
            container_width s = w -> container_height s = h ->
            s_camera s = camera ->
            frame s = drawn (showConnectivity s)).
  { intros s Hw Hh Hc.
    unfold frame, main_pass, pip_pass, pipBounds, width, height.
    rewrite Hw, Hh, Hc. subst drawn shown camera. cbv beta zeta.
    cbn [b_x b_y b_width b_height].
    destruct (env_meshMode env), (showConnectivity s); reflexivity. }
  clearbody drawn. clear shown.
  subst st. unfold initialize.
  set (st3 := set_renderer (Some (renderer_created env))
                (resetCamera
                   (if env_meshMode env then fresh_viewport env
                    else toggleCamera (fresh_viewport env)))).
  assert (Hpre : ((if env_meshMode env then ret tt else modify toggleCamera);;
                  modify resetCamera;;
                  modify (set_renderer (Some (renderer_created env)));;
                  changeMesh (env_mesh env);;
                  modify (set_showConnectivity true);;
                  updateConnectivityDisplay (env_connectivityOn env);;
                  updateEditingDisplay;;
                  modify (listenTo e_atomic CHANGE_ATOMIC_OPERATION
                                   h_batchHandler);;
                  resize) (fresh_viewport env)
                 = (changeMesh (env_mesh env);;
                    modify (set_showConnectivity true);;
                    updateConnectivityDisplay (env_connectivityOn env);;
                    updateEditingDisplay;;
                    modify (listenTo e_atomic CHANGE_ATOMIC_OPERATION
                                     h_batchHandler);;
                    resize) st3).
  { subst st3. destruct (env_meshMode env); reflexivity. }
  rewrite Hpre. clear Hpre.
  assert (H3 : renderer st3 = Some (renderer_created env)
               /\ ATOMIC_OPERATION st3 = 0%Z
               /\ filter (listens e_atomic CHANGE_ATOMIC_OPERATION)
                         (listeners st3) = []
               /\ showConnectivity st3 = false
               /\ s_camera st3 = camera
               /\ container_width st3 = w
               /\ container_height st3 = h
               /\ mesh st3 = None).
  { subst st3 camera w h. destruct (env_meshMode env); cbn; rewrite ?Hd;
      repeat split. }
  clearbody st3.
  destruct H3 as (Hr & Hdep & Hl & Hs & Hc & Hw & Hh & Hm).
  set (st4 := snd (changeMesh (env_mesh env) st3)).
  assert (H4 : changeMesh (env_mesh env) st3 = (Normal tt, st4)
               /\ ATOMIC_OPERATION st4 = 0%Z
               /\ listeners st4 = listeners st3
               /\ s_camera st4 = s_camera st3
               /\ container_width st4 = container_width st3
               /\ container_height st4 = container_height st3
               /\ renderer st4
                  = Some (renderer_created env
                          ++ match env_mesh env with
                             | Some _ => frame st3
                             | None => []
                             end)).
  { subst st4. destruct (env_mesh env) as [p|].
    - rewrite (changeMesh_install p st3 _ Hr). cbn [snd].
      destruct (install_mesh_display p st3) as (Ic & Ir & _ & Il & _).
      assert (Iw : container_width (install_mesh p st3) = container_width st3
                   /\ container_height (install_mesh p st3)
                      = container_height st3
                   /\ showConnectivity (install_mesh p st3)
                      = showConnectivity st3
                   /\ ATOMIC_OPERATION (install_mesh p st3)
                      = ATOMIC_OPERATION st3).
      { unfold install_mesh, removeMeshIfPresent. cbv zeta. rewrite Hm.
        destruct (isBufferGeometry (geometry (payload_mesh p)));
          repeat split. }
      destruct Iw as (Iw & Ih & Is & Id).
      rewrite (update_renders (install_mesh p st3) (renderer_created env))
        by (try (rewrite Ir; exact Hr);
            unfold atomicOperationUnderway; rewrite Id, Hdep; reflexivity).
      cbn [ATOMIC_OPERATION listeners s_camera container_width
           container_height renderer set_renderer].
      rewrite (frame_ext (install_mesh p st3) st3 Iw Ih Ic Is).
      repeat split; try assumption. rewrite Id. exact Hdep.
    - rewrite (changeMesh_null st3 _ Hr). cbn [snd].
      unfold removeMeshIfPresent. rewrite Hm. rewrite app_nil_r.
      repeat split; assumption. }
  rewrite (Hframe st3 Hw Hh Hc), Hs in H4.
  clearbody st4.
  destruct H4 as (Hrun4 & Hd4 & Hl4 & Hc4 & Hw4 & Hh4 & Hr4).
  set (st7 := clearCanvas
                (set_showConnectivity (env_connectivityOn env)
                   (set_showConnectivity true st4))).
  set (st8 := listenTo e_atomic CHANGE_ATOMIC_OPERATION h_batchHandler st7).
  assert (Hrun : (changeMesh (env_mesh env);;
                  modify (set_showConnectivity true);;
                  updateConnectivityDisplay (env_connectivityOn env);;
                  updateEditingDisplay;;
                  modify (listenTo e_atomic CHANGE_ATOMIC_OPERATION
                                   h_batchHandler);;
                  resize) st3
                 = resize st8).
  { unfold bind at 1. rewrite Hrun4.
    unfold bind at 1. unfold modify at 1.
    unfold bind at 1. unfold updateConnectivityDisplay.
    rewrite atomicOperation_unsubscribed;
      [| cbn [listeners set_showConnectivity]; rewrite Hl4; exact Hl
       | intros; reflexivity | intros; reflexivity].
    unfold bind at 1. unfold updateEditingDisplay.
    rewrite atomicOperation_unsubscribed;
      [| cbn [listeners set_showConnectivity]; rewrite Hl4; exact Hl
       | intros; reflexivity | intros; reflexivity].
    reflexivity. }
  rewrite Hrun. clear Hrun.
  assert (Hr8 : renderer st8 = renderer st4) by reflexivity.
  assert (Hd8 : ATOMIC_OPERATION st8 = ATOMIC_OPERATION st4) by reflexivity.
  assert (Hs8 : showConnectivity st8 = env_connectivityOn env) by reflexivity.
  assert (Hc8 : s_camera st8 = s_camera st4) by reflexivity.
  assert (Hb8 : ctxBox st8 = EMPTY_BOX) by reflexivity.
  assert (Hw8 : container_width st8 = container_width st4) by reflexivity.
  assert (Hh8 : container_height st8 = container_height st4) by reflexivity.
  clearbody st8. clear st7.
  rewrite (resize_renders st8 _ (eq_trans Hr8 Hr4)).
  set (st9 := set_renderer _ st8).
  assert (Hr9 : renderer st9 = Some ((renderer_created env
                   ++ match env_mesh env with
                      | Some _ => drawn false
                      | None => []
                      end) ++ [setSize (width st8) (height st8)]))
    by reflexivity.
  assert (H9 : ATOMIC_OPERATION st9 = ATOMIC_OPERATION st8
               /\ showConnectivity st9 = showConnectivity st8
               /\ s_camera st9 = s_camera st8
               /\ ctxBox st9 = ctxBox st8
               /\ container_width st9 = container_width st8
               /\ container_height st9 = container_height st8)
    by (repeat split).
  clearbody st9. destruct H9 as (Hd9 & Hs9 & Hc9 & Hb9 & Hw9 & Hh9).
  assert (Hcw : container_width st9 = w) by congruence.
  assert (Hch : container_height st9 = h) by congruence.
  assert (Hcc : s_camera st9 = camera) by congruence.
  rewrite (update_renders st9 _ Hr9)
    by (unfold atomicOperationUnderway; rewrite Hd9, Hd8, Hd4; reflexivity).
  cbn [fst snd showConnectivity s_camera ctxBox ATOMIC_OPERATION renderer
       set_renderer].
  split; [reflexivity|]. split; [congruence|].
  split; [exact Hcc|]. split; [congruence|].
  split; [congruence|].
  rewrite (Hframe st9 Hcw Hch Hcc), Hs9, Hs8.
  unfold width, height. rewrite Hw8, Hw4, Hw, Hh8, Hh4, Hh.
  unfold renderer_created, pixelRatio.
  rewrite <- !app_assoc. reflexivity.
Qed.

Lemma initialize_renders_witness :
  renderer (snd (initialize sample_mesh_environment))
  = Some [setPixelRatio 1; setClearColor CLEAR_COLOUR 1;
          setViewport 0 0 800 600; setScissor 0 0 800 600;
          enableScissorTest true; clear; render scene_ref s_pCam_ref;
          setSize 800 600;
          setViewport 0 0 800 600; setScissor 0 0 800 600;
          enableScissorTest true; clear; render scene_ref s_pCam_ref;
          clearDepth; render sceneHelpers_ref s_pCam_ref].
Proof.
  exact (proj2 (proj2 (proj2 (proj2 (proj2
           (initialize_renders sample_mesh_environment eq_refl)))))).
Defined.
